(** * Chain event ingestion and checkpointing engine

    A shallow embedding of the two chain-watching scripts of the repository,
    [egg_premium.js] (the ERC-721 monitor, module [Egg]) and
    [items_erc1155_monitor.js] (the ERC-1155 monitor, module [Items]), and the
    properties of their range scheduling, filtering, deduplication and
    checkpointing.

    Conventions of the embedding:
    - block heights, checkpoints and the integer configuration values are JS
      numbers holding integers: [Z];
    - token identifiers and amounts are [uint256] values delivered as BigInt:
      [N], rendered by [toString] in decimal;
    - addresses and hashes are [string]s; [toLowerCase] is modelled on ASCII,
      which is all a hexadecimal address or hash contains;
    - a value that can be [undefined] is an [option];
    - an [async] function is a state-passing computation [Run W A] over the
      world [W] (the two JSON files, the poller's closure variable and the
      log of chain queries), which returns a value, throws, or runs out of
      fuel in one of the two scanning loops;
    - the calls that can fail are those to the chain client
      ([getBlockNumber], [queryFilter], [getBlock]); reading a JSON file
      falls back to its default as [loadJson] does, and writing one
      succeeds;
    - the event loop that runs the ticks is a step relation (module
      [Timer]).

    The definitions come first: the scheduler, the computations, the part
    the two scripts share, each script, the timer, and the notions and
    scenarios the properties are stated with. The facts follow, and the
    theorems C1 to C10 among them. *)

From Stdlib Require Import Ascii.
From stdpp Require Import gmap strings list pretty sorting.

Open Scope Z_scope.

(** ** Strings *)

Definition ascii_toLowerCase (c : ascii) : ascii :=
  let n := N_of_ascii c in
  if bool_decide (65 ≤ n ∧ n ≤ 90)%N then ascii_of_N (n + 32) else c.

Fixpoint toLowerCase (s : string) : string :=
  match s with
  | EmptyString => EmptyString
  | String c s' => String (ascii_toLowerCase c) (toLowerCase s')
  end.

(** Two addresses that differ at most in the case of their letters. *)
Definition same_address (a b : string) : Prop := toLowerCase a = toLowerCase b.

(** BigInt [toString()]. *)
Definition toString (n : N) : string := pretty n.

Global Arguments toString : simpl never.

(** [x || ""] for a string that may be [undefined]. *)
Definition orEmpty (o : option string) : string := default "" o.

(** ** Scan ranges and the range scheduler *)

Record ScanRange := { range_start : Z; range_end : Z }.

(** The heights a range stands for, both ends included. *)
Definition heights (r : ScanRange) : list Z :=
  seqZ (range_start r) (range_end r - range_start r + 1).

(** The ranges of the backfill loop of [scanHistorical]:
    [for (let start = fromBlock; start <= latest; start += CHUNK + 1)
       { const end = Math.min(latest, start + CHUNK); ... }].
    One unit of fuel pays for one iteration; [None] when the fuel runs out
    with the loop condition still true. *)
Fixpoint chunks (fuel : nat) (start latest CHUNK : Z) : option (list ScanRange) :=
  if bool_decide (start ≤ latest) then
    match fuel with
    | O => None
    | S fuel' =>
        let end_ := Z.min latest (start + CHUNK) in
        rest ← chunks fuel' (start + (CHUNK + 1)) latest CHUNK;
        Some ({| range_start := start; range_end := end_ |} :: rest)
    end
  else Some [].

(** The ranges of the poll loop of [tick]:
    [while (cursor <= safeHead)
       { const sliceEnd = Math.min(cursor + CHUNK, safeHead); ...;
         cursor = sliceEnd + 1; }]. *)
Fixpoint slices (fuel : nat) (cursor safeHead CHUNK : Z) : option (list ScanRange) :=
  if bool_decide (cursor ≤ safeHead) then
    match fuel with
    | O => None
    | S fuel' =>
        let sliceEnd := Z.min (cursor + CHUNK) safeHead in
        rest ← slices fuel' (sliceEnd + 1) safeHead CHUNK;
        Some ({| range_start := cursor; range_end := sliceEnd |} :: rest)
    end
  else Some [].

(** Iterations that suffice for the interval [start, latest] when every
    iteration advances by at least one height. *)
Definition enough (start latest : Z) : nat := Z.to_nat (latest - start + 1).

(** Each range starts right after the one before it. *)
Fixpoint contiguous (rs : list ScanRange) : Prop :=
  match rs with
  | r1 :: ((r2 :: _) as rest) => range_start r2 = range_end r1 + 1 ∧ contiguous rest
  | _ => True
  end.

(** ** Computations

    The outcome of an [async] function: it returns, it throws (its promise
    rejects), or the fuel of a scanning loop ran out before the loop's
    condition became false. *)

Inductive result (A : Type) : Type :=
| Ok (a : A)
| Throw (e : string)
| OutOfFuel.
Arguments Ok {A} a.
Arguments Throw {A} e.
Arguments OutOfFuel {A}.

Definition Run (W A : Type) : Type := W → W * result A.

Section Run.
Context {W : Type}.

Definition ret {A} (a : A) : Run W A := λ w, (w, Ok a).

Definition bind {A B} (m : Run W A) (k : A → Run W B) : Run W B :=
  λ w, match m w with
       | (w', Ok a) => k a w'
       | (w', Throw e) => (w', Throw e)
       | (w', OutOfFuel) => (w', OutOfFuel)
       end.

Definition throw {A} (e : string) : Run W A := λ w, (w, Throw e).

Definition diverge {A} : Run W A := λ w, (w, OutOfFuel).

(** [try { m } catch (e) { handler(e) }]: only a thrown error is caught. *)
Definition tryCatch (m : Run W unit) (handler : string → Run W unit) : Run W unit :=
  λ w, match m w with
       | (w', Throw e) => handler e w'
       | other => other
       end.

Definition gets {A} (f : W → A) : Run W A := λ w, (w, Ok (f w)).

Definition modify (f : W → W) : Run W unit := λ w, (f w, Ok ()).

(** [await] of a call to an external collaborator, whose promise resolves
    with a value ([Some]) or rejects ([None]). *)
Definition await {A} (call : option A) (e : string) : Run W A :=
  match call with
  | Some a => ret a
  | None => throw e
  end.

(** [for (const x of l) { await body(x); }] *)
Fixpoint forEach {A} (l : list A) (body : A → Run W unit) : Run W unit :=
  match l with
  | [] => ret ()
  | x :: l' => bind (body x) (λ _, forEach l' body)
  end.

End Run.

Global Instance Run_ret {W} : MRet (Run W) := λ A a, ret a.
Global Instance Run_bind {W} : MBind (Run W) := λ A B k m, bind m k.

(** ** The world of a monitor *)

Inductive EventFilter :=
| Transfer (to : string)
| TransferSingle
| TransferBatch.

(** One call of [contract.queryFilter(filter, start, end)]. *)
Record Query := { q_filter : EventFilter; q_from : Z; q_to : Z }.

(** [db] is the content of [OUT_PATH] ([loadDb] gives the empty list when the
    file is absent), [progress] the [lastProcessed] field of [PROGRESS_PATH]
    ([None] when the file is absent or unreadable), [lastProcessed] the
    variable of that name that [tick] closes over, and [queries] the calls
    made to the chain client so far, oldest first. *)
Record World (Row : Type) := mkWorld {
  db : list Row;
  progress : option Z;
  lastProcessed : Z;
  queries : list Query;
}.
Arguments mkWorld {Row}.
Arguments db {Row}.
Arguments progress {Row}.
Arguments lastProcessed {Row}.
Arguments queries {Row}.

Record Config := {
  env_WATCH_WALLET : string;
  CONTRACT_ADDRESS : string;
  POLL_INTERVAL_MS : Z;
  CONFIRMATIONS : Z;
  CHUNK : Z;
  INIT_LOOKBACK : Z;
  FROM_BLOCK : option Z;
}.

(** [const WATCH_WALLET = (process.env.WATCH_WALLET || "").toLowerCase();] *)
Definition WATCH_WALLET (cfg : Config) : string := toLowerCase (env_WATCH_WALLET cfg).

(** ** The part the two scripts share *)

Section Store.
Context {Row : Type}.
Variable blockNumber : Row → Z.

Definition loadDb : Run (World Row) (list Row) := gets db.

(** [saveJson(OUT_PATH, rows)]; the write of the output file is taken to
    go through. *)
Definition saveDb (rows : list Row) : Run (World Row) unit :=
  modify (λ w, mkWorld rows (progress w) (lastProcessed w) (queries w)).

(** [const d = loadJson(PROGRESS_PATH, { lastProcessed: 0 });
     return d.lastProcessed || 0;] *)
Definition loadProgress : Run (World Row) Z := gets (λ w, default 0 (progress w)).

(** [fs.writeFileSync(PROGRESS_PATH, ...)] goes through ([Some]) or throws
    ([None]); a write that throws leaves the file as it was. *)
Definition saveProgress (written : option unit) (height : Z) : Run (World Row) unit :=
  await written "writeFileSync";;
  modify (λ w, mkWorld (db w) (Some height) (lastProcessed w) (queries w)).

Definition set_lastProcessed (height : Z) : Run (World Row) unit :=
  modify (λ w, mkWorld (db w) (progress w) height (queries w)).

(** [contract.queryFilter(filter, start, end)]: the call is made, then its
    promise settles. *)
Definition queryFilter {E} (filter : EventFilter) (start end_ : Z)
    (answer : option (list E)) : Run (World Row) (list E) :=
  modify (λ w, mkWorld (db w) (progress w) (lastProcessed w)
                 (queries w ++ [{| q_filter := filter; q_from := start; q_to := end_ |}]));;
  await answer "queryFilter".

(** [rows.sort((a, b) => b.blockNumber - a.blockNumber)]: a stable sort,
    highest block first. *)
Fixpoint insert_desc (x : Row) (l : list Row) : list Row :=
  match l with
  | [] => [x]
  | y :: l' => if bool_decide (blockNumber x < blockNumber y)
               then y :: insert_desc x l'
               else x :: l
  end.

Definition sort_desc (l : list Row) : list Row := foldr insert_desc [] l.

End Store.

Section Engine.
Context {Row : Type}.
Variable cfg : Config.
(** What [provider.getBlockNumber()] answers at this call, and the script's
    own [querySlice]. *)
Variable getBlockNumber : option Z.
Variable querySlice : Z → Z → Run (World Row) unit.
(** Whether the write of the checkpoint file goes through, by the height
    to be written. *)
Variable writeProgress : Z → option unit.

(** The starting height of [scanHistorical]:
    [if (progress > 0) fromBlock = Math.max(0, progress - CONFIRMATIONS);
     else if (process.env.FROM_BLOCK) fromBlock = parseInt(process.env.FROM_BLOCK);
     else fromBlock = Math.max(0, latest - INIT_LOOKBACK);] *)
Definition fromBlockOf (progress latest : Z) : Z :=
  if bool_decide (progress > 0) then Z.max 0 (progress - CONFIRMATIONS cfg)
  else match FROM_BLOCK cfg with
       | Some b => b
       | None => Z.max 0 (latest - INIT_LOOKBACK cfg)
       end.

Fixpoint backfillLoop (fuel : nat) (start latest : Z) : Run (World Row) unit :=
  if bool_decide (start ≤ latest) then
    match fuel with
    | O => diverge
    | S fuel' =>
        let end_ := Z.min latest (start + CHUNK cfg) in
        querySlice start end_;;
        saveProgress (writeProgress end_) end_;;
        backfillLoop fuel' (start + (CHUNK cfg + 1)) latest
    end
  else mret ().

Definition scanHistorical (fuel : nat) : Run (World Row) Z :=
  latest ← await getBlockNumber "getBlockNumber";
  progress ← loadProgress;
  let fromBlock := fromBlockOf progress latest in
  backfillLoop fuel fromBlock latest;;
  mret latest.

Fixpoint pollLoop (fuel : nat) (cursor safeHead : Z) : Run (World Row) unit :=
  if bool_decide (cursor ≤ safeHead) then
    match fuel with
    | O => diverge
    | S fuel' =>
        let sliceEnd := Z.min (cursor + CHUNK cfg) safeHead in
        querySlice cursor sliceEnd;;
        pollLoop fuel' (sliceEnd + 1) safeHead
    end
  else mret ().

(** The body of the [try] block of [tick]. *)
Definition tickBody (fuel : nat) : Run (World Row) unit :=
  head ← await getBlockNumber "getBlockNumber";
  let safeHead := head - CONFIRMATIONS cfg in
  last ← gets lastProcessed;
  if bool_decide (safeHead ≤ last) then mret ()
  else
    pollLoop fuel (last + 1) safeHead;;
    set_lastProcessed safeHead;;
    saveProgress (writeProgress safeHead) safeHead.

(** [try { ... } catch (e) { log(`Polling error: ${e.message}`); }] *)
Definition tick (fuel : nat) : Run (World Row) unit :=
  tryCatch (tickBody fuel) (λ _, mret ()).


End Engine.

(** The starting height as the specification words it: the checkpoint when
    one greater than zero exists, moved back by the confirmation depth; else
    the configured override; else the head moved back by the lookback
    window. *)
Definition ComputeStart (checkpoint : option Z) (confirmations : Z)
    (override : option Z) (currentHead lookbackWindow : Z) : Z :=
  match checkpoint with
  | Some c =>
      if bool_decide (0 < c) then Z.max 0 (c - confirmations)
      else match override with
           | Some o => o
           | None => Z.max 0 (currentHead - lookbackWindow)
           end
  | None =>
      match override with
      | Some o => o
      | None => Z.max 0 (currentHead - lookbackWindow)
      end
  end.

(** ** The ERC-1155 monitor, [items_erc1155_monitor.js] *)

Module Items.

(** Item ID to name. *)
Definition ITEM_TYPES : gmap string string :=
  list_to_map
    [ ("4", "Bolt"); ("5", "Pipe");
      ("73", "Crusader Dust"); ("74", "Overseer Dust"); ("75", "Athena Dust");
      ("76", "Archon Dust"); ("77", "Foxglove Dust"); ("78", "Summoner Dust");
      ("79", "Chobo Dust");
      ("80", "Crusader Shard"); ("81", "Overseer Shard"); ("82", "Athena Shard");
      ("83", "Archon Shard"); ("84", "Foxglove Shard"); ("85", "Summoner Shard");
      ("86", "Chobo Shard") ].

(** [new Set(Object.keys(ITEM_TYPES))] *)
Definition WATCH_TOKEN_IDS : gset string := dom ITEM_TYPES.

Global Arguments ITEM_TYPES : simpl never.
Global Arguments WATCH_TOKEN_IDS : simpl never.

(** [ITEM_TYPES[key] || "Unknown"] *)
Definition itemTypeOf (key : string) : string :=
  match ITEM_TYPES !! key with
  | Some name => if bool_decide (name = "") then "Unknown" else name
  | None => "Unknown"
  end.

Record Row := {
  receivedTo : string;
  sender : string;
  tokenIds : list string;
  amounts : list string;
  itemTypes : list string;
  totalAmount : string;
  blockNumber : Z;
  txHash : string;
  dateISO : Z;  (* the instant that [toISOString] prints, in milliseconds *)
  contract : string;
}.

(** [ev.log ?? ev], as far as the monitor reads it. *)
Record Log := { log_blockNumber : Z; transactionHash : string }.

(** A decoded [TransferSingle] event: [ev.args] and the log. *)
Record SingleEvent := {
  single_from : option string;
  single_to : option string;
  single_id : option N;
  single_value : option N;
  single_log : Log;
}.

(** A decoded [TransferBatch] event; [batch_ids] and [batch_values] are
    [None] when the argument is not an array. *)
Record BatchEvent := {
  batch_from : option string;
  batch_to : option string;
  batch_ids : option (list N);
  batch_values : option (list N);
  batch_log : Log;
}.

(** The chain client as one call of [querySlice], [scanHistorical] or [tick]
    meets it; [getBlock] gives the block's timestamp in seconds. With it,
    the file system as [saveProgress] meets it: [writeProgress h] is [None]
    when the write of the checkpoint file with height [h] throws. *)
Record Chain := {
  getBlockNumber : option Z;
  logsSingle : Z → Z → option (list SingleEvent);
  logsBatch : Z → Z → option (list BatchEvent);
  getBlock : Z → option Z;
  writeProgress : Z → option unit;
}.

(** The transaction hashes of the stored rows, as [enrichAndPersist]
    compares them. *)
Definition hashes (rows : list Row) : list string :=
  (λ x, toLowerCase (txHash x)) <$> rows.

(** The entries of a batch that the watch filter is to keep: identifier and
    amount both present and not zero, identifier in the watch-set. *)
Definition watched_entries (ids values : list N) : list (N * N) :=
  filter (λ p, p.1 ≠ 0%N ∧ p.2 ≠ 0%N ∧ toString p.1 ∈ WATCH_TOKEN_IDS) (zip ids values).

(** [!x] for a BigInt that may be [undefined]. *)
Definition falsy (x : option N) : bool :=
  match x with
  | Some n => bool_decide (n = 0%N)
  | None => true
  end.

Section Monitor.
Variable cfg : Config.
Variable chain : Chain.

(** The [row] that [enrichAndPersist] builds once the block's timestamp (in
    seconds) is known. *)
Definition newRow (from to : string) (ids values : list N) (logObj : Log)
    (timestamp : Z) : Row :=
  let isoDate := timestamp * 1000 in
  let types := (λ id, itemTypeOf (toString id)) <$> ids in
  let total := toString (foldl (λ sum amt, sum + amt)%N 0%N values) in
  {| receivedTo := to;
     sender := from;
     tokenIds := toString <$> ids;
     amounts := toString <$> values;
     itemTypes := types;
     totalAmount := total;
     blockNumber := log_blockNumber logObj;
     txHash := transactionHash logObj;
     dateISO := isoDate;
     contract := CONTRACT_ADDRESS cfg |}.

Definition enrichAndPersist (from to : string) (ids values : list N) (logObj : Log)
    : Run (World Row) unit :=
  timestamp ← await (getBlock chain (log_blockNumber logObj)) "getBlock";
  let row := newRow from to ids values logObj timestamp in
  rows ← loadDb;
  let hash := toLowerCase (transactionHash logObj) in
  match list_find (λ x, toLowerCase (txHash x) = hash) rows with
  | None => saveDb (sort_desc blockNumber (rows ++ [row]))
  | Some _ => mret ()
  end.

Definition handleTransferSingle (ev : SingleEvent) : Run (World Row) unit :=
  let fromAddr := toLowerCase (orEmpty (single_from ev)) in
  let toAddr := toLowerCase (orEmpty (single_to ev)) in
  match single_id ev, single_value ev with
  | Some id, Some value =>
      if falsy (Some id) || falsy (Some value) then mret ()
      else if bool_decide (toAddr ≠ WATCH_WALLET cfg) then mret ()
      else if bool_decide (toString id ∉ WATCH_TOKEN_IDS) then mret ()
      else enrichAndPersist fromAddr toAddr [id] [value] (single_log ev)
  | _, _ => mret ()
  end.

(** The loop of [handleTransferBatch] from index [i] on, [rest] being
    [ids.slice(i)]; it returns [filteredIds] and [filteredValues]. *)
Fixpoint filterBatch (i : nat) (rest values filteredIds filteredValues : list N)
    : list N * list N :=
  match rest with
  | [] => (filteredIds, filteredValues)
  | id :: rest' =>
      match values !! i with
      | Some value =>
          if falsy (Some id) || falsy (Some value)
          then filterBatch (S i) rest' values filteredIds filteredValues
          else if bool_decide (toString id ∉ WATCH_TOKEN_IDS)
          then filterBatch (S i) rest' values filteredIds filteredValues
          else filterBatch (S i) rest' values (filteredIds ++ [id]) (filteredValues ++ [value])
      | None => filterBatch (S i) rest' values filteredIds filteredValues
      end
  end.

Definition handleTransferBatch (ev : BatchEvent) : Run (World Row) unit :=
  let fromAddr := toLowerCase (orEmpty (batch_from ev)) in
  let toAddr := toLowerCase (orEmpty (batch_to ev)) in
  match batch_ids ev, batch_values ev with
  | Some ids, Some values =>
      if bool_decide (toAddr ≠ WATCH_WALLET cfg) then mret ()
      else
        let '(filteredIds, filteredValues) := filterBatch 0 ids values [] [] in
        if bool_decide (0 < length filteredIds)%nat
        then enrichAndPersist fromAddr toAddr filteredIds filteredValues (batch_log ev)
        else mret ()
  | _, _ => mret ()
  end.

(** The two loops that end [querySlice]. *)
Definition handleLogs (singleLogs : list SingleEvent) (batchLogs : list BatchEvent)
    : Run (World Row) unit :=
  forEach singleLogs handleTransferSingle;;
  forEach batchLogs handleTransferBatch.

(** [Promise.all] makes both queries before either answer is awaited, and
    rejects when one of them does. *)
Definition querySlice (start end_ : Z) : Run (World Row) unit :=
  modify (λ w, mkWorld (db w) (progress w) (lastProcessed w)
                 (queries w ++ [ {| q_filter := TransferSingle; q_from := start; q_to := end_ |};
                                 {| q_filter := TransferBatch; q_from := start; q_to := end_ |} ]));;
  singleLogs ← await (logsSingle chain start end_) "queryFilter";
  batchLogs ← await (logsBatch chain start end_) "queryFilter";
  handleLogs singleLogs batchLogs.

Definition scanHistorical (fuel : nat) : Run (World Row) Z :=
  scanHistorical cfg (getBlockNumber chain) querySlice (writeProgress chain) fuel.

Definition tick (fuel : nat) : Run (World Row) unit :=
  tick cfg (getBlockNumber chain) querySlice (writeProgress chain) fuel.

End Monitor.

(** The stores the monitor can leave behind: it starts without an output
    file, and only [enrichAndPersist] writes it. *)
Inductive reachable : World Row → Prop :=
| reach_start w : db w = [] → reachable w
| reach_append cfg chain from to ids values logObj w :
    reachable w →
    reachable (enrichAndPersist cfg chain from to ids values logObj w).1
| reach_other w w' : reachable w → db w' = db w → reachable w'.

(** A handler decides on the event alone: either it leaves the world as it
    is, whatever the chain and the world, or it hands the same arguments to
    [enrichAndPersist], whatever the chain. *)
Definition decides (cfg : Config) (h : Chain → Run (World Row) unit) : Prop :=
  (∀ chain w, h chain w = (w, Ok ()))
  ∨ (∃ from to ids values logObj,
       ∀ chain, h chain = enrichAndPersist cfg chain from to ids values logObj).

End Items.

(** ** The ERC-721 monitor, [egg_premium.js] *)

Module Egg.

Record Row := {
  receivedTo : string;
  sender : string;
  tokenId : string;
  eggType : string;
  blockNumber : Z;
  txHash : string;
  dateISO : Z;  (* the instant that [toISOString] prints, in milliseconds *)
}.

Record Log := { log_blockNumber : Z; transactionHash : string }.

(** A decoded [Transfer] event. *)
Record Event := {
  ev_from : option string;
  ev_to : option string;
  ev_tokenId : N;
  ev_log : Log;
}.

(** The chain client, and the metadata service behind [fetchEggType] (which
    catches its own errors and answers "Unknown" then). With them, the file
    system as [saveProgress] meets it: [writeProgress h] is [None] when the
    write of the checkpoint file with height [h] throws. *)
Record Chain := {
  getBlockNumber : option Z;
  logs : EventFilter → Z → Z → option (list Event);
  getBlock : Z → option Z;
  fetchEggType : string → string;
  writeProgress : Z → option unit;
}.

(** [`${row.txHash.toLowerCase()}_${row.tokenId}`] *)
Definition makeKey (row : Row) : string :=
  toLowerCase (txHash row) +:+ "_" +:+ tokenId row.

(** The keys of the stored rows. *)
Definition keys (rows : list Row) : list string := makeKey <$> rows.

(** The key of the row that [enrichAndPersist] builds for a token of a log. *)
Definition keyOf (id : N) (logObj : Log) : string :=
  toLowerCase (transactionHash logObj) +:+ "_" +:+ toString id.

Section Monitor.
Variable cfg : Config.
Variable chain : Chain.

(** The [row] that [enrichAndPersist] builds once the block's timestamp (in
    seconds) is known. *)
Definition newRow (from to : string) (id : N) (logObj : Log) (timestamp : Z) : Row :=
  let isoDate := timestamp * 1000 in
  let egg := fetchEggType chain (toString id) in
  {| receivedTo := to;
     sender := from;
     tokenId := toString id;
     eggType := egg;
     blockNumber := log_blockNumber logObj;
     txHash := transactionHash logObj;
     dateISO := isoDate |}.

Definition enrichAndPersist (from to : string) (id : N) (logObj : Log)
    : Run (World Row) unit :=
  timestamp ← await (getBlock chain (log_blockNumber logObj)) "getBlock";
  let row := newRow from to id logObj timestamp in
  rows ← loadDb;
  let key := makeKey row in
  match list_find (λ x, makeKey x = key) rows with
  | None => saveDb (sort_desc blockNumber (rows ++ [row]))
  | Some _ => mret ()
  end.

(** The loop of [querySlice] over the logs it received. *)
Definition handleLogs (evs : list Event) : Run (World Row) unit :=
  forEach evs (λ ev,
    let fromAddr := toLowerCase (orEmpty (ev_from ev)) in
    let toAddr := toLowerCase (orEmpty (ev_to ev)) in
    enrichAndPersist fromAddr toAddr (ev_tokenId ev) (ev_log ev)).

Definition querySlice (filter : EventFilter) (start end_ : Z) : Run (World Row) unit :=
  evs ← queryFilter filter start end_ (logs chain filter start end_);
  handleLogs evs.

(** [const filter = contract.filters.Transfer(null, WATCH_WALLET);] *)
Definition filter : EventFilter := Transfer (WATCH_WALLET cfg).

Definition scanHistorical (fuel : nat) : Run (World Row) Z :=
  scanHistorical cfg (getBlockNumber chain) (querySlice filter) (writeProgress chain) fuel.

Definition tick (fuel : nat) : Run (World Row) unit :=
  tick cfg (getBlockNumber chain) (querySlice filter) (writeProgress chain) fuel.

End Monitor.

Inductive reachable : World Row → Prop :=
| reach_start w : db w = [] → reachable w
| reach_append chain from to id logObj w :
    reachable w →
    reachable (enrichAndPersist chain from to id logObj w).1
| reach_other w w' : reachable w → db w' = db w → reachable w'.

End Egg.

(** ** The timer of [startLivePoll]

    [await tick(); setInterval(tick, POLL_INTERVAL_MS);] on the event loop.
    A call of [tick] runs up to its first [await] (of
    [provider.getBlockNumber()]) and is suspended there, so a tick that has
    begun is still running when the step that began it ends; it settles in a
    later step. The continuation of [await tick()] installs the timer as
    soon as the first tick settles. Once installed, the timer calls [tick]
    at every firing. *)

Module Timer.

Inductive Phase := Starting | FirstTick | Polling.

(** [running] lists the ticks that have begun and not settled, by their
    number; [begun] counts the calls of [tick] so far. *)
Record State := { phase : Phase; begun : nat; running : list nat }.

Inductive Event :=
| CallFirst          (* [startLivePoll] calls [tick()] *)
| Settle (i : nat)   (* the promise of tick [i] settles *)
| Fire.              (* the interval elapses: the timer calls [tick] *)

Definition initial : State := {| phase := Starting; begun := 0; running := [] |}.

Definition remove (i : nat) (l : list nat) : list nat :=
  filter (λ j, j ≠ i) l.

Inductive step : State → Event → State → Prop :=
| step_first :
    step {| phase := Starting; begun := 0; running := [] |} CallFirst
         {| phase := FirstTick; begun := 1; running := [0%nat] |}
| step_settle_first n i l :
    i ∈ l →
    step {| phase := FirstTick; begun := n; running := l |} (Settle i)
         {| phase := Polling; begun := n; running := remove i l |}
| step_settle n i l :
    i ∈ l →
    step {| phase := Polling; begun := n; running := l |} (Settle i)
         {| phase := Polling; begun := n; running := remove i l |}
| step_fire n l :
    step {| phase := Polling; begun := n; running := l |} Fire
         {| phase := Polling; begun := S n; running := l ++ [n] |}.

(** The states of an execution, with the events that led there. *)
Inductive reaches : list Event → State → Prop :=
| reaches_initial : reaches [] initial
| reaches_step evs s ev s' : reaches evs s → step s ev s' → reaches (evs ++ [ev]) s'.

(** An event that begins a tick. *)
Definition begins (ev : Event) : bool :=
  match ev with
  | CallFirst | Fire => true
  | Settle _ => false
  end.

(** Ticks are serialized when no tick begins while another is running. *)
Definition serialized : Prop :=
  ∀ evs s ev s', reaches evs s → step s ev s' → begins ev = true → running s = [].

(** Along the execution [evs] at most one tick is running at any time. *)
Definition overlap_free (evs : list Event) : Prop :=
  ∀ evs1 evs2 s1, evs = evs1 ++ evs2 → reaches evs1 s1 → (length (running s1) ≤ 1)%nat.

(** Along the execution [evs] every tick has settled by the time the timer
    fires next: each tick completes within one poll interval. *)
Definition timely (evs : list Event) : Prop :=
  ∀ evs1 evs2 s1, evs = evs1 ++ Fire :: evs2 → reaches evs1 s1 → running s1 = [].

End Timer.
(** ** Notions used to state the properties *)

(** Every run of [m] relates the world before to the world after by [R]. *)
Definition keeps {W A} (R : W → W → Prop) (m : Run W A) : Prop := ∀ w, R w (m w).1.

(** Only the output file changes. *)
Definition store_only {Row} (w w' : World Row) : Prop :=
  progress w' = progress w ∧ lastProcessed w' = lastProcessed w
  ∧ queries w' = queries w.

(** The checkpoint, in the file and in memory, stays; queries are added, all
    of them ending at or below [bound]. *)
Definition scans_upto {Row} (bound : Z) (w w' : World Row) : Prop :=
  progress w' = progress w ∧ lastProcessed w' = lastProcessed w
  ∧ ∃ qs, queries w' = queries w ++ qs ∧ Forall (λ q, q_to q ≤ bound) qs.

(** A run from a reachable world ends in a reachable world. *)
Definition stays {Row} (reachable : World Row → Prop) (w w' : World Row) : Prop :=
  reachable w → reachable w'.

(** The queries made for the ranges [rs], when [issued s e] are the queries
    [querySlice] makes for the range from [s] to [e]. *)
Definition issued_for (issued : Z → Z → list Query) (rs : list ScanRange) : list Query :=
  concat ((λ r, issued (range_start r) (range_end r)) <$> rs).

(** The ranges C2 names for maxSize=100, start=0, end=250, and the ranges
    the loops produce. *)
Definition claimed_ranges : list ScanRange :=
  [ {| range_start := 0; range_end := 100 |};
    {| range_start := 101; range_end := 200 |};
    {| range_start := 201; range_end := 250 |} ].

Definition produced_ranges : list ScanRange :=
  [ {| range_start := 0; range_end := 100 |};
    {| range_start := 101; range_end := 201 |};
    {| range_start := 202; range_end := 250 |} ].

(** ** Scenarios

    A configuration, worlds and chains on which the monitors are run. *)

Module Scenario.

Definition cfg : Config :=
  {| env_WATCH_WALLET := "0xAbCd00000000000000000000000000000000Ef12";
     CONTRACT_ADDRESS := "0x50A5eb2B3B289D4cFda0e307609b655175a275b1";
     POLL_INTERVAL_MS := 3000;
     CONFIRMATIONS := 2;
     CHUNK := 100;
     INIT_LOOKBACK := 50000;
     FROM_BLOCK := None |}.

(** No output file, no checkpoint, nothing queried yet. *)
Definition fresh {Row} : World Row := mkWorld [] None 0 [].

(** The checkpoint at height 100. *)
Definition at100 {Row} : World Row := mkWorld [] (Some 100) 100 [].

(** One transaction at height 150 that moves two tokens to the watched
    wallet: two [Transfer] events with the same transaction hash. *)
Definition transfer (id : N) : Egg.Event :=
  {| Egg.ev_from := Some "0x00000000000000000000000000000000000000F0";
     Egg.ev_to := Some "0xABCD00000000000000000000000000000000EF12";
     Egg.ev_tokenId := id;
     Egg.ev_log := {| Egg.log_blockNumber := 150; Egg.transactionHash := "0xabc" |} |}.

Definition egg_chain : Egg.Chain :=
  {| Egg.getBlockNumber := Some 252;
     Egg.logs := λ _ s e, if bool_decide (s ≤ 150 ≤ e)
                          then Some [transfer 1; transfer 2] else Some [];
     Egg.getBlock := λ _, Some 1700000000;
     Egg.fetchEggType := λ _, "Unknown";
     Egg.writeProgress := λ _, Some () |}.

(** A batch of 3 of item 5 (watched) and 7 of item 999 (not watched), sent
    to the watched wallet. *)
Definition batch : Items.BatchEvent :=
  {| Items.batch_from := Some "0x00000000000000000000000000000000000000F0";
     Items.batch_to := Some "0xABCD00000000000000000000000000000000EF12";
     Items.batch_ids := Some [5; 999]%N;
     Items.batch_values := Some [3; 7]%N;
     Items.batch_log := {| Items.log_blockNumber := 150; Items.transactionHash := "0xdef" |} |}.

(** A transfer of nothing: amount 0 of item 5, to the watched wallet. *)
Definition nothing : Items.SingleEvent :=
  {| Items.single_from := Some "0x00000000000000000000000000000000000000F0";
     Items.single_to := Some "0xABCD00000000000000000000000000000000EF12";
     Items.single_id := Some 5%N;
     Items.single_value := Some 0%N;
     Items.single_log := {| Items.log_blockNumber := 150; Items.transactionHash := "0x123" |} |}.

(** Item 5 sent to some other wallet. *)
Definition elsewhere : Items.SingleEvent :=
  {| Items.single_from := Some "0x00000000000000000000000000000000000000F0";
     Items.single_to := Some "0x00000000000000000000000000000000000000E1";
     Items.single_id := Some 5%N;
     Items.single_value := Some 1%N;
     Items.single_log := {| Items.log_blockNumber := 150; Items.transactionHash := "0x456" |} |}.

Definition items_chain : Items.Chain :=
  {| Items.getBlockNumber := Some 252;
     Items.logsSingle := λ s e, Some [];
     Items.logsBatch := λ s e, if bool_decide (s ≤ 150 ≤ e) then Some [batch] else Some [];
     Items.getBlock := λ _, Some 1700000000;
     Items.writeProgress := λ _, Some () |}.


(** A backfill from height 0 to a head at 250, in ranges of width 100. *)
Definition cfg_from_0 : Config :=
  {| env_WATCH_WALLET := env_WATCH_WALLET cfg;
     CONTRACT_ADDRESS := CONTRACT_ADDRESS cfg;
     POLL_INTERVAL_MS := 3000;
     CONFIRMATIONS := 2;
     CHUNK := 100;
     INIT_LOOKBACK := 50000;
     FROM_BLOCK := Some 0 |}.

Definition egg_chain_250 : Egg.Chain :=
  {| Egg.getBlockNumber := Some 250;
     Egg.logs := Egg.logs egg_chain;
     Egg.getBlock := Egg.getBlock egg_chain;
     Egg.fetchEggType := Egg.fetchEggType egg_chain;
     Egg.writeProgress := Egg.writeProgress egg_chain |}.


End Scenario.

(** ** Start-up

    The body of either script: [getNetwork], the backfill, then
    [startLivePoll] up to its call of [setInterval] (which module [Timer]
    takes over). The chain may have moved on between the backfill and the
    first tick, so each gets its own answers. *)

Section Startup.
Context {Row : Type}.
Variable cfg : Config.



End Startup.

(** ** The egg type of a token, [egg_premium.js]

    [parseEggTypeFromJson] and [fetchEggType] with its cache. The body of a
    metadata response is read as far as the script reads it: a field that is
    absent is [None], and so is an entry of [attributes] that is [null]. *)

Module EggType.

Record Attribute := { trait_type : option string; value : option string }.

(** [attributes] is [None] when the field is not an array. *)
Record Metadata := { attributes : option (list (option Attribute)) }.

(** [String(a?.trait_type)] *)
Definition traitName (a : option Attribute) : string :=
  match a ≫= trait_type with
  | Some name => name
  | None => "undefined"
  end.

(** [x || null] for a string that may be absent: the empty string is falsy. *)
Definition truthy (x : option string) : option string :=
  match x with
  | Some s => if bool_decide (s = "") then None else Some s
  | None => None
  end.

(** [if (!json || !Array.isArray(json.attributes)) return null;
     const attr = json.attributes.find(
       (a) => String(a?.trait_type).toLowerCase() === "egg type");
     return attr?.value || null;] *)
Definition parseEggTypeFromJson (json : option Metadata) : option string :=
  match json with
  | None => None
  | Some j =>
      match attributes j with
      | None => None
      | Some attrs =>
          match list_find (λ a, toLowerCase (traitName a) = "egg type") attrs with
          | Some (_, attr) => truthy (attr ≫= value)
          | None => None
          end
      end
  end.

(** What [fetch(url)] comes to: it rejects, or it resolves with [res.ok]
    and a body that [res.json()] cannot parse ([None]) or parses to a value
    (itself [None] when that value is [null]). *)
Inductive Response :=
| NetworkError
| Status (ok : bool) (body : option (option Metadata)).

(** The [try] block of [fetchEggType], from ["Unknown"] on. *)
Definition eggTypeOf (res : Response) : string :=
  match res with
  | NetworkError => "Unknown"
  | Status false _ => "Unknown"
  | Status true None => "Unknown"
  | Status true (Some json) =>
      match parseEggTypeFromJson json with
      | Some found => found
      | None => "Unknown"
      end
  end.

Record Entry := { eggType : string; cachedAt : Z }.

(** [eggCache] (and its file, which [saveEggCache] rewrites after every
    change), and the keys [fetch] was called for, oldest first. *)
Record Cache := { eggCache : gmap string Entry; fetched : list string }.

(** [fetch] answers for the key in the URL; [now] is the clock. *)
Definition fetchEggType (fetch : string → Response) (now : Z) (tokenId : N)
    : Run Cache string :=
  let key := toString tokenId in
  cache ← gets eggCache;
  match truthy (eggType <$> cache !! key) with
  | Some cached => mret cached
  | None =>
      modify (λ w, {| eggCache := eggCache w; fetched := fetched w ++ [key] |});;
      let found := eggTypeOf (fetch key) in
      modify (λ w, {| eggCache := <[key := {| eggType := found; cachedAt := now |}]> (eggCache w);
                      fetched := fetched w |});;
      mret found
  end.

End EggType.

(** ** Further notions *)

(** Highest block first. *)
Definition desc {Row} (blockNumber : Row → Z) (a b : Row) : Prop :=
  blockNumber b ≤ blockNumber a.

(** A chain client none of whose calls fails, and a checkpoint file that
    can be written. *)
Definition items_healthy (chain : Items.Chain) : Prop :=
  (∀ s e, is_Some (Items.logsSingle chain s e))
  ∧ (∀ s e, is_Some (Items.logsBatch chain s e))
  ∧ (∀ b, is_Some (Items.getBlock chain b))
  ∧ (∀ h, Items.writeProgress chain h = Some ()).

Definition egg_healthy (chain : Egg.Chain) : Prop :=
  (∀ filter s e, is_Some (Egg.logs chain filter s e))
  ∧ (∀ b, is_Some (Egg.getBlock chain b))
  ∧ (∀ h, Egg.writeProgress chain h = Some ()).

(** A row as the ERC-1155 monitor builds it from the entries it kept of an
    event: for the watched wallet and the configured contract, with at
    least one entry, every entry watched and with identifier and amount not
    zero, the three lists in step, every item named, and the total the sum
    of the amounts. *)
Definition items_row_ok (cfg : Config) (r : Items.Row) : Prop :=
  Items.receivedTo r = WATCH_WALLET cfg
  ∧ Items.contract r = CONTRACT_ADDRESS cfg
  ∧ ∃ entries : list (N * N),
      entries ≠ []
      ∧ Forall (λ p, p.1 ≠ 0%N ∧ p.2 ≠ 0%N ∧ toString p.1 ∈ Items.WATCH_TOKEN_IDS) entries
      ∧ Items.tokenIds r = toString <$> entries.*1
      ∧ Items.amounts r = toString <$> entries.*2
      ∧ Items.itemTypes r = (λ id, Items.itemTypeOf (toString id)) <$> entries.*1
      ∧ Items.totalAmount r = toString (foldr N.add 0%N entries.*2)
      ∧ "Unknown" ∉ Items.itemTypes r.

(** Where the backfill starts in the world [w] when the head is [latest]. *)
Definition backfill_start {Row} (cfg : Config) (w : World Row) (latest : Z) : Z :=
  ComputeStart (progress w) (CONFIRMATIONS cfg) (FROM_BLOCK cfg) latest (INIT_LOOKBACK cfg).

(** The queries [querySlice] makes for a range, in either monitor. *)
Definition items_issued (s e : Z) : list Query :=
  [ {| q_filter := TransferSingle; q_from := s; q_to := e |};
    {| q_filter := TransferBatch; q_from := s; q_to := e |} ].

Definition egg_issued (cfg : Config) (s e : Z) : list Query :=
  [ {| q_filter := Egg.filter cfg; q_from := s; q_to := e |} ].

(** Four of item 5 sent to the watched wallet in block 150, alone in its
    transaction, and a chain that holds just that. *)
Definition single_five : Items.SingleEvent :=
  {| Items.single_from := Some "0x00000000000000000000000000000000000000F0";
     Items.single_to := Some "0xABCD00000000000000000000000000000000EF12";
     Items.single_id := Some 5%N;
     Items.single_value := Some 4%N;
     Items.single_log := {| Items.log_blockNumber := 150; Items.transactionHash := "0x789" |} |}.

Definition items_chain_single : Items.Chain :=
  {| Items.getBlockNumber := Some 252;
     Items.logsSingle := λ s e, if bool_decide (s ≤ 150 ≤ e) then Some [single_five] else Some [];
     Items.logsBatch := λ s e, Some [];
     Items.getBlock := λ _, Some 1700000000;
     Items.writeProgress := λ _, Some () |}.



(** Every row stored before is stored after, as often. *)
Definition grows {Row} (w w' : World Row) : Prop := db w ⊆+ db w'.

(** [querySlice] touches neither the checkpoint file nor [lastProcessed],
    and makes the queries [issued s e]. *)
Definition slice_frame {Row} (querySlice : Z → Z → Run (World Row) unit)
    (issued : Z → Z → list Query) : Prop :=
  ∀ s e w, progress (querySlice s e w).1 = progress w
           ∧ lastProcessed (querySlice s e w).1 = lastProcessed w
           ∧ queries (querySlice s e w).1 = queries w ++ issued s e.

(** A configuration whose range width is negative. *)
Definition cfg_negative_chunk : Config :=
  {| env_WATCH_WALLET := env_WATCH_WALLET Scenario.cfg;
     CONTRACT_ADDRESS := CONTRACT_ADDRESS Scenario.cfg;
     POLL_INTERVAL_MS := 3000;
     CONFIRMATIONS := 2;
     CHUNK := -5;
     INIT_LOOKBACK := 50000;
     FROM_BLOCK := None |}.

(** *** Facts about the scheduler *)

Lemma chunks_done fuel start latest CHUNK :
  latest < start → chunks fuel start latest CHUNK = Some [].
Proof.
  intros Hlt. destruct fuel; simpl; rewrite bool_decide_eq_false_2; auto; lia.
Qed.

Lemma chunks_step fuel start latest CHUNK :
  start ≤ latest →
  chunks (S fuel) start latest CHUNK =
    (rest ← chunks fuel (start + (CHUNK + 1)) latest CHUNK;
     Some ({| range_start := start; range_end := Z.min latest (start + CHUNK) |} :: rest)).
Proof. intros Hle. simpl. rewrite bool_decide_eq_true_2; auto. Qed.

Lemma heights_whole (a b : Z) :
  heights {| range_start := a; range_end := b |} = seqZ a (b - a + 1).
Proof. reflexivity. Qed.

(** The schedule of [chunks], given enough fuel and a width that is not
    negative: it is defined, its heights laid end to end are exactly
    [start .. latest], and every range is non-empty and at most [CHUNK] wide. *)
Lemma chunks_spec CHUNK latest fuel : 0 ≤ CHUNK → ∀ start,
  (enough start latest ≤ fuel)%nat →
  ∃ rs, chunks fuel start latest CHUNK = Some rs
      ∧ concat (heights <$> rs) = seqZ start (latest - start + 1)
      ∧ Forall (λ r, range_start r ≤ range_end r ∧ range_end r ≤ latest
                     ∧ range_end r - range_start r ≤ CHUNK) rs
      ∧ (∀ r, head rs = Some r → range_start r = start)
      ∧ contiguous rs
      ∧ (start ≤ latest → (last rs ≫= λ r, Some (range_end r)) = Some latest).
Proof.
  intros HC. unfold enough. induction fuel as [|fuel IH]; intros start Hfuel.
  - exists []. rewrite chunks_done by lia. rewrite seqZ_nil by lia.
    repeat split; auto; try discriminate; lia.
  - destruct (decide (start ≤ latest)) as [Hle|Hgt].
    + rewrite chunks_step by done.
      destruct (IH (start + (CHUNK + 1))) as (rest & Hrest & Hcov & Hall & Hhd & Hcont & Hlast);
        [lia|].
      rewrite Hrest. eexists; split; [reflexivity|].
      cbn [fmap list_fmap concat]. rewrite heights_whole, Hcov.
      split; [|split; [|split; [|split]]].
      * destruct (decide (start + CHUNK < latest)) as [Hin|Hout].
        -- rewrite Z.min_r by lia.
           replace (start + CHUNK - start + 1) with (CHUNK + 1) by lia.
           rewrite <- seqZ_app by lia. f_equal. lia.
        -- rewrite Z.min_l by lia. rewrite (seqZ_nil (start + (CHUNK + 1))) by lia.
           by rewrite app_nil_r.
      * constructor; [simpl; lia | done].
      * intros r [= <-]. done.
      * destruct rest as [|r2 rest']; [done|]. split; [|done].
        rewrite (Hhd r2 eq_refl). simpl.
        destruct (decide (start + CHUNK < latest)); [lia|].
        rewrite chunks_done in Hrest by lia. discriminate.
      * intros _. destruct (decide (start + (CHUNK + 1) ≤ latest)) as [Hmore|Hlast'].
        -- specialize (Hlast Hmore). destruct rest as [|r2 rest']; [done|].
           by rewrite last_cons_cons.
        -- rewrite chunks_done in Hrest by lia. injection Hrest as <-.
           simpl. f_equal. lia.
    + exists []. rewrite chunks_done by lia. rewrite seqZ_nil by lia.
      repeat split; auto; try discriminate; lia.
Qed.

Lemma chunks_out_of_fuel start latest CHUNK :
  start ≤ latest → chunks 0 start latest CHUNK = None.
Proof. intros Hle. simpl. by rewrite bool_decide_eq_true_2. Qed.

(** More fuel than the loop needs changes nothing. *)
Lemma chunks_more_fuel fuel extra start latest CHUNK rs :
  chunks fuel start latest CHUNK = Some rs →
  chunks (fuel + extra) start latest CHUNK = Some rs.
Proof.
  revert start rs. induction fuel as [|fuel IH]; intros start rs.
  - destruct (decide (start ≤ latest)) as [Hle|Hgt].
    + by rewrite chunks_out_of_fuel.
    + rewrite !chunks_done by lia. done.
  - destruct (decide (start ≤ latest)) as [Hle|Hgt].
    + replace (S fuel + extra)%nat with (S (fuel + extra)) by lia.
      rewrite !chunks_step by done.
      destruct (chunks fuel (start + (CHUNK + 1)) latest CHUNK) as [rest|] eqn:Hrest;
        [|discriminate].
      by rewrite (IH _ _ Hrest).
    + rewrite !chunks_done by lia. done.
Qed.

(** The poll loop of [tick] and the backfill loop of [scanHistorical] cut an
    interval into the same ranges. *)
Lemma slices_chunks fuel : ∀ cursor safeHead CHUNK,
  slices fuel cursor safeHead CHUNK = chunks fuel cursor safeHead CHUNK.
Proof.
  induction fuel as [|fuel IH]; intros cursor safeHead CHUNK; [done|].
  simpl. case_bool_decide as Hle; [|done].
  rewrite (Z.min_comm (cursor + CHUNK)).
  destruct (decide (cursor + CHUNK ≤ safeHead)) as [Hin|Hout].
  - rewrite Z.min_r by lia. rewrite IH.
    by replace (cursor + CHUNK + 1) with (cursor + (CHUNK + 1)) by lia.
  - rewrite Z.min_l by lia. rewrite IH, !chunks_done by lia. done.
Qed.

(** With a negative width of -1 the backfill loop never advances: no amount
    of fuel lets it finish a non-empty interval. *)
Lemma chunks_stuck fuel start latest :
  start ≤ latest → chunks fuel start latest (-1) = None.
Proof.
  intros Hle. induction fuel as [|fuel IH]; [by apply chunks_out_of_fuel|].
  rewrite chunks_step by done. replace (start + (-1 + 1)) with start by lia.
  by rewrite IH.
Qed.

(** *** The scheduler on the interval 0..250 *)

Lemma chunks_0_250 fuel : chunks (3 + fuel) 0 250 100 = Some produced_ranges.
Proof.
  change (3 + fuel)%nat with (S (S (S fuel))).
  rewrite !chunks_step by lia. rewrite chunks_done by lia. reflexivity.
Qed.

(** C2, as claimed: with maxSize=100, start=0, end=250 the scheduler does
    not yield [0,100], [101,200], [201,250], whatever the fuel. *)
Lemma C2_claimed_ranges_not_produced :
  ¬ ∃ fuel, chunks fuel 0 250 100 = Some claimed_ranges.
Proof.
  intros [fuel H]. destruct fuel as [|[|[|fuel]]];
    [discriminate H..|].
  change (S (S (S fuel))) with (3 + fuel)%nat in H.
  rewrite chunks_0_250 in H. discriminate H.
Qed.

(** C2, amended: with maxSize=100, start=0, end=250 the backfill loop and
    the poll loop both yield exactly the three ranges [0,100], [101,201],
    [202,250], in that order, as soon as the fuel pays for three
    iterations. *)
Theorem C2_ranges_0_250 :
  ∀ fuel, chunks (3 + fuel) 0 250 100 = Some produced_ranges
        ∧ slices (3 + fuel) 0 250 100 = Some produced_ranges.
Proof. intros fuel. rewrite slices_chunks. split; apply chunks_0_250. Qed.

(** C3, as claimed: not for every maxSize. With maxSize = -1 and
    start = end = 0 neither loop ever ends, whatever the number of
    iterations it is given: each iteration yields the range from 0 to -1
    and leaves the loop variable at 0, so no sequence of ranges is produced
    and height 0 is never covered. *)
Lemma C3_negative_width_never_covers :
  ¬ (∃ fuel rs, chunks fuel 0 0 (-1) = Some rs ∨ slices fuel 0 0 (-1) = Some rs).
Proof.
  intros (fuel & rs & [Hrs|Hrs]).
  - by rewrite chunks_stuck in Hrs.
  - by rewrite slices_chunks, chunks_stuck in Hrs.
Qed.

(** C3, amended: for a width that is not negative and start <= end, the
    ranges of the scheduler, laid end to end, are exactly the heights start,
    start+1, ..., end (every height once, ascending, no gap, no overlap);
    every range is non-empty and at most maxSize wide, each starts right
    after the one before, the first at start and the last ending at end;
    the loop ends within end - start + 1 iterations; the poll loop cuts the
    interval the same way; and for start > end the sequence is empty,
    whatever the width. *)
Theorem C3_chunks_cover (start latest CHUNK : Z) :
  (0 ≤ CHUNK → start ≤ latest →
   ∃ rs, (∀ extra, chunks (enough start latest + extra) start latest CHUNK = Some rs)
       ∧ (∀ extra, slices (enough start latest + extra) start latest CHUNK = Some rs)
       ∧ concat (heights <$> rs) = seqZ start (latest - start + 1)
       ∧ (∀ h, h ∈ concat (heights <$> rs) ↔ start ≤ h ≤ latest)
       ∧ NoDup (concat (heights <$> rs))
       ∧ Forall (λ r, range_start r ≤ range_end r
                      ∧ range_end r - range_start r ≤ CHUNK) rs
       ∧ contiguous rs
       ∧ range_start <$> head rs = Some start
       ∧ range_end <$> last rs = Some latest)
  ∧ (latest < start →
     ∀ fuel, chunks fuel start latest CHUNK = Some []
           ∧ slices fuel start latest CHUNK = Some []).
Proof.
  split.
  - intros Hwidth Hle.
    destruct (chunks_spec CHUNK latest (enough start latest) Hwidth start)
      as (rs & Hrs & Hcov & Hall & Hhd & Hcont & Hlast); [done|].
    exists rs. split_and!.
    + intros extra. by apply chunks_more_fuel.
    + intros extra. rewrite slices_chunks. by apply chunks_more_fuel.
    + exact Hcov.
    + intros h. rewrite Hcov, elem_of_seqZ. lia.
    + rewrite Hcov. apply NoDup_seqZ.
    + eapply Forall_impl; [exact Hall|]. simpl. intros r. lia.
    + exact Hcont.
    + destruct rs as [|r rs'].
      * unfold enough in Hrs. destruct (Z.to_nat (latest - start + 1)) eqn:E; [lia|].
        rewrite chunks_step in Hrs by done.
        destruct (chunks n (start + (CHUNK + 1)) latest CHUNK); discriminate.
      * simpl. f_equal. by apply Hhd.
    + specialize (Hlast Hle). destruct (last rs); [|discriminate]. simpl in *. done.
  - intros Hlt fuel. rewrite slices_chunks. split; by apply chunks_done.
Qed.

Lemma C3_chunks_cover_witness :
  ∃ rs, chunks 3 0 250 100 = Some rs
      ∧ concat (heights <$> rs) = seqZ 0 251
      ∧ Forall (λ r, range_start r ≤ range_end r ∧ range_end r - range_start r ≤ 100) rs.
Proof.
  destruct (C3_chunks_cover 0 250 100) as [Hcover _].
  destruct (Hcover ltac:(lia) ltac:(lia)) as (rs & Hrs & _ & Hcov & _ & _ & Hall & _).
  exists rs. split; [|split].
  - specialize (Hrs 0%nat).
    pose proof (chunks_more_fuel 3 248 0 250 100 produced_ranges eq_refl) as H3.
    change (3 + 248)%nat with (enough 0 250 + 0)%nat in H3.
    rewrite Hrs in H3. by injection H3 as ->.
  - exact Hcov.
  - exact Hall.
Defined.

(** ** Facts about computations *)

Lemma bind_unfold {W A B} (m : Run W A) (k : A → Run W B) (w : W) :
  (m ≫= k) w = match m w with
               | (w', Ok a) => k a w'
               | (w', Throw e) => (w', Throw e)
               | (w', OutOfFuel) => (w', OutOfFuel)
               end.
Proof. reflexivity. Qed.

(** A relation between the world before and after that every step of a
    computation keeps, is kept by the whole. *)
Section Frames.
Context {W : Type} (R : W → W → Prop).
Hypothesis R_refl : ∀ w, R w w.
Hypothesis R_trans : ∀ w1 w2 w3, R w1 w2 → R w2 w3 → R w1 w3.

Lemma keeps_ret {A} (a : A) : keeps R (mret a).
Proof. intros w. apply R_refl. Qed.

Lemma keeps_throw {A} e : keeps R (throw (A:=A) e).
Proof. intros w. apply R_refl. Qed.

Lemma keeps_diverge {A} : keeps R (diverge (A:=A)).
Proof. intros w. apply R_refl. Qed.

Lemma keeps_gets {A} (f : W → A) : keeps R (gets f).
Proof. intros w. apply R_refl. Qed.

Lemma keeps_await {A} (call : option A) e : keeps R (await call e).
Proof. destruct call; [apply keeps_ret | apply keeps_throw]. Qed.

Lemma keeps_bind {A B} (m : Run W A) (k : A → Run W B) :
  keeps R m → (∀ a, keeps R (k a)) → keeps R (m ≫= k).
Proof.
  intros Hm Hk w. rewrite bind_unfold. specialize (Hm w).
  destruct (m w) as [w1 [a|e|]]; simpl in *; [|done..].
  eapply R_trans; [exact Hm | apply Hk].
Qed.

Lemma keeps_forEach {A} (l : list A) (body : A → Run W unit) :
  (∀ x, keeps R (body x)) → keeps R (forEach l body).
Proof.
  intros Hbody. induction l as [|x l IH]; [apply keeps_ret|].
  simpl. apply (keeps_bind (body x) (λ _, forEach l body)); auto.
Qed.

Lemma keeps_tryCatch (m : Run W unit) handler :
  keeps R m → (∀ e, keeps R (handler e)) → keeps R (tryCatch m handler).
Proof.
  intros Hm Hh w. unfold tryCatch. specialize (Hm w).
  destruct (m w) as [w1 [a|e|]]; simpl in *; [done| |done].
  eapply R_trans; [exact Hm | apply Hh].
Qed.

End Frames.

(** *** What a step may change *)

Lemma store_only_refl {Row} (w : World Row) : store_only w w.
Proof. by repeat split. Qed.

Lemma store_only_trans {Row} (w1 w2 w3 : World Row) :
  store_only w1 w2 → store_only w2 w3 → store_only w1 w3.
Proof. intros (?&?&?) (?&?&?). repeat split; congruence. Qed.

Lemma scans_upto_refl {Row} bound (w : World Row) : scans_upto bound w w.
Proof. repeat split. exists []. by rewrite app_nil_r. Qed.

Lemma scans_upto_trans {Row} bound (w1 w2 w3 : World Row) :
  scans_upto bound w1 w2 → scans_upto bound w2 w3 → scans_upto bound w1 w3.
Proof.
  intros (?&?&qs1&Hq1&Hb1) (?&?&qs2&Hq2&Hb2). repeat split; [congruence..|].
  exists (qs1 ++ qs2). split.
  - by rewrite Hq2, Hq1, app_assoc.
  - by apply Forall_app.
Qed.

Lemma scans_upto_mono {Row} b1 b2 (w w' : World Row) :
  b1 ≤ b2 → scans_upto b1 w w' → scans_upto b2 w w'.
Proof.
  intros Hle (?&?&qs&Hq&Hb). repeat split; [done..|]. exists qs. split; [done|].
  eapply Forall_impl; [exact Hb|]. simpl. intros q. lia.
Qed.

Lemma store_only_scans {Row} bound (w w' : World Row) :
  store_only w w' → scans_upto bound w w'.
Proof.
  intros (?&?&Hq). repeat split; [done..|]. exists []. by rewrite app_nil_r.
Qed.

Lemma queryFilter_scans {Row E} filter s e (answer : option (list E)) :
  keeps (scans_upto (Row:=Row) e) (queryFilter filter s e answer).
Proof.
  intros w. unfold queryFilter. rewrite bind_unfold. simpl.
  destruct answer; simpl; (repeat split; [done..|]);
    (eexists; split; [reflexivity|]); repeat constructor; simpl; lia.
Qed.

(** The two outcomes of [saveProgress]. *)
Lemma saveProgress_cases {Row} written height (w : World Row) :
  saveProgress written height w
  = match written with
    | Some _ => (mkWorld (db w) (Some height) (lastProcessed w) (queries w), Ok ())
    | None => (w, Throw "writeFileSync")
    end.
Proof. unfold saveProgress. rewrite bind_unfold. by destruct written. Qed.

(** *** The two loops and the tick, for any [querySlice] that leaves the
    checkpoint alone and queries no further than the end of its range *)

Section EngineFacts.
Context {Row : Type}.
Variable cfg : Config.
Variable getBlockNumber : option Z.
Variable querySlice : Z → Z → Run (World Row) unit.
Variable writeProgress : Z → option unit.
Hypothesis querySlice_scans : ∀ s e, keeps (scans_upto e) (querySlice s e).

Lemma pollLoop_scans fuel : ∀ cursor safeHead,
  keeps (scans_upto safeHead) (pollLoop cfg querySlice fuel cursor safeHead).
Proof.
  induction fuel as [|fuel IH]; intros cursor safeHead; simpl.
  - case_bool_decide; [apply keeps_diverge | apply keeps_ret]; apply scans_upto_refl.
  - case_bool_decide; [|apply keeps_ret, scans_upto_refl].
    apply keeps_bind; [apply scans_upto_trans | |].
    + intros w. eapply scans_upto_mono; [|apply querySlice_scans]. lia.
    + intros _. apply IH.
Qed.

(** A tick queries nothing beyond the safe head of the head it observed. *)
Lemma tick_scans fuel (w : World Row) :
  ∃ qs, queries (tick cfg getBlockNumber querySlice writeProgress fuel w).1 = queries w ++ qs
      ∧ Forall (λ q, ∃ H, getBlockNumber = Some H ∧ q_to q ≤ H - CONFIRMATIONS cfg) qs.
Proof.
  unfold tick, tryCatch, tickBody. destruct getBlockNumber as [H|]; simpl.
  - rewrite bind_unfold. simpl. rewrite bind_unfold. simpl.
    case_bool_decide as Hsafe; simpl.
    + exists []. by rewrite app_nil_r.
    + rewrite bind_unfold.
      destruct (pollLoop_scans fuel (lastProcessed w + 1) (H - CONFIRMATIONS cfg) w)
        as (_ & _ & qs & Hqs & Hall).
      exists qs. split.
      * destruct (pollLoop cfg querySlice fuel _ _ w) as [w1 [[]|e|]]; simpl in *;
          [|done..].
        rewrite bind_unfold. cbn [set_lastProcessed modify]. rewrite saveProgress_cases.
        by destruct (writeProgress _).
      * eapply Forall_impl; [exact Hall|]. simpl. intros q Hq. eauto.
  - exists []. by rewrite app_nil_r.
Qed.




End EngineFacts.

(** ** Facts about the store *)

Section StoreFacts.
Context {Row : Type}.
Variable blockNumber : Row → Z.

Lemma insert_desc_Permutation x l : insert_desc blockNumber x l ≡ₚ x :: l.
Proof.
  induction l as [|y l IH]; simpl; [done|].
  case_bool_decide; [|done]. rewrite IH. apply Permutation_swap.
Qed.

Lemma sort_desc_Permutation l : sort_desc blockNumber l ≡ₚ l.
Proof.
  induction l as [|x l IH]; simpl; [done|].
  by rewrite insert_desc_Permutation, IH.
Qed.

Lemma sort_desc_length l : length (sort_desc blockNumber l) = length l.
Proof. by rewrite sort_desc_Permutation. Qed.

(** A key that no stored row has stays unique when a row with it is pushed
    and the rows are sorted. *)
Lemma NoDup_push_sorted {K} (key : Row → K) rows row :
  NoDup (key <$> rows) → key row ∉ key <$> rows →
  NoDup (key <$> sort_desc blockNumber (rows ++ [row])).
Proof.
  intros Hnd Hnew. rewrite sort_desc_Permutation, fmap_app. simpl.
  apply NoDup_app. split; [done|]. split; [|apply NoDup_singleton].
  intros k Hk ->%list_elem_of_singleton. done.
Qed.

Lemma keys_push_sorted {K} (key : Row → K) rows row k :
  k ∈ key <$> sort_desc blockNumber (rows ++ [row]) ↔ k ∈ key <$> rows ∨ k = key row.
Proof.
  rewrite sort_desc_Permutation, fmap_app, elem_of_app. simpl.
  by rewrite list_elem_of_singleton.
Qed.

End StoreFacts.

(** [findIndex] and [find] come back empty exactly when no row has the key. *)
Lemma list_find_key_None {Row K} `{EqDecision K} (key : Row → K) (k : K) rows :
  list_find (λ x, key x = k) rows = None ↔ k ∉ key <$> rows.
Proof.
  rewrite list_find_None, Forall_forall, list_elem_of_fmap. split.
  - intros H (x & -> & Hx). by apply (H x).
  - intros H x Hx Hk. apply H. exists x. done.
Qed.

(** *** Scanning a list of logs again *)

Section Replay.
Context {W A : Type} (keys : W → list string) (body body' : A → Run W unit).
Hypothesis body_grows : ∀ x w, keys w ⊆ keys (body x w).1.
Hypothesis body_replay : ∀ x w w',
  body x w = (w', Ok ()) → ∀ w2, keys w' ⊆ keys w2 → (body' x w2).1 = w2.

Lemma forEach_grows l : ∀ w, keys w ⊆ keys (forEach l body w).1.
Proof.
  induction l as [|x l IH]; intros w; simpl; [done|].
  unfold bind. pose proof (body_grows x w) as Hx.
  destruct (body x w) as [w1 [[]|e|]]; simpl in *; [|done..].
  etrans; [exact Hx | apply IH].
Qed.

Lemma forEach_replay l : ∀ w w',
  forEach l body w = (w', Ok ()) →
  ∀ w2, keys w' ⊆ keys w2 → (forEach l body' w2).1 = w2.
Proof.
  induction l as [|x l IH]; intros w w' Hrun w2 Hsub; simpl; [done|].
  simpl in Hrun. unfold bind in *.
  destruct (body x w) as [w1 [[]|e|]] eqn:Hx; [|discriminate..].
  pose proof (forEach_grows l w1) as Hgrow. rewrite Hrun in Hgrow. simpl in Hgrow.
  pose proof (body_replay x w w1 Hx w2) as Hsame.
  destruct (body' x w2) as [w3 [[]|e|]]; simpl in *;
    rewrite Hsame by (etrans; eassumption); [|done..].
  by eapply IH.
Qed.

End Replay.

(** ** Facts about the ERC-1155 monitor *)

Module ItemsFacts.
Import Items.

Lemma items_enrich_rejects cfg chain from to ids values logObj (w : World Row) :
  getBlock chain (log_blockNumber logObj) = None →
  enrichAndPersist cfg chain from to ids values logObj w = (w, Throw "getBlock").
Proof. intros Hb. unfold enrichAndPersist. by rewrite bind_unfold, Hb. Qed.

Lemma items_enrich_present cfg chain from to ids values logObj (w : World Row) ts :
  getBlock chain (log_blockNumber logObj) = Some ts →
  toLowerCase (transactionHash logObj) ∈ hashes (db w) →
  enrichAndPersist cfg chain from to ids values logObj w = (w, Ok ()).
Proof.
  intros Hb Hin. unfold enrichAndPersist. rewrite bind_unfold, Hb. simpl.
  rewrite bind_unfold. simpl.
  destruct (list_find _ (db w)) as [found|] eqn:Hfind; [done|].
  apply list_find_key_None in Hfind. done.
Qed.

Lemma items_enrich_absent cfg chain from to ids values logObj (w : World Row) ts :
  getBlock chain (log_blockNumber logObj) = Some ts →
  toLowerCase (transactionHash logObj) ∉ hashes (db w) →
  enrichAndPersist cfg chain from to ids values logObj w =
    (mkWorld (sort_desc blockNumber (db w ++ [newRow cfg from to ids values logObj ts]))
             (progress w) (lastProcessed w) (queries w), Ok ()).
Proof.
  intros Hb Hout. unfold enrichAndPersist. rewrite bind_unfold, Hb. simpl.
  rewrite bind_unfold. simpl.
  destruct (list_find _ (db w)) as [found|] eqn:Hfind; [|done].
  assert (list_find (λ x, toLowerCase (txHash x) = toLowerCase (transactionHash logObj))
            (db w) ≠ None) as Hsome by (rewrite Hfind; done).
  rewrite list_find_key_None in Hsome. destruct Hsome. exact Hout.
Qed.

(** The three ways [enrichAndPersist] can go. *)
Lemma items_enrich_cases cfg chain from to ids values logObj (w : World Row) :
  (getBlock chain (log_blockNumber logObj) = None
   ∧ enrichAndPersist cfg chain from to ids values logObj w = (w, Throw "getBlock"))
  ∨ (toLowerCase (transactionHash logObj) ∈ hashes (db w)
     ∧ enrichAndPersist cfg chain from to ids values logObj w = (w, Ok ()))
  ∨ (∃ ts, getBlock chain (log_blockNumber logObj) = Some ts
     ∧ (toLowerCase (transactionHash logObj) ∉ hashes (db w))
     ∧ enrichAndPersist cfg chain from to ids values logObj w =
         (mkWorld (sort_desc blockNumber (db w ++ [newRow cfg from to ids values logObj ts]))
                  (progress w) (lastProcessed w) (queries w), Ok ())).
Proof.
  destruct (getBlock chain (log_blockNumber logObj)) as [ts|] eqn:Hb.
  - destruct (decide (toLowerCase (transactionHash logObj) ∈ hashes (db w))) as [Hin|Hout].
    + right; left. split; [done|]. by eapply items_enrich_present.
    + right; right. exists ts. split_and!; [done..|]. by apply items_enrich_absent.
  - left. split; [done|]. by apply items_enrich_rejects.
Qed.

Lemma items_enrich_unchanged cfg chain from to ids values logObj (w : World Row) :
  toLowerCase (transactionHash logObj) ∈ hashes (db w) →
  (enrichAndPersist cfg chain from to ids values logObj w).1 = w.
Proof.
  intros Hin.
  destruct (items_enrich_cases cfg chain from to ids values logObj w)
    as [[_ ->]|[[_ ->]|(ts & _ & Hout & _)]]; done.
Qed.

Lemma items_enrich_recorded cfg chain from to ids values logObj (w w' : World Row) :
  enrichAndPersist cfg chain from to ids values logObj w = (w', Ok ()) →
  toLowerCase (transactionHash logObj) ∈ hashes (db w').
Proof.
  destruct (items_enrich_cases cfg chain from to ids values logObj w)
    as [[_ ->]|[[Hin ->]|(ts & _ & _ & ->)]]; intros [= <-]; [done|].
  simpl. unfold hashes. apply keys_push_sorted. by right.
Qed.

Lemma items_enrich_grows cfg chain from to ids values logObj (w : World Row) :
  hashes (db w) ⊆ hashes (db (enrichAndPersist cfg chain from to ids values logObj w).1).
Proof.
  destruct (items_enrich_cases cfg chain from to ids values logObj w)
    as [[_ ->]|[[_ ->]|(ts & _ & _ & ->)]]; [done..|].
  simpl. intros h Hh. unfold hashes. apply keys_push_sorted. by left.
Qed.

Lemma items_enrich_store_only cfg chain from to ids values logObj :
  keeps store_only (enrichAndPersist cfg chain from to ids values logObj).
Proof.
  intros w.
  destruct (items_enrich_cases cfg chain from to ids values logObj w)
    as [[_ ->]|[[_ ->]|(ts & _ & _ & ->)]]; by repeat split.
Qed.

Lemma items_enrich_NoDup cfg chain from to ids values logObj (w : World Row) :
  NoDup (hashes (db w)) →
  NoDup (hashes (db (enrichAndPersist cfg chain from to ids values logObj w).1)).
Proof.
  intros Hnd.
  destruct (items_enrich_cases cfg chain from to ids values logObj w)
    as [[_ ->]|[[_ ->]|(ts & _ & Hout & ->)]]; [done..|].
  simpl. by apply NoDup_push_sorted.
Qed.

Lemma items_reachable_NoDup (w : World Row) : reachable w → NoDup (hashes (db w)).
Proof.
  induction 1 as [w Hempty|cfg chain from to ids values logObj w _ IH|w w' _ IH Hdb].
  - rewrite Hempty. constructor.
  - by apply items_enrich_NoDup.
  - by rewrite Hdb.
Qed.

End ItemsFacts.

Module ItemsHandlers.
Import Items ItemsFacts.

Lemma watched_entries_nil_r ids : watched_entries ids [] = [].
Proof. unfold watched_entries. by rewrite zip_with_nil_r. Qed.

Lemma watched_entries_cons id ids value values :
  watched_entries (id :: ids) (value :: values) =
    if decide (id ≠ 0%N ∧ value ≠ 0%N ∧ toString id ∈ WATCH_TOKEN_IDS)
    then (id, value) :: watched_entries ids values
    else watched_entries ids values.
Proof.
  unfold watched_entries. change (zip (id :: ids) (value :: values))
    with ((id, value) :: zip ids values).
  by rewrite filter_cons.
Qed.

Lemma filterBatch_cons i id rest values filteredIds filteredValues :
  filterBatch i (id :: rest) values filteredIds filteredValues =
    match values !! i with
    | Some value =>
        if decide (id ≠ 0%N ∧ value ≠ 0%N ∧ toString id ∈ WATCH_TOKEN_IDS)
        then filterBatch (S i) rest values (filteredIds ++ [id]) (filteredValues ++ [value])
        else filterBatch (S i) rest values filteredIds filteredValues
    | None => filterBatch (S i) rest values filteredIds filteredValues
    end.
Proof.
  cbn [filterBatch]. destruct (values !! i) as [value|]; [|done].
  unfold falsy.
  destruct (decide (id = 0%N)) as [->|Hid].
  { rewrite bool_decide_eq_true_2 by done. cbn [orb].
    by rewrite decide_False by (intros [? _]; done). }
  rewrite (bool_decide_eq_false_2 (id = 0%N)) by done. cbn [orb].
  destruct (decide (value = 0%N)) as [->|Hval].
  { rewrite bool_decide_eq_true_2 by done.
    by rewrite decide_False by (intros (_ & ? & _); done). }
  rewrite (bool_decide_eq_false_2 (value = 0%N)) by done.
  destruct (decide (toString id ∈ WATCH_TOKEN_IDS)) as [Hin|Hout].
  - rewrite bool_decide_eq_false_2 by (intros ?; done).
    by rewrite decide_True by done.
  - rewrite bool_decide_eq_true_2 by done.
    by rewrite decide_False by (intros (_ & _ & ?); done).
Qed.

(** What the loop of [handleTransferBatch] leaves in [filteredIds] and
    [filteredValues]: the watched entries, in order. *)
Lemma filterBatch_watched rest : ∀ i values filteredIds filteredValues,
  filterBatch i rest values filteredIds filteredValues =
    (filteredIds ++ (watched_entries rest (drop i values)).*1,
     filteredValues ++ (watched_entries rest (drop i values)).*2).
Proof.
  induction rest as [|id rest IH]; intros i values fi fv.
  - cbn [filterBatch]. unfold watched_entries. cbn [zip_with filter list_filter fmap list_fmap].
    by rewrite !app_nil_r.
  - rewrite filterBatch_cons. destruct (values !! i) as [value|] eqn:Hv.
    + rewrite (drop_S _ _ _ Hv), watched_entries_cons.
      destruct (decide _); rewrite IH; [|done].
      cbn [fmap list_fmap fst snd]. by rewrite <- !app_assoc.
    + rewrite IH. apply lookup_ge_None in Hv.
      rewrite !drop_ge by lia. by rewrite !watched_entries_nil_r.
Qed.

Lemma single_decides cfg ev : decides cfg (λ chain, handleTransferSingle cfg chain ev).
Proof.
  unfold decides, handleTransferSingle.
  destruct (single_id ev) as [id|], (single_value ev) as [value|]; [|by left..].
  destruct (falsy (Some id) || falsy (Some value)); [by left|].
  case_bool_decide; [by left|]. case_bool_decide; [by left|].
  right. by eexists _, _, _, _, _.
Qed.

Lemma batch_decides cfg ev : decides cfg (λ chain, handleTransferBatch cfg chain ev).
Proof.
  unfold decides, handleTransferBatch.
  destruct (batch_ids ev) as [ids|], (batch_values ev) as [values|]; [|by left..].
  case_bool_decide; [by left|].
  destruct (filterBatch 0 ids values [] []) as [fi fv].
  case_bool_decide; [|by left].
  right. by eexists _, _, _, _, _.
Qed.

Lemma decides_store_only cfg h chain : decides cfg h → keeps store_only (h chain).
Proof.
  intros [Hskip|(from & to & ids & values & logObj & Hcall)] w.
  - rewrite Hskip. apply store_only_refl.
  - rewrite Hcall. apply items_enrich_store_only.
Qed.

Lemma decides_grows cfg h chain (w : World Row) :
  decides cfg h → hashes (db w) ⊆ hashes (db (h chain w).1).
Proof.
  intros [Hskip|(from & to & ids & values & logObj & Hcall)].
  - by rewrite Hskip.
  - rewrite Hcall. apply items_enrich_grows.
Qed.

(** Once a handler has gone through on a log, handling the same log again
    changes nothing in any world that still holds the hashes. *)
Lemma decides_replay cfg h chain (w w' : World Row) :
  decides cfg h → h chain w = (w', Ok ()) →
  ∀ chain' w2, hashes (db w') ⊆ hashes (db w2) → (h chain' w2).1 = w2.
Proof.
  intros [Hskip|(from & to & ids & values & logObj & Hcall)] Hrun chain' w2 Hsub.
  - by rewrite Hskip.
  - rewrite Hcall in *. apply items_enrich_unchanged, Hsub.
    by eapply items_enrich_recorded.
Qed.

Lemma items_handleLogs_store_only cfg chain singleLogs batchLogs :
  keeps store_only (handleLogs cfg chain singleLogs batchLogs).
Proof.
  unfold handleLogs. apply keeps_bind; [apply store_only_trans| |intros _].
  - apply keeps_forEach; [apply store_only_refl | apply store_only_trans |].
    intros ev. apply (decides_store_only cfg (λ c, handleTransferSingle cfg c ev)),
      single_decides.
  - apply keeps_forEach; [apply store_only_refl | apply store_only_trans |].
    intros ev. apply (decides_store_only cfg (λ c, handleTransferBatch cfg c ev)),
      batch_decides.
Qed.

Lemma items_querySlice_scans cfg chain s e : keeps (scans_upto e) (querySlice cfg chain s e).
Proof.
  intros w. unfold querySlice. rewrite bind_unfold. simpl.
  set (w1 := mkWorld _ _ _ _).
  assert (scans_upto e w w1) as H1.
  { repeat split. eexists; split; [reflexivity|]. repeat constructor; simpl; lia. }
  eapply scans_upto_trans; [exact H1|].
  apply keeps_bind; [apply scans_upto_trans | apply keeps_await, scans_upto_refl |].
  intros singleLogs.
  apply keeps_bind; [apply scans_upto_trans | apply keeps_await, scans_upto_refl |].
  intros batchLogs w2. apply store_only_scans, items_handleLogs_store_only.
Qed.

(** Scanning the logs of a slice a second time, later, leaves the store as
    it is. *)
Lemma items_handleLogs_replay cfg chain singleLogs batchLogs (w w' : World Row) :
  handleLogs cfg chain singleLogs batchLogs w = (w', Ok ()) →
  ∀ chain' w2, hashes (db w') ⊆ hashes (db w2) →
  (handleLogs cfg chain' singleLogs batchLogs w2).1 = w2.
Proof.
  unfold handleLogs. rewrite !bind_unfold. intros Hrun chain' w2 Hsub.
  destruct (forEach singleLogs _ w) as [w1 [[]|e|]] eqn:Hsingle; [|discriminate..].
  assert (hashes (db w1) ⊆ hashes (db w')) as Hgrow.
  { pose proof (forEach_grows (λ w, hashes (db w)) (handleTransferBatch cfg chain)
      (λ ev w, decides_grows cfg (λ c, handleTransferBatch cfg c ev) chain w
                 (batch_decides cfg ev)) batchLogs w1) as Hg.
    by rewrite Hrun in Hg. }
  pose proof (forEach_replay (λ w, hashes (db w)) (handleTransferSingle cfg chain)
    (handleTransferSingle cfg chain')
    (λ ev w, decides_grows cfg (λ c, handleTransferSingle cfg c ev) chain w
               (single_decides cfg ev))
    (λ ev w w' Hr, decides_replay cfg (λ c, handleTransferSingle cfg c ev) chain w w'
                     (single_decides cfg ev) Hr chain')
    singleLogs w w1 Hsingle w2 ltac:(by etrans)) as Hsame1.
  pose proof (forEach_replay (λ w, hashes (db w)) (handleTransferBatch cfg chain)
    (handleTransferBatch cfg chain')
    (λ ev w, decides_grows cfg (λ c, handleTransferBatch cfg c ev) chain w
               (batch_decides cfg ev))
    (λ ev w w' Hr, decides_replay cfg (λ c, handleTransferBatch cfg c ev) chain w w'
                     (batch_decides cfg ev) Hr chain')
    batchLogs w1 w' Hrun w2 Hsub) as Hsame2.
  rewrite bind_unfold.
  destruct (forEach singleLogs _ w2) as [w3 [[]|e|]];
    cbn [fst] in Hsame1; subst w3; [exact Hsame2|done..].
Qed.

End ItemsHandlers.

(** ** Facts about the ERC-721 monitor *)

Module EggFacts.
Import Egg.

Lemma makeKey_newRow chain from to id logObj ts :
  makeKey (newRow chain from to id logObj ts) = keyOf id logObj.
Proof. reflexivity. Qed.

Lemma egg_enrich_cases chain from to id logObj (w : World Row) :
  (getBlock chain (log_blockNumber logObj) = None
   ∧ enrichAndPersist chain from to id logObj w = (w, Throw "getBlock"))
  ∨ (keyOf id logObj ∈ keys (db w)
     ∧ enrichAndPersist chain from to id logObj w = (w, Ok ()))
  ∨ (∃ ts, getBlock chain (log_blockNumber logObj) = Some ts
     ∧ (keyOf id logObj ∉ keys (db w))
     ∧ enrichAndPersist chain from to id logObj w =
         (mkWorld (sort_desc blockNumber (db w ++ [newRow chain from to id logObj ts]))
                  (progress w) (lastProcessed w) (queries w), Ok ())).
Proof.
  unfold enrichAndPersist. rewrite bind_unfold.
  destruct (getBlock chain (log_blockNumber logObj)) as [ts|] eqn:Hb;
    cbn [await ret throw]; [|by left].
  right. rewrite bind_unfold. cbn [loadDb gets]. rewrite makeKey_newRow.
  destruct (list_find _ (db w)) as [found|] eqn:Hfind.
  - left. split; [|done].
    destruct (decide (keyOf id logObj ∈ keys (db w))) as [|Hout]; [done|].
    apply (list_find_key_None makeKey) in Hout. congruence.
  - right. exists ts. split_and!; [done| |done].
    by apply (list_find_key_None makeKey).
Qed.

Lemma egg_enrich_unchanged chain from to id logObj (w : World Row) :
  keyOf id logObj ∈ keys (db w) →
  (enrichAndPersist chain from to id logObj w).1 = w.
Proof.
  intros Hin.
  destruct (egg_enrich_cases chain from to id logObj w)
    as [[_ ->]|[[_ ->]|(ts & _ & Hout & _)]]; done.
Qed.

Lemma egg_enrich_recorded chain from to id logObj (w w' : World Row) :
  enrichAndPersist chain from to id logObj w = (w', Ok ()) →
  keyOf id logObj ∈ keys (db w').
Proof.
  destruct (egg_enrich_cases chain from to id logObj w)
    as [[_ ->]|[[Hin ->]|(ts & _ & _ & ->)]]; intros [= <-]; [done|].
  cbn [db]. unfold keys. apply keys_push_sorted. by right.
Qed.

Lemma egg_enrich_grows chain from to id logObj (w : World Row) :
  keys (db w) ⊆ keys (db (enrichAndPersist chain from to id logObj w).1).
Proof.
  destruct (egg_enrich_cases chain from to id logObj w)
    as [[_ ->]|[[_ ->]|(ts & _ & _ & ->)]]; [done..|].
  cbn [fst db]. intros h Hh. unfold keys. apply keys_push_sorted. by left.
Qed.

Lemma egg_enrich_store_only chain from to id logObj :
  keeps store_only (enrichAndPersist chain from to id logObj).
Proof.
  intros w.
  destruct (egg_enrich_cases chain from to id logObj w)
    as [[_ ->]|[[_ ->]|(ts & _ & _ & ->)]]; by repeat split.
Qed.

Lemma egg_enrich_NoDup chain from to id logObj (w : World Row) :
  NoDup (keys (db w)) →
  NoDup (keys (db (enrichAndPersist chain from to id logObj w).1)).
Proof.
  intros Hnd.
  destruct (egg_enrich_cases chain from to id logObj w)
    as [[_ ->]|[[_ ->]|(ts & _ & Hout & ->)]]; [done..|].
  cbn [fst db]. by apply NoDup_push_sorted.
Qed.

Lemma egg_reachable_NoDup (w : World Row) : reachable w → NoDup (keys (db w)).
Proof.
  induction 1 as [w Hempty|chain from to id logObj w _ IH|w w' _ IH Hdb].
  - rewrite Hempty. constructor.
  - by apply egg_enrich_NoDup.
  - by rewrite Hdb.
Qed.

Lemma egg_handleLogs_store_only chain evs : keeps store_only (handleLogs chain evs).
Proof.
  unfold handleLogs. apply keeps_forEach; [apply store_only_refl | apply store_only_trans |].
  intros ev. apply egg_enrich_store_only.
Qed.

Lemma egg_querySlice_scans chain filter s e :
  keeps (scans_upto e) (querySlice chain filter s e).
Proof.
  unfold querySlice. apply keeps_bind; [apply scans_upto_trans | apply queryFilter_scans |].
  intros evs w. apply store_only_scans, egg_handleLogs_store_only.
Qed.

Lemma egg_handleLogs_replay chain evs (w w' : World Row) :
  handleLogs chain evs w = (w', Ok ()) →
  ∀ chain' w2, keys (db w') ⊆ keys (db w2) → (handleLogs chain' evs w2).1 = w2.
Proof.
  unfold handleLogs. intros Hrun chain' w2 Hsub.
  eapply (forEach_replay (λ w, keys (db w))); [| |exact Hrun|exact Hsub].
  - intros ev w0. apply egg_enrich_grows.
  - intros ev w0 w0' Hr w3 Hs. cbv beta in *.
    apply egg_enrich_unchanged, Hs. eapply egg_enrich_recorded. exact Hr.
Qed.

End EggFacts.

(** ** What the two loops, the backfill and the tick keep

    for any relation that [querySlice] and the two writes of the checkpoint
    keep. *)

Section LoopFrames.
Context {Row : Type} (R : World Row → World Row → Prop).
Hypothesis R_refl : ∀ w, R w w.
Hypothesis R_trans : ∀ w1 w2 w3, R w1 w2 → R w2 w3 → R w1 w3.
Variable cfg : Config.
Variable getBlockNumber : option Z.
Variable querySlice : Z → Z → Run (World Row) unit.
Variable writeProgress : Z → option unit.
Hypothesis querySlice_keeps : ∀ s e, keeps R (querySlice s e).
Hypothesis checkpoint_keeps :
  ∀ h w, R w (mkWorld (db w) (Some h) (lastProcessed w) (queries w)).
Hypothesis set_lastProcessed_keeps : ∀ h, keeps R (set_lastProcessed h).

Lemma saveProgress_keeps written h : keeps R (saveProgress written h).
Proof.
  intros w. rewrite saveProgress_cases.
  destruct written; [apply checkpoint_keeps | apply R_refl].
Qed.

Lemma backfillLoop_keeps fuel : ∀ start latest,
  keeps R (backfillLoop cfg querySlice writeProgress fuel start latest).
Proof.
  induction fuel as [|fuel IH]; intros start latest; cbn [backfillLoop].
  - case_bool_decide; [by apply keeps_diverge | by apply keeps_ret].
  - case_bool_decide; [|by apply keeps_ret].
    apply keeps_bind; [done..|]. intros _.
    apply keeps_bind; [done | apply saveProgress_keeps |]. intros _. apply IH.
Qed.

Lemma scanHistorical_keeps fuel :
  keeps R (scanHistorical cfg getBlockNumber querySlice writeProgress fuel).
Proof.
  unfold scanHistorical.
  apply keeps_bind; [done | by apply keeps_await |]. intros latest.
  apply keeps_bind; [done | by apply keeps_gets |]. intros p.
  apply keeps_bind; [done | apply backfillLoop_keeps |]. intros _. by apply keeps_ret.
Qed.

Lemma pollLoop_keeps fuel : ∀ cursor safeHead,
  keeps R (pollLoop cfg querySlice fuel cursor safeHead).
Proof.
  induction fuel as [|fuel IH]; intros cursor safeHead; cbn [pollLoop].
  - case_bool_decide; [by apply keeps_diverge | by apply keeps_ret].
  - case_bool_decide; [|by apply keeps_ret].
    apply keeps_bind; [done..|]. intros _. apply IH.
Qed.

Lemma tick_keeps fuel : keeps R (tick cfg getBlockNumber querySlice writeProgress fuel).
Proof.
  unfold tick, tickBody. apply keeps_tryCatch; [done| |intros _; by apply keeps_ret].
  apply keeps_bind; [done | by apply keeps_await |]. intros head.
  apply keeps_bind; [done | by apply keeps_gets |]. intros last.
  case_bool_decide; [by apply keeps_ret|].
  apply keeps_bind; [done | apply pollLoop_keeps |]. intros _.
  apply keeps_bind; [done..|]. intros _. apply saveProgress_keeps.
Qed.

End LoopFrames.

(** *** Every run of either monitor stays within [reachable] *)

Lemma stays_refl {Row} (P : World Row → Prop) w : stays P w w.
Proof. by intros ?. Qed.

Lemma stays_trans {Row} (P : World Row → Prop) w1 w2 w3 :
  stays P w1 w2 → stays P w2 w3 → stays P w1 w3.
Proof. unfold stays. auto. Qed.

Module ItemsRuns.
Import Items ItemsFacts ItemsHandlers.

Lemma items_querySlice_stays cfg chain s e :
  keeps (stays reachable) (querySlice cfg chain s e).
Proof.
  assert (∀ h, decides cfg h → keeps (stays reachable) (h chain)) as Hdec.
  { intros h [Hskip|(from & to & ids & values & logObj & Hcall)] w Hw.
    - by rewrite Hskip.
    - rewrite Hcall. by apply reach_append. }
  unfold querySlice.
  apply keeps_bind; [apply stays_trans| |intros _].
  { intros w Hw. by eapply reach_other. }
  apply keeps_bind; [apply stays_trans | apply keeps_await, stays_refl |]. intros singleLogs.
  apply keeps_bind; [apply stays_trans | apply keeps_await, stays_refl |]. intros batchLogs.
  unfold handleLogs. apply keeps_bind; [apply stays_trans| |intros _].
  - apply keeps_forEach; [apply stays_refl | apply stays_trans |]. intros ev.
    apply (Hdec (λ c, handleTransferSingle cfg c ev)), single_decides.
  - apply keeps_forEach; [apply stays_refl | apply stays_trans |]. intros ev.
    apply (Hdec (λ c, handleTransferBatch cfg c ev)), batch_decides.
Qed.

Lemma items_scanHistorical_stays cfg chain fuel (w : World Row) :
  reachable w → reachable (scanHistorical cfg chain fuel w).1.
Proof.
  apply (scanHistorical_keeps (stays reachable) (stays_refl _) (stays_trans _)).
  - apply items_querySlice_stays.
  - intros h w0 Hw. by eapply reach_other.
Qed.

Lemma items_tick_stays cfg chain fuel (w : World Row) :
  reachable w → reachable (tick cfg chain fuel w).1.
Proof.
  apply (tick_keeps (stays reachable) (stays_refl _) (stays_trans _)).
  - apply items_querySlice_stays.
  - intros h w0 Hw. by eapply reach_other.
  - intros h w0 Hw. by eapply reach_other.
Qed.

End ItemsRuns.

Module EggRuns.
Import Egg EggFacts.

Lemma egg_querySlice_stays chain filter s e :
  keeps (stays reachable) (querySlice chain filter s e).
Proof.
  unfold querySlice, queryFilter.
  apply keeps_bind; [apply stays_trans| |intros evs].
  - apply keeps_bind; [apply stays_trans| |intros _; apply keeps_await, stays_refl].
    intros w Hw. by eapply reach_other.
  - unfold handleLogs. apply keeps_forEach; [apply stays_refl | apply stays_trans |].
    intros ev w Hw. by apply reach_append.
Qed.

Lemma egg_scanHistorical_stays cfg chain fuel (w : World Row) :
  reachable w → reachable (scanHistorical cfg chain fuel w).1.
Proof.
  apply (scanHistorical_keeps (stays reachable) (stays_refl _) (stays_trans _)).
  - intros s e. apply egg_querySlice_stays.
  - intros h w0 Hw. by eapply reach_other.
Qed.

Lemma egg_tick_stays cfg chain fuel (w : World Row) :
  reachable w → reachable (tick cfg chain fuel w).1.
Proof.
  apply (tick_keeps (stays reachable) (stays_refl _) (stays_trans _)).
  - intros s e. apply egg_querySlice_stays.
  - intros h w0 Hw. by eapply reach_other.
  - intros h w0 Hw. by eapply reach_other.
Qed.

End EggRuns.

(** ** Uniqueness of the stored records *)

(** The world after the ERC-721 monitor has handled the two transfers of the
    scenario's transaction. *)
Lemma egg_two_tokens_reachable :
  Egg.reachable (Egg.handleLogs Scenario.egg_chain
                   [Scenario.transfer 1; Scenario.transfer 2] Scenario.fresh).1.
Proof.
  unfold Egg.handleLogs. cbn [forEach]. unfold bind.
  set (w1 := Egg.enrichAndPersist _ _ _ _ _ Scenario.fresh).
  assert (Egg.reachable w1.1) as H1 by (apply Egg.reach_append, Egg.reach_start; done).
  destruct w1 as [w1 [[]|e|]]; [|exact H1..].
  set (w2 := Egg.enrichAndPersist _ _ _ _ _ w1).
  assert (Egg.reachable w2.1) as H2 by (apply Egg.reach_append, H1).
  destruct w2 as [w2 [[]|e|]]; exact H2.
Qed.

(** C1, as claimed: in the ERC-721 monitor a transaction hash can occur in
    two stored records. A transaction that moves tokens 1 and 2 to the
    watched wallet leaves two rows with its hash. *)
Lemma C1_egg_hash_stored_twice :
  ¬ (∀ w, Egg.reachable w → NoDup (Egg.txHash <$> db w)).
Proof.
  intros Hclaim. specialize (Hclaim _ egg_two_tokens_reachable).
  vm_compute in Hclaim. apply NoDup_cons in Hclaim as [Hnotin _].
  apply Hnotin. left.
Qed.

(** C1, amended: in every store the ERC-1155 monitor can reach, each
    transaction hash (compared without regard to case) is in at most one
    row; in every store the ERC-721 monitor can reach, each pair of a
    transaction hash and a token identifier is in at most one row. *)
Theorem C1_unique_records :
  (∀ w, Items.reachable w → NoDup (Items.hashes (db w)))
  ∧ (∀ w, Egg.reachable w →
       NoDup (Egg.keys (db w))
       ∧ ∀ i j r1 r2, db w !! i = Some r1 → db w !! j = Some r2 →
           toLowerCase (Egg.txHash r1) = toLowerCase (Egg.txHash r2) →
           Egg.tokenId r1 = Egg.tokenId r2 → i = j).
Proof.
  split; [apply ItemsFacts.items_reachable_NoDup|].
  intros w Hw. pose proof (EggFacts.egg_reachable_NoDup w Hw) as Hnd.
  split; [done|]. intros i j r1 r2 Hi Hj Hhash Hid.
  eapply NoDup_lookup; [exact Hnd|..]; unfold Egg.keys; rewrite list_lookup_fmap.
  - by rewrite Hi.
  - rewrite Hj. cbn. unfold Egg.makeKey. by rewrite Hhash, Hid.
Qed.

(** ** Idempotence of the store *)

Lemma items_rescan cfg chain chain' s e (w w1 w2 : World Items.Row) :
  Items.querySlice cfg chain s e w = (w1, Ok ()) →
  Items.logsSingle chain' s e = Items.logsSingle chain s e →
  Items.logsBatch chain' s e = Items.logsBatch chain s e →
  Items.hashes (db w1) ⊆ Items.hashes (db w2) →
  db (Items.querySlice cfg chain' s e w2).1 = db w2.
Proof.
  unfold Items.querySlice. rewrite !bind_unfold. cbn [modify].
  intros Hrun -> -> Hsub. revert Hrun. rewrite !bind_unfold.
  destruct (Items.logsSingle chain s e) as [singleLogs|]; cbn [await ret throw];
    [|discriminate].
  rewrite !bind_unfold.
  destruct (Items.logsBatch chain s e) as [batchLogs|]; cbn [await ret throw];
    [|discriminate].
  intros Hrun.
  by rewrite (ItemsHandlers.items_handleLogs_replay _ _ _ _ _ _ Hrun chain').
Qed.

Lemma egg_rescan chain chain' filter s e (w w1 w2 : World Egg.Row) :
  Egg.querySlice chain filter s e w = (w1, Ok ()) →
  Egg.logs chain' filter s e = Egg.logs chain filter s e →
  Egg.keys (db w1) ⊆ Egg.keys (db w2) →
  db (Egg.querySlice chain' filter s e w2).1 = db w2.
Proof.
  unfold Egg.querySlice, queryFilter. rewrite !bind_unfold. cbn [modify].
  intros Hrun -> Hsub. revert Hrun.
  destruct (Egg.logs chain filter s e) as [evs|]; cbn [await ret throw];
    [|discriminate].
  intros Hrun.
  by rewrite (EggFacts.egg_handleLogs_replay _ _ _ _ Hrun chain').
Qed.

(** C8, as claimed: in the ERC-721 monitor, appending a record whose
    transaction hash is already in a reachable store can change the store.
    With token 1 of the scenario's transaction stored, token 2 of the same
    transaction is appended. *)
Lemma C8_egg_present_hash_appended :
  ¬ (∀ chain from to id logObj (w : World Egg.Row),
       Egg.reachable w →
       toLowerCase (Egg.transactionHash logObj) ∈ (λ x, toLowerCase (Egg.txHash x)) <$> db w →
       db (Egg.enrichAndPersist chain from to id logObj w).1 = db w).
Proof.
  intros Hclaim.
  specialize (Hclaim Scenario.egg_chain "" "" 2%N (Egg.ev_log (Scenario.transfer 2))
    (Egg.enrichAndPersist Scenario.egg_chain "" "" 1%N (Egg.ev_log (Scenario.transfer 1))
       Scenario.fresh).1).
  assert (length (db (Egg.enrichAndPersist Scenario.egg_chain "" "" 1%N
            (Egg.ev_log (Scenario.transfer 1)) (Scenario.fresh (Row:=Egg.Row))).1) = 2%nat)
    as Hlen.
  { rewrite <- Hclaim.
    - vm_compute. reflexivity.
    - apply Egg.reach_append, Egg.reach_start. reflexivity.
    - vm_compute. left. }
  vm_compute in Hlen. discriminate Hlen.
Qed.

(** C8, amended: in the ERC-1155 monitor, appending a record whose
    transaction hash is already stored leaves the world as it is; in the
    ERC-721 monitor, appending a record whose pair of transaction hash and
    token identifier is already stored leaves the world as it is; and in
    both, a slice that has been scanned through and is scanned again, with
    the same logs, over a store that still holds what the first scan left,
    leaves the stored rows (and so their count) as they were. *)
Theorem C8_idempotent_store :
  (∀ cfg chain from to ids values logObj (w : World Items.Row),
     toLowerCase (Items.transactionHash logObj) ∈ Items.hashes (db w) →
     (Items.enrichAndPersist cfg chain from to ids values logObj w).1 = w)
  ∧ (∀ cfg chain chain' s e (w w1 w2 : World Items.Row),
       Items.querySlice cfg chain s e w = (w1, Ok ()) →
       Items.logsSingle chain' s e = Items.logsSingle chain s e →
       Items.logsBatch chain' s e = Items.logsBatch chain s e →
       Items.hashes (db w1) ⊆ Items.hashes (db w2) →
       db (Items.querySlice cfg chain' s e w2).1 = db w2
       ∧ length (db (Items.querySlice cfg chain' s e w2).1) = length (db w2))
  ∧ (∀ chain from to id logObj (w : World Egg.Row),
       Egg.keyOf id logObj ∈ Egg.keys (db w) →
       (Egg.enrichAndPersist chain from to id logObj w).1 = w)
  ∧ (∀ chain chain' filter s e (w w1 w2 : World Egg.Row),
       Egg.querySlice chain filter s e w = (w1, Ok ()) →
       Egg.logs chain' filter s e = Egg.logs chain filter s e →
       Egg.keys (db w1) ⊆ Egg.keys (db w2) →
       db (Egg.querySlice chain' filter s e w2).1 = db w2
       ∧ length (db (Egg.querySlice chain' filter s e w2).1) = length (db w2)).
Proof.
  split_and!.
  - apply ItemsFacts.items_enrich_unchanged.
  - intros cfg chain chain' s e w w1 w2 Hrun Hs Hb Hsub.
    by rewrite (items_rescan cfg chain chain' s e w w1 w2).
  - apply EggFacts.egg_enrich_unchanged.
  - intros chain chain' filter s e w w1 w2 Hrun Hl Hsub.
    by rewrite (egg_rescan chain chain' filter s e w w1 w2).
Qed.

(** The slice 101..201 of the scenario, scanned twice by the ERC-1155
    monitor: one row after the first scan, the same row after the second. *)
Lemma C8_idempotent_store_witness :
  let w1 := (Items.querySlice Scenario.cfg Scenario.items_chain 101 201 Scenario.fresh).1 in
  length (db w1) = 1%nat
  ∧ db (Items.querySlice Scenario.cfg Scenario.items_chain 101 201 w1).1 = db w1.
Proof.
  split; [vm_compute; reflexivity|].
  destruct C8_idempotent_store as (_ & Hrescan & _).
  eapply (Hrescan Scenario.cfg Scenario.items_chain Scenario.items_chain 101 201
            Scenario.fresh); [vm_compute; reflexivity|reflexivity..|done].
Defined.

(** ** The watch filter of the ERC-1155 monitor *)

Module ItemsFilter.
Import Items ItemsFacts ItemsHandlers.

Lemma single_other_receiver cfg chain ev (w : World Row) :
  ¬ same_address (orEmpty (single_to ev)) (env_WATCH_WALLET cfg) →
  handleTransferSingle cfg chain ev w = (w, Ok ()).
Proof.
  intros Hto. unfold handleTransferSingle.
  destruct (single_id ev) as [id|], (single_value ev) as [value|]; [|done..].
  destruct (falsy (Some id) || falsy (Some value)); [done|].
  by rewrite bool_decide_eq_true_2.
Qed.

Lemma batch_other_receiver cfg chain ev (w : World Row) :
  ¬ same_address (orEmpty (batch_to ev)) (env_WATCH_WALLET cfg) →
  handleTransferBatch cfg chain ev w = (w, Ok ()).
Proof.
  intros Hto. unfold handleTransferBatch.
  destruct (batch_ids ev) as [ids|], (batch_values ev) as [values|]; [|done..].
  by rewrite bool_decide_eq_true_2.
Qed.

(** A batch for the watched wallet: the record is built from its watched
    entries, and there is none when no entry is watched. *)
Lemma batch_watched cfg chain ev ids values (w : World Row) :
  batch_ids ev = Some ids → batch_values ev = Some values →
  same_address (orEmpty (batch_to ev)) (env_WATCH_WALLET cfg) →
  handleTransferBatch cfg chain ev w =
    match watched_entries ids values with
    | [] => (w, Ok ())
    | kept => enrichAndPersist cfg chain (toLowerCase (orEmpty (batch_from ev)))
                (toLowerCase (orEmpty (batch_to ev))) kept.*1 kept.*2 (batch_log ev) w
    end.
Proof.
  intros Hids Hvalues Hto. unfold handleTransferBatch. rewrite Hids, Hvalues.
  rewrite bool_decide_eq_false_2 by (intros Hne; by apply Hne).
  rewrite filterBatch_watched. rewrite drop_0, !app_nil_l.
  destruct (watched_entries ids values) as [|p kept]; [done|].
  by rewrite bool_decide_eq_true_2 by (cbn; lia).
Qed.

Lemma unwatched_entries ids : ∀ values,
  Forall (λ id, toString id ∉ WATCH_TOKEN_IDS) ids → watched_entries ids values = [].
Proof.
  induction ids as [|id ids IH]; intros values Hall; [done|].
  apply Forall_cons in Hall as [Hid Hall].
  destruct values as [|value values]; [apply watched_entries_nil_r|].
  rewrite watched_entries_cons, decide_False by (intros (_ & _ & ?); done).
  by apply IH.
Qed.

(** An entry with identifier 0 or amount 0 might as well not be there. *)
Lemma watched_entries_delete ids : ∀ values i id value,
  ids !! i = Some id → values !! i = Some value → id = 0%N ∨ value = 0%N →
  watched_entries (delete i ids) (delete i values) = watched_entries ids values.
Proof.
  induction ids as [|id0 ids IH]; intros values i id value Hid Hvalue Hzero; [done|].
  destruct values as [|value0 values]; [done|].
  rewrite watched_entries_cons. destruct i as [|i].
  - injection Hid as ->. injection Hvalue as ->.
    change (delete 0%nat (id :: ids)) with ids.
    change (delete 0%nat (value :: values)) with values.
    rewrite decide_False; [done|]. intros (? & ? & _). by destruct Hzero.
  - change (delete (S i) (id0 :: ids)) with (id0 :: delete i ids).
    change (delete (S i) (value0 :: values)) with (value0 :: delete i values).
    rewrite watched_entries_cons.
    by rewrite (IH values i id value).
Qed.

Lemma watched_entries_nonzero ids values p :
  p ∈ watched_entries ids values → p.1 ≠ 0%N ∧ p.2 ≠ 0%N.
Proof.
  unfold watched_entries. rewrite list_elem_of_filter. intros [(? & ? & _) _]. done.
Qed.

Lemma single_zero cfg chain ev (w : World Row) :
  single_id ev = Some 0%N ∨ single_value ev = Some 0%N →
  handleTransferSingle cfg chain ev w = (w, Ok ()).
Proof.
  unfold handleTransferSingle.
  intros [Hz|Hz]; rewrite Hz; destruct (single_id ev), (single_value ev); try done.
  - simplify_eq. unfold falsy. rewrite (bool_decide_eq_true_2 (0%N = 0%N)) by done.
    by rewrite orb_true_r.
Qed.

Lemma unwatched_999 : toString 999 ∉ WATCH_TOKEN_IDS.
Proof. vm_compute. discriminate. Qed.

Lemma watched_5 : toString 5 ∈ WATCH_TOKEN_IDS.
Proof. vm_compute. reflexivity. Qed.

End ItemsFilter.

(** C4: an event, single or batch, whose receiver is not the watched
    account up to the case of letters leaves the world as it is; a batch
    for the watched account is recorded with its watched entries only, and
    not at all when it has none; a batch with identifiers 5 and 999 (999
    not watched) and amounts 3 and 7, in a transaction not stored yet, adds
    exactly one row, whose identifiers are ["5"], amounts ["3"] and total
    "3"; and a batch none of whose identifiers is watched adds nothing. *)
Theorem C4_watch_filter cfg chain (w : World Items.Row) :
  (∀ ev, ¬ same_address (orEmpty (Items.single_to ev)) (env_WATCH_WALLET cfg) →
         Items.handleTransferSingle cfg chain ev w = (w, Ok ()))
  ∧ (∀ ev, ¬ same_address (orEmpty (Items.batch_to ev)) (env_WATCH_WALLET cfg) →
           Items.handleTransferBatch cfg chain ev w = (w, Ok ()))
  ∧ (∀ ev ids values,
       Items.batch_ids ev = Some ids → Items.batch_values ev = Some values →
       same_address (orEmpty (Items.batch_to ev)) (env_WATCH_WALLET cfg) →
       Items.handleTransferBatch cfg chain ev w =
         match Items.watched_entries ids values with
         | [] => (w, Ok ())
         | kept => Items.enrichAndPersist cfg chain
                     (toLowerCase (orEmpty (Items.batch_from ev)))
                     (toLowerCase (orEmpty (Items.batch_to ev)))
                     kept.*1 kept.*2 (Items.batch_log ev) w
         end)
  ∧ (toString 999 ∉ Items.WATCH_TOKEN_IDS)
  ∧ (∀ ev ts,
       Items.batch_ids ev = Some [5; 999]%N → Items.batch_values ev = Some [3; 7]%N →
       same_address (orEmpty (Items.batch_to ev)) (env_WATCH_WALLET cfg) →
       Items.getBlock chain (Items.log_blockNumber (Items.batch_log ev)) = Some ts →
       toLowerCase (Items.transactionHash (Items.batch_log ev)) ∉ Items.hashes (db w) →
       ∃ row,
         Items.handleTransferBatch cfg chain ev w =
           (mkWorld (sort_desc Items.blockNumber (db w ++ [row]))
                    (progress w) (lastProcessed w) (queries w), Ok ())
         ∧ Items.tokenIds row = ["5"] ∧ Items.amounts row = ["3"]
         ∧ Items.totalAmount row = "3"
         ∧ Items.txHash row = Items.transactionHash (Items.batch_log ev)
         ∧ length (sort_desc Items.blockNumber (db w ++ [row])) = S (length (db w)))
  ∧ (∀ ev ids values,
       Items.batch_ids ev = Some ids → Items.batch_values ev = Some values →
       Forall (λ id, toString id ∉ Items.WATCH_TOKEN_IDS) ids →
       Items.handleTransferBatch cfg chain ev w = (w, Ok ())).
Proof.
  split_and!.
  - intros ev. apply ItemsFilter.single_other_receiver.
  - intros ev. apply ItemsFilter.batch_other_receiver.
  - intros ev ids values. apply ItemsFilter.batch_watched.
  - apply ItemsFilter.unwatched_999.
  - intros ev ts Hids Hvalues Hto Hblock Hnew.
    eexists. split; [|split_and!; [..|by rewrite sort_desc_length, length_app, Nat.add_1_r]].
    + rewrite (ItemsFilter.batch_watched cfg chain ev _ _ w Hids Hvalues Hto).
      replace (Items.watched_entries [5; 999]%N [3; 7]%N) with [(5%N, 3%N)]
        by (vm_compute; reflexivity).
      by apply ItemsFacts.items_enrich_absent.
    + reflexivity.
    + reflexivity.
    + reflexivity.
    + reflexivity.
  - intros ev ids values Hids Hvalues Hall.
    destruct (decide (toLowerCase (orEmpty (Items.batch_to ev))
                      = toLowerCase (env_WATCH_WALLET cfg))) as [Hto|Hto]; [|by apply ItemsFilter.batch_other_receiver].
    rewrite (ItemsFilter.batch_watched cfg chain ev ids values w Hids Hvalues Hto).
    by rewrite ItemsFilter.unwatched_entries.
Qed.

(** The batch of the scenario, handled in a fresh world: one row with
    identifiers ["5"] and total "3"; and the transfer to another wallet,
    handled in a fresh world: nothing. *)
Lemma C4_watch_filter_witness :
  (∃ row, db (Items.handleTransferBatch Scenario.cfg Scenario.items_chain
                Scenario.batch Scenario.fresh).1 = [row]
          ∧ Items.tokenIds row = ["5"] ∧ Items.totalAmount row = "3")
  ∧ db (Items.handleTransferSingle Scenario.cfg Scenario.items_chain
          Scenario.elsewhere Scenario.fresh).1 = [].
Proof.
  destruct (C4_watch_filter Scenario.cfg Scenario.items_chain Scenario.fresh)
    as (Hsingle & _ & _ & _ & Hexample & _).
  split.
  - destruct (Hexample Scenario.batch 1700000000) as (row & -> & Hids & _ & Htotal & _);
      [reflexivity|reflexivity|reflexivity|reflexivity|vm_compute; apply not_elem_of_nil|].
    exists row. done.
  - rewrite Hsingle; [reflexivity|]. vm_compute. discriminate.
Defined.

(** C10: a single transfer whose token identifier or amount is 0 leaves the
    world as it is, and an entry of a batch whose token identifier or
    amount is 0 is left out: the batch is handled as if the entry were not
    there, and no retained entry has identifier 0 or amount 0; this whoever
    the receiver and whatever the watch-set says of the identifier. *)
Theorem C10_zero_left_out cfg chain (w : World Items.Row) :
  (∀ ev, Items.single_id ev = Some 0%N ∨ Items.single_value ev = Some 0%N →
         Items.handleTransferSingle cfg chain ev w = (w, Ok ()))
  ∧ (∀ ev ids values i id value,
       Items.batch_ids ev = Some ids → Items.batch_values ev = Some values →
       ids !! i = Some id → values !! i = Some value →
       id = 0%N ∨ value = 0%N →
       Items.handleTransferBatch cfg chain ev w =
         Items.handleTransferBatch cfg chain
           {| Items.batch_from := Items.batch_from ev;
              Items.batch_to := Items.batch_to ev;
              Items.batch_ids := Some (delete i ids);
              Items.batch_values := Some (delete i values);
              Items.batch_log := Items.batch_log ev |} w)
  ∧ (∀ ids values,
       Items.filterBatch 0 ids values [] [] =
         ((Items.watched_entries ids values).*1, (Items.watched_entries ids values).*2)
       ∧ (0%N ∉ (Items.filterBatch 0 ids values [] []).1)
       ∧ (0%N ∉ (Items.filterBatch 0 ids values [] []).2)).
Proof.
  split_and!.
  - intros ev. apply ItemsFilter.single_zero.
  - intros ev ids values i id value Hids Hvalues Hid Hvalue Hzero.
    destruct (decide (toLowerCase (orEmpty (Items.batch_to ev))
                      = toLowerCase (env_WATCH_WALLET cfg))) as [Hto|Hto].
    + rewrite (ItemsFilter.batch_watched cfg chain ev ids values w Hids Hvalues Hto).
      match goal with |- _ = Items.handleTransferBatch _ _ ?e _ => set (ev' := e) end.
      rewrite (ItemsFilter.batch_watched cfg chain ev' (delete i ids) (delete i values) w
                 eq_refl eq_refl Hto).
      by rewrite (ItemsFilter.watched_entries_delete ids values i id value).
    + by rewrite !ItemsFilter.batch_other_receiver.
  - intros ids values. rewrite ItemsHandlers.filterBatch_watched, drop_0, !app_nil_l.
    split_and!; [done|..]; cbn [fst snd]; intros Hin;
      apply list_elem_of_fmap in Hin as (p & Hp & Hin);
      apply ItemsFilter.watched_entries_nonzero in Hin as [? ?]; congruence.
Qed.

(** The transfer of amount 0 of the scenario, sent to the watched wallet
    with a watched identifier, handled in a fresh world: nothing stored. *)
Lemma C10_zero_left_out_witness :
  same_address (orEmpty (Items.single_to Scenario.nothing)) (env_WATCH_WALLET Scenario.cfg)
  ∧ toString 5 ∈ Items.WATCH_TOKEN_IDS
  ∧ Items.handleTransferSingle Scenario.cfg Scenario.items_chain Scenario.nothing
      Scenario.fresh = (Scenario.fresh, Ok ()).
Proof.
  split_and!; [reflexivity | apply ItemsFilter.watched_5 |].
  apply (C10_zero_left_out Scenario.cfg Scenario.items_chain Scenario.fresh).
  right. reflexivity.
Defined.

(** ** The loops follow the scheduler

    When [querySlice] makes the same queries for a range whatever the world
    and the outcome, a loop that runs through has made the queries of the
    ranges of [chunks] (for the backfill) or [slices] (for the tick), in
    order. *)

Section Schedule.
Context {Row : Type}.
Variable cfg : Config.
Variable querySlice : Z → Z → Run (World Row) unit.
Variable writeProgress : Z → option unit.
Variable issued : Z → Z → list Query.
Hypothesis querySlice_issues : ∀ s e w,
  queries (querySlice s e w).1 = queries w ++ issued s e.

Lemma backfillLoop_follows_chunks fuel : ∀ start latest (w w' : World Row),
  backfillLoop cfg querySlice writeProgress fuel start latest w = (w', Ok ()) →
  ∃ rs, chunks fuel start latest (CHUNK cfg) = Some rs
      ∧ queries w' = queries w ++ issued_for issued rs.
Proof.
  induction fuel as [|fuel IH]; intros start latest w w'; cbn [backfillLoop chunks].
  - case_bool_decide; [discriminate|]. intros [= <-]. exists []. by rewrite app_nil_r.
  - case_bool_decide; [|intros [= <-]; exists []; by rewrite app_nil_r].
    rewrite bind_unfold. pose proof (querySlice_issues start
      (Z.min latest (start + CHUNK cfg)) w) as Hq.
    destruct (querySlice _ _ w) as [w1 [[]|e|]]; [|discriminate..].
    rewrite bind_unfold, saveProgress_cases.
    destruct (writeProgress _) as [[]|]; [|discriminate]. intros Hrun.
    apply IH in Hrun as (rest & -> & Hqueries). eexists; split; [reflexivity|].
    rewrite Hqueries. cbn [queries fst] in *. rewrite Hq.
    unfold issued_for. cbn [fmap list_fmap concat range_start range_end].
    by rewrite app_assoc.
Qed.

Lemma pollLoop_follows_slices fuel : ∀ cursor safeHead (w w' : World Row),
  pollLoop cfg querySlice fuel cursor safeHead w = (w', Ok ()) →
  ∃ rs, slices fuel cursor safeHead (CHUNK cfg) = Some rs
      ∧ queries w' = queries w ++ issued_for issued rs.
Proof.
  induction fuel as [|fuel IH]; intros cursor safeHead w w'; cbn [pollLoop slices].
  - case_bool_decide; [discriminate|]. intros [= <-]. exists []. by rewrite app_nil_r.
  - case_bool_decide; [|intros [= <-]; exists []; by rewrite app_nil_r].
    rewrite bind_unfold. pose proof (querySlice_issues cursor
      (Z.min (cursor + CHUNK cfg) safeHead) w) as Hq.
    destruct (querySlice _ _ w) as [w1 [[]|e|]]; [|discriminate..].
    intros Hrun.
    apply IH in Hrun as (rest & -> & Hqueries). eexists; split; [reflexivity|].
    rewrite Hqueries. cbn [queries fst] in *. rewrite Hq.
    unfold issued_for. cbn [fmap list_fmap concat range_start range_end].
    by rewrite app_assoc.
Qed.

End Schedule.

Lemma egg_querySlice_issues chain filter s e (w : World Egg.Row) :
  queries (Egg.querySlice chain filter s e w).1 =
    queries w ++ [{| q_filter := filter; q_from := s; q_to := e |}].
Proof.
  unfold Egg.querySlice, queryFilter. rewrite !bind_unfold. cbn [modify].
  destruct (Egg.logs chain filter s e) as [evs|]; cbn [await ret throw]; [|done].
  by destruct (EggFacts.egg_handleLogs_store_only chain evs
                 (mkWorld (db w) (progress w) (lastProcessed w)
                    (queries w ++ [{| q_filter := filter; q_from := s; q_to := e |}])))
    as (_ & _ & ->).
Qed.

Lemma items_querySlice_issues cfg chain s e (w : World Items.Row) :
  queries (Items.querySlice cfg chain s e w).1 =
    queries w ++ [ {| q_filter := TransferSingle; q_from := s; q_to := e |};
                   {| q_filter := TransferBatch; q_from := s; q_to := e |} ].
Proof.
  unfold Items.querySlice. rewrite !bind_unfold. cbn [modify].
  destruct (Items.logsSingle chain s e) as [singleLogs|]; cbn [await ret throw]; [|done].
  rewrite bind_unfold.
  destruct (Items.logsBatch chain s e) as [batchLogs|]; cbn [await ret throw]; [|done].
  rewrite bind_unfold. cbn [ret].
  by destruct (ItemsHandlers.items_handleLogs_store_only cfg chain singleLogs batchLogs
                 (mkWorld (db w) (progress w) (lastProcessed w)
                    (queries w ++ [ {| q_filter := TransferSingle; q_from := s; q_to := e |};
                                    {| q_filter := TransferBatch; q_from := s; q_to := e |} ])))
    as (_ & _ & ->).
Qed.

(** The queries of a backfill of the ERC-721 monitor that ran through are
    those of the ranges of [chunks], one query a range; those of the
    ERC-1155 monitor, two queries a range. Likewise for the tick and
    [slices]. *)
Lemma egg_backfill_follows_chunks cfg chain fuel start latest (w w' : World Egg.Row) :
  backfillLoop cfg (Egg.querySlice chain (Egg.filter cfg)) (Egg.writeProgress chain)
    fuel start latest w = (w', Ok ()) →
  ∃ rs, chunks fuel start latest (CHUNK cfg) = Some rs
      ∧ queries w' = queries w ++
          issued_for (λ s e, [{| q_filter := Egg.filter cfg; q_from := s; q_to := e |}]) rs.
Proof.
  apply backfillLoop_follows_chunks. intros s e w0. apply egg_querySlice_issues.
Qed.

Lemma items_backfill_follows_chunks cfg chain fuel start latest (w w' : World Items.Row) :
  backfillLoop cfg (Items.querySlice cfg chain) (Items.writeProgress chain)
    fuel start latest w = (w', Ok ()) →
  ∃ rs, chunks fuel start latest (CHUNK cfg) = Some rs
      ∧ queries w' = queries w ++
          issued_for (λ s e, [ {| q_filter := TransferSingle; q_from := s; q_to := e |};
                               {| q_filter := TransferBatch; q_from := s; q_to := e |} ]) rs.
Proof.
  apply backfillLoop_follows_chunks. intros s e w0. apply items_querySlice_issues.
Qed.

Lemma egg_poll_follows_slices cfg chain fuel cursor safeHead (w w' : World Egg.Row) :
  pollLoop cfg (Egg.querySlice chain (Egg.filter cfg)) fuel cursor safeHead w = (w', Ok ()) →
  ∃ rs, slices fuel cursor safeHead (CHUNK cfg) = Some rs
      ∧ queries w' = queries w ++
          issued_for (λ s e, [{| q_filter := Egg.filter cfg; q_from := s; q_to := e |}]) rs.
Proof.
  apply pollLoop_follows_slices. intros s e w0. apply egg_querySlice_issues.
Qed.

Lemma items_poll_follows_slices cfg chain fuel cursor safeHead (w w' : World Items.Row) :
  pollLoop cfg (Items.querySlice cfg chain) fuel cursor safeHead w = (w', Ok ()) →
  ∃ rs, slices fuel cursor safeHead (CHUNK cfg) = Some rs
      ∧ queries w' = queries w ++
          issued_for (λ s e, [ {| q_filter := TransferSingle; q_from := s; q_to := e |};
                               {| q_filter := TransferBatch; q_from := s; q_to := e |} ]) rs.
Proof.
  apply pollLoop_follows_slices. intros s e w0. apply items_querySlice_issues.
Qed.

(** The backfill of the scenario from 0 to 250 in ranges of width 100. *)
Example backfill_0_250_queries :
  (λ q, (q_from q, q_to q)) <$>
    queries (Egg.scanHistorical Scenario.cfg_from_0 Scenario.egg_chain_250 10
               Scenario.fresh).1
  = [(0, 100); (101, 201); (202, 250)].
Proof. vm_compute. reflexivity. Qed.

(** ** The starting height of the backfill *)

Lemma fromBlockOf_ComputeStart cfg (checkpoint : option Z) latest :
  fromBlockOf cfg (default 0 checkpoint) latest =
    ComputeStart checkpoint (CONFIRMATIONS cfg) (FROM_BLOCK cfg) latest (INIT_LOOKBACK cfg).
Proof.
  unfold fromBlockOf, ComputeStart. destruct checkpoint as [c|]; cbv [default from_option id].
  - repeat case_bool_decide; done || lia.
  - by rewrite bool_decide_eq_false_2 by lia.
Qed.

Lemma scanHistorical_from_ComputeStart {Row} cfg latest querySlice writeProgress fuel
    (w : World Row) :
  scanHistorical cfg (Some latest) querySlice writeProgress fuel w =
    (backfillLoop cfg querySlice writeProgress fuel
       (ComputeStart (progress w) (CONFIRMATIONS cfg) (FROM_BLOCK cfg) latest
          (INIT_LOOKBACK cfg)) latest ≫= λ _, mret latest) w.
Proof.
  unfold scanHistorical. rewrite bind_unfold. cbn [await ret].
  rewrite bind_unfold. cbn [loadProgress gets].
  by rewrite fromBlockOf_ComputeStart.
Qed.

(** C6: [scanHistorical] of either monitor, once the head is known, runs
    the backfill loop from the height the specification computes: the
    checkpoint less the confirmations, not below 0, when a checkpoint
    greater than 0 exists; otherwise the configured override; otherwise the
    head less the lookback window, not below 0. *)
Theorem C6_compute_start cfg latest fuel :
  (∀ chain (w : World Items.Row),
     Items.getBlockNumber chain = Some latest →
     Items.scanHistorical cfg chain fuel w =
       (backfillLoop cfg (Items.querySlice cfg chain) (Items.writeProgress chain) fuel
          (ComputeStart (progress w) (CONFIRMATIONS cfg) (FROM_BLOCK cfg) latest
             (INIT_LOOKBACK cfg)) latest ≫= λ _, mret latest) w)
  ∧ (∀ chain (w : World Egg.Row),
       Egg.getBlockNumber chain = Some latest →
       Egg.scanHistorical cfg chain fuel w =
         (backfillLoop cfg (Egg.querySlice chain (Egg.filter cfg))
            (Egg.writeProgress chain) fuel
            (ComputeStart (progress w) (CONFIRMATIONS cfg) (FROM_BLOCK cfg) latest
               (INIT_LOOKBACK cfg)) latest ≫= λ _, mret latest) w)
  ∧ (∀ c override, 0 < c →
       ComputeStart (Some c) (CONFIRMATIONS cfg) override latest (INIT_LOOKBACK cfg)
         = Z.max 0 (c - CONFIRMATIONS cfg))
  ∧ (∀ checkpoint o, (∀ c, checkpoint = Some c → c ≤ 0) →
       ComputeStart checkpoint (CONFIRMATIONS cfg) (Some o) latest (INIT_LOOKBACK cfg) = o)
  ∧ (∀ checkpoint, (∀ c, checkpoint = Some c → c ≤ 0) →
       ComputeStart checkpoint (CONFIRMATIONS cfg) None latest (INIT_LOOKBACK cfg)
         = Z.max 0 (latest - INIT_LOOKBACK cfg)).
Proof.
  split_and!.
  - intros chain w Hhead. unfold Items.scanHistorical. rewrite Hhead.
    apply scanHistorical_from_ComputeStart.
  - intros chain w Hhead. unfold Egg.scanHistorical. rewrite Hhead.
    apply scanHistorical_from_ComputeStart.
  - intros c override Hc. unfold ComputeStart. by rewrite bool_decide_eq_true_2.
  - intros [c|] o Hle; unfold ComputeStart; [|done].
    specialize (Hle c eq_refl). by rewrite bool_decide_eq_false_2 by lia.
  - intros [c|] Hle; unfold ComputeStart; [|done].
    specialize (Hle c eq_refl). by rewrite bool_decide_eq_false_2 by lia.
Qed.

(** The ERC-721 monitor of the scenario resumes from a checkpoint at 100
    with 2 confirmations: its first query starts at height 98. *)
Lemma C6_compute_start_witness :
  head (queries (Egg.scanHistorical Scenario.cfg Scenario.egg_chain 10 Scenario.at100).1)
    = Some {| q_filter := Transfer (WATCH_WALLET Scenario.cfg); q_from := 98; q_to := 198 |}.
Proof.
  destruct (C6_compute_start Scenario.cfg 252 10) as (_ & Hegg & _).
  rewrite (Hegg Scenario.egg_chain Scenario.at100 eq_refl).
  vm_compute. reflexivity.
Defined.

(** ** The tick *)

(** C5: the queries a tick of either monitor makes, whatever the fuel and
    however the tick ends, all end at or below H - C, where H is the head
    the tick observed and C the configured confirmations; a tick that
    could not observe the head makes none. *)
Theorem C5_confirmation_lag cfg fuel :
  (∀ chain (w : World Items.Row),
     ∃ qs, queries (Items.tick cfg chain fuel w).1 = queries w ++ qs
         ∧ Forall (λ q, ∃ H, Items.getBlockNumber chain = Some H
                             ∧ q_to q ≤ H - CONFIRMATIONS cfg) qs)
  ∧ (∀ chain (w : World Egg.Row),
       ∃ qs, queries (Egg.tick cfg chain fuel w).1 = queries w ++ qs
           ∧ Forall (λ q, ∃ H, Egg.getBlockNumber chain = Some H
                               ∧ q_to q ≤ H - CONFIRMATIONS cfg) qs).
Proof.
  split; intros chain w.
  - apply tick_scans. apply ItemsHandlers.items_querySlice_scans.
  - apply tick_scans. intros s e. apply EggFacts.egg_querySlice_scans.
Qed.

(** A tick of the scenario: head 252, two confirmations, checkpoint 100. *)
Example tick_scenario_queries :
  queries (Egg.tick Scenario.cfg Scenario.egg_chain 10 Scenario.at100).1 =
    [ {| q_filter := Transfer (WATCH_WALLET Scenario.cfg); q_from := 101; q_to := 201 |};
      {| q_filter := Transfer (WATCH_WALLET Scenario.cfg); q_from := 202; q_to := 250 |} ].
Proof. vm_compute. reflexivity. Qed.




(** ** The timer *)

Module TimerFacts.
Import Timer.

Lemma reaches_polling_twice :
  reaches [CallFirst; Settle 0; Fire]
          {| phase := Polling; begun := 2; running := [1%nat] |}.
Proof.
  apply (reaches_step [CallFirst; Settle 0]
           {| phase := Polling; begun := 1; running := [] |}); [|apply step_fire].
  apply (reaches_step [CallFirst]
           {| phase := FirstTick; begun := 1; running := [0%nat] |});
    [|apply (step_settle_first 1 0 [0%nat]); left].
  apply (reaches_step [] initial); [apply reaches_initial | apply step_first].
Qed.

(** Before the timer is installed at most the first tick is running, and
    the timer has not fired. *)
Lemma before_polling evs s :
  reaches evs s → phase s ≠ Polling →
  (length (running s) ≤ 1)%nat ∧ Fire ∉ evs.
Proof.
  induction 1 as [|evs s ev s' Hreach IH Hstep]; intros Hphase.
  - split; [cbn; lia | apply not_elem_of_nil].
  - destruct Hstep; cbn in *; try done.
    split; [lia|]. destruct IH as [_ Hfire]; [done|].
    rewrite elem_of_app, list_elem_of_singleton. intros [?|?]; done.
Qed.

Lemma busy_start_is_fire evs s ev s' :
  reaches evs s → step s ev s' → begins ev = true → running s ≠ [] →
  ev = Fire ∧ phase s = Polling.
Proof. intros _ Hstep Hbegins Hbusy. destruct Hstep; cbn in *; done. Qed.

(** Where an execution stands, by its phase: nothing has happened; the
    first tick is running, alone; or the first tick has settled and the
    ticks that run were begun by the timer. *)
Lemma timer_invariant evs s :
  reaches evs s →
  match phase s with
  | Starting => evs = [] ∧ begun s = 0%nat ∧ running s = []
  | FirstTick => evs = [CallFirst] ∧ begun s = 1%nat ∧ running s = [0%nat]
  | Polling => Settle 0 ∈ evs ∧ (1 ≤ begun s)%nat
               ∧ Forall (λ i, (1 ≤ i < begun s)%nat) (running s)
  end.
Proof.
  induction 1 as [|evs s ev s' Hreach IH Hstep]; [done|].
  destruct Hstep as [|n i l Hi|n i l Hi|n l]; cbn in *.
  - by destruct IH as (-> & _).
  - destruct IH as (-> & -> & ->). apply list_elem_of_singleton in Hi as ->.
    split_and!; [|done|by constructor].
    apply elem_of_app. right. by apply list_elem_of_singleton.
  - destruct IH as (Hsettled & Hbegun & Hall). split_and!; [|done|].
    + apply elem_of_app. by left.
    + unfold remove. apply Forall_forall. intros j Hj.
      apply list_elem_of_filter in Hj as [_ Hj]. rewrite Forall_forall in Hall. by apply Hall.
  - destruct IH as (Hsettled & Hbegun & Hall). split_and!; [|lia|].
    + apply elem_of_app. by left.
    + apply Forall_app. split; [|constructor; [lia|constructor]].
      eapply Forall_impl; [exact Hall|]. cbn. intros j. lia.
Qed.

(** The timer is installed only when the first tick has settled. *)
Lemma installed_after_first evs s :
  reaches evs s → phase s = Polling → Settle 0 ∈ evs ∧ 0%nat ∉ running s.
Proof.
  intros Hreach Hphase. pose proof (timer_invariant evs s Hreach) as Hinv.
  rewrite Hphase in Hinv. destruct Hinv as (Hsettled & _ & Hall). split; [done|].
  intros Hin. rewrite Forall_forall in Hall. specialize (Hall _ Hin). lia.
Qed.

(** While the first tick runs, it is the only tick that has begun. *)
Lemma first_tick_runs_alone evs s :
  reaches evs s → 0%nat ∈ running s →
  evs = [CallFirst] ∧ running s = [0%nat] ∧ begun s = 1%nat.
Proof.
  intros Hreach Hin. pose proof (timer_invariant evs s Hreach) as Hinv.
  destruct (phase s).
  - destruct Hinv as (_ & _ & Hnone). rewrite Hnone in Hin. by apply elem_of_nil in Hin.
  - by destruct Hinv as (-> & -> & ->).
  - destruct Hinv as (_ & _ & Hall). rewrite Forall_forall in Hall.
    specialize (Hall _ Hin). lia.
Qed.

Lemma step_deterministic s ev s1 s2 : step s ev s1 → step s ev s2 → s1 = s2.
Proof. intros H1 H2. destruct H1; inversion H2; by subst. Qed.

Lemma reaches_snoc_inv evs ev s :
  reaches (evs ++ [ev]) s → ∃ s0, reaches evs s0 ∧ step s0 ev s.
Proof.
  inversion 1 as [Hnil|evs' s0 ev' s' Hreach Hstep Heq]; subst.
  - by destruct evs.
  - apply app_inj_tail in Heq as [-> ->]. by exists s0.
Qed.

Lemma reaches_deterministic evs : ∀ s1 s2, reaches evs s1 → reaches evs s2 → s1 = s2.
Proof.
  induction evs as [|ev evs IH] using rev_ind; intros s1 s2 H1 H2.
  - inversion H1 as [|evs' ? ? ? ? ? Heq]; [|by destruct evs'].
    inversion H2 as [|evs' ? ? ? ? ? Heq']; [done|by destruct evs'].
  - apply reaches_snoc_inv in H1 as (t1 & Hr1 & Hs1).
    apply reaches_snoc_inv in H2 as (t2 & Hr2 & Hs2).
    rewrite (IH _ _ Hr1 Hr2) in Hs1. by eapply step_deterministic.
Qed.

Lemma reaches_prefix evs1 evs2 : ∀ s, reaches (evs1 ++ evs2) s → ∃ s1, reaches evs1 s1.
Proof.
  induction evs2 as [|ev evs2 IH] using rev_ind; intros s Hreach.
  - rewrite app_nil_r in Hreach. by exists s.
  - rewrite app_assoc in Hreach. apply reaches_snoc_inv in Hreach as (s0 & Hreach & _).
    by apply (IH s0).
Qed.

Lemma timely_prefix evs1 evs2 : timely (evs1 ++ evs2) → timely evs1.
Proof.
  intros Htimely a b s1 -> Hreach. apply (Htimely a (b ++ evs2)); [|done].
  by rewrite <- app_assoc.
Qed.

Lemma timely_one_running evs s :
  reaches evs s → timely evs → (length (running s) ≤ 1)%nat.
Proof.
  induction 1 as [|evs s ev s' Hreach IH Hstep]; intros Htimely; [cbn; lia|].
  pose proof (IH (timely_prefix _ _ Htimely)) as Hone.
  destruct Hstep as [|n i l Hi|n i l Hi|n l]; cbn in *.
  - lia.
  - unfold remove. pose proof (length_filter (λ j, j ≠ i) l). lia.
  - unfold remove. pose proof (length_filter (λ j, j ≠ i) l). lia.
  - pose proof (Htimely evs [] _ eq_refl Hreach) as Hnil. cbn in Hnil. subst l. cbn. lia.
Qed.

(** An execution is free of overlapping ticks exactly when every tick has
    settled by the next firing. *)
Lemma overlap_free_iff_timely evs s : reaches evs s → overlap_free evs ↔ timely evs.
Proof.
  intros Hreach. split.
  - intros Hfree evs1 evs2 s1 -> Hreach1.
    rewrite (app_assoc evs1 [Fire] evs2 : evs1 ++ Fire :: evs2 = (evs1 ++ [Fire]) ++ evs2)
      in Hreach, Hfree.
    destruct (reaches_prefix _ _ _ Hreach) as [s2 Hreach2].
    pose proof (Hfree _ _ _ eq_refl Hreach2) as Hone.
    apply reaches_snoc_inv in Hreach2 as (s0 & Hreach0 & Hstep).
    rewrite (reaches_deterministic _ _ _ Hreach0 Hreach1) in Hstep.
    inversion Hstep as [| | |n l]; subst. cbn in *.
    rewrite length_app in Hone. cbn in Hone. destruct l; [done|cbn in Hone; lia].
  - intros Htimely evs1 evs2 s1 -> Hreach1.
    apply (timely_one_running evs1 s1 Hreach1). by eapply timely_prefix.
Qed.

End TimerFacts.

(** C9, as claimed: ticks are not serialized. After the first tick has
    settled and the timer is installed, a firing begins tick 1 and the next
    firing begins tick 2 while tick 1 is still running. *)
Lemma C9_ticks_overlap : ¬ Timer.serialized.
Proof.
  intros Hserial.
  specialize (Hserial _ _ Timer.Fire _ TimerFacts.reaches_polling_twice
                (Timer.step_fire 2 [1%nat]) eq_refl).
  discriminate Hserial.
Qed.

(** C9, amended: the first tick is awaited to completion before the timer
    is installed. Until the timer is installed at most one tick is running
    and the timer has not fired; the timer is installed only when the first
    tick has settled; and while the first tick runs it is the only tick
    that has begun, so it never overlaps another. After that every firing
    of the timer begins a tick, whatever is still running, so a tick that
    begins while another runs is always one begun by the timer: there is no
    single-flight guard and no delay after completion. Hence an execution
    has no two ticks running at once exactly when every tick has settled by
    the next firing of the timer. *)
Theorem C9_first_tick_alone :
  (∀ evs s, Timer.reaches evs s → Timer.phase s ≠ Timer.Polling →
            (length (Timer.running s) ≤ 1)%nat ∧ Timer.Fire ∉ evs)
  ∧ (∀ evs s ev s', Timer.reaches evs s → Timer.step s ev s' →
                    Timer.begins ev = true → Timer.running s ≠ [] →
                    ev = Timer.Fire ∧ Timer.phase s = Timer.Polling)
  ∧ (∀ evs s, Timer.reaches evs s → Timer.phase s = Timer.Polling →
              Timer.step s Timer.Fire
                {| Timer.phase := Timer.Polling;
                   Timer.begun := S (Timer.begun s);
                   Timer.running := Timer.running s ++ [Timer.begun s] |})
  ∧ (∀ evs s, Timer.reaches evs s → Timer.phase s = Timer.Polling →
              Timer.Settle 0 ∈ evs ∧ 0%nat ∉ Timer.running s)
  ∧ (∀ evs s, Timer.reaches evs s → 0%nat ∈ Timer.running s →
              evs = [Timer.CallFirst] ∧ Timer.running s = [0%nat]
              ∧ Timer.begun s = 1%nat)
  ∧ (∀ evs s, Timer.reaches evs s → Timer.overlap_free evs ↔ Timer.timely evs).
Proof.
  split_and!.
  - apply TimerFacts.before_polling.
  - apply TimerFacts.busy_start_is_fire.
  - intros evs [ph n l] _ Hphase. cbn in *. subst ph. apply Timer.step_fire.
  - apply TimerFacts.installed_after_first.
  - apply TimerFacts.first_tick_runs_alone.
  - apply TimerFacts.overlap_free_iff_timely.
Qed.

(** * Further properties of the two monitors *)

(** ** The order of the stored rows *)

Section SortFacts.
Context {Row : Type}.
Variable blockNumber : Row → Z.

Lemma insert_desc_sorted x l :
  StronglySorted (desc blockNumber) l →
  StronglySorted (desc blockNumber) (insert_desc blockNumber x l).
Proof.
  induction 1 as [|y l Hl IH Hy]; cbn [insert_desc].
  - repeat constructor.
  - case_bool_decide as Hlt.
    + constructor; [exact IH|].
      rewrite insert_desc_Permutation. constructor; [unfold desc; lia | exact Hy].
    + constructor; [by constructor|]. constructor; [unfold desc; lia|].
      eapply Forall_impl; [exact Hy|]. unfold desc. intros z. cbn. lia.
Qed.

Lemma sort_desc_sorted l : StronglySorted (desc blockNumber) (sort_desc blockNumber l).
Proof.
  induction l as [|x l IH]; cbn [sort_desc foldr]; [constructor|].
  by apply insert_desc_sorted.
Qed.

(** A row at least as high as the first stored row goes in front. *)
Lemma insert_desc_front x l :
  (∀ y, head l = Some y → blockNumber y ≤ blockNumber x) →
  insert_desc blockNumber x l = x :: l.
Proof.
  destruct l as [|y l]; [done|]. intros Hhead. cbn [insert_desc].
  rewrite bool_decide_eq_false_2; [done|]. specialize (Hhead y eq_refl). lia.
Qed.

(** Pushing a row onto sorted rows and sorting: the stored rows keep their
    order, and the new row comes after those of its block or a higher one
    and before those of a lower one. *)
Lemma sort_desc_push rows row :
  StronglySorted (desc blockNumber) rows →
  ∃ before after,
    rows = before ++ after
    ∧ sort_desc blockNumber (rows ++ [row]) = before ++ row :: after
    ∧ Forall (λ r, blockNumber row ≤ blockNumber r) before
    ∧ Forall (λ r, blockNumber r < blockNumber row) after.
Proof.
  unfold sort_desc. rewrite foldr_app. cbn [foldr insert_desc].
  induction 1 as [|y rows Hrows IH Hy]; cbn [foldr].
  - exists [], []. by repeat split.
  - destruct IH as (before & after & -> & -> & Hbefore & Hafter).
    apply Forall_app in Hy as [Hyb Hya].
    destruct (decide (blockNumber row ≤ blockNumber y)) as [Hge|Hlt].
    + exists (y :: before), after. split_and!; [done| |by constructor|done].
      rewrite insert_desc_front; [done|].
      intros z Hz. destruct before as [|b before]; cbn in Hz; simplify_eq.
      * done.
      * by apply Forall_cons in Hyb as [? _].
    + destruct before as [|b before].
      * exists [], (y :: after). split_and!; [done| |done|].
        -- cbn [app insert_desc]. rewrite bool_decide_eq_true_2 by lia.
           rewrite insert_desc_front; [done|].
           intros z Hz. destruct after as [|a after]; cbn in Hz; simplify_eq.
           by apply Forall_cons in Hya as [? _].
        -- constructor; [lia | done].
      * apply Forall_cons in Hbefore as [Hb _]. apply Forall_cons in Hyb as [Hyb _].
        unfold desc in Hyb. lia.
Qed.

End SortFacts.

Lemma items_reachable_sorted (w : World Items.Row) :
  Items.reachable w → StronglySorted (desc Items.blockNumber) (db w).
Proof.
  induction 1 as [w Hempty|cfg chain from to ids values logObj w _ IH|w w' _ IH Hdb].
  - rewrite Hempty. constructor.
  - destruct (ItemsFacts.items_enrich_cases cfg chain from to ids values logObj w)
      as [[_ ->]|[[_ ->]|(ts & _ & _ & ->)]]; [done..|]. apply sort_desc_sorted.
  - by rewrite Hdb.
Qed.

Lemma egg_reachable_sorted (w : World Egg.Row) :
  Egg.reachable w → StronglySorted (desc Egg.blockNumber) (db w).
Proof.
  induction 1 as [w Hempty|chain from to id logObj w _ IH|w w' _ IH Hdb].
  - rewrite Hempty. constructor.
  - destruct (EggFacts.egg_enrich_cases chain from to id logObj w)
      as [[_ ->]|[[_ ->]|(ts & _ & _ & ->)]]; [done..|]. apply sort_desc_sorted.
  - by rewrite Hdb.
Qed.

(** X1: in every store either monitor can reach, the rows are in
    descending order of block number. *)
Theorem X1_store_sorted :
  (∀ w, Items.reachable w → StronglySorted (desc Items.blockNumber) (db w))
  ∧ (∀ w, Egg.reachable w → StronglySorted (desc Egg.blockNumber) (db w)).
Proof. split; [apply items_reachable_sorted | apply egg_reachable_sorted]. Qed.

(** X2: when [enrichAndPersist] of either monitor stores a new row in a
    reachable store, the rows already stored keep their order, and the new
    row is placed after every row of the same or a higher block and before
    every row of a lower block. *)
Theorem X2_new_row_position :
  (∀ cfg chain from to ids values logObj ts (w : World Items.Row),
     Items.reachable w →
     Items.getBlock chain (Items.log_blockNumber logObj) = Some ts →
     toLowerCase (Items.transactionHash logObj) ∉ Items.hashes (db w) →
     ∃ before after,
       db w = before ++ after
       ∧ db (Items.enrichAndPersist cfg chain from to ids values logObj w).1
           = before ++ Items.newRow cfg from to ids values logObj ts :: after
       ∧ Forall (λ r, Items.log_blockNumber logObj ≤ Items.blockNumber r) before
       ∧ Forall (λ r, Items.blockNumber r < Items.log_blockNumber logObj) after)
  ∧ (∀ chain from to id logObj ts (w : World Egg.Row),
       Egg.reachable w →
       Egg.getBlock chain (Egg.log_blockNumber logObj) = Some ts →
       Egg.keyOf id logObj ∉ Egg.keys (db w) →
       ∃ before after,
         db w = before ++ after
         ∧ db (Egg.enrichAndPersist chain from to id logObj w).1
             = before ++ Egg.newRow chain from to id logObj ts :: after
         ∧ Forall (λ r, Egg.log_blockNumber logObj ≤ Egg.blockNumber r) before
         ∧ Forall (λ r, Egg.blockNumber r < Egg.log_blockNumber logObj) after).
Proof.
  split.
  - intros cfg chain from to ids values logObj ts w Hw Hblock Hnew.
    rewrite (ItemsFacts.items_enrich_absent cfg chain from to ids values logObj w ts Hblock Hnew).
    cbn [fst db].
    apply (sort_desc_push Items.blockNumber (db w)
             (Items.newRow cfg from to ids values logObj ts)), items_reachable_sorted, Hw.
  - intros chain from to id logObj ts w Hw Hblock Hnew.
    destruct (EggFacts.egg_enrich_cases chain from to id logObj w)
      as [[Hnone _]|[[Hin _]|(ts' & Hsome & _ & ->)]]; [congruence|done|].
    replace ts' with ts by congruence. cbn [fst db].
    apply (sort_desc_push Egg.blockNumber (db w)
             (Egg.newRow chain from to id logObj ts)), egg_reachable_sorted, Hw.
Qed.

(** A transfer in block 200 arrives after the two of block 150 are stored:
    its row goes first. *)
Lemma X2_new_row_position_witness :
  let w := (Egg.handleLogs Scenario.egg_chain
              [Scenario.transfer 1; Scenario.transfer 2] Scenario.fresh).1 in
  let later := {| Egg.log_blockNumber := 200; Egg.transactionHash := "0xfff" |} in
  ∃ before after,
    db w = before ++ after
    ∧ db (Egg.enrichAndPersist Scenario.egg_chain "" "" 7 later w).1
        = before ++ Egg.newRow Scenario.egg_chain "" "" 7 later 1700000000 :: after
    ∧ before = [].
Proof.
  cbv zeta. destruct X2_new_row_position as [_ Hegg].
  destruct (Hegg Scenario.egg_chain "" "" 7%N
              {| Egg.log_blockNumber := 200; Egg.transactionHash := "0xfff" |} 1700000000
              (Egg.handleLogs Scenario.egg_chain
                 [Scenario.transfer 1; Scenario.transfer 2] Scenario.fresh).1)
    as (before & after & Hdb & Hnew & Hbefore & _).
  - apply egg_two_tokens_reachable.
  - reflexivity.
  - vm_compute. intros Hin. repeat (apply elem_of_cons in Hin as [Hin|Hin]; [discriminate|]).
    by apply elem_of_nil in Hin.
  - exists before, after. split_and!; [done..|].
    destruct before as [|b before]; [done|]. exfalso.
    apply Forall_cons in Hbefore as [Hb _].
    assert (b ∈ db (Egg.handleLogs Scenario.egg_chain
                      [Scenario.transfer 1; Scenario.transfer 2] Scenario.fresh).1) as Hin
      by (rewrite Hdb; left).
    vm_compute in Hin.
    repeat (apply elem_of_cons in Hin as [->|Hin]; [cbn in Hb; lia|]).
    by apply elem_of_nil in Hin.
Defined.

(** ** The store only grows *)

Lemma grows_refl {Row} (w : World Row) : grows w w.
Proof. unfold grows. done. Qed.

Lemma grows_trans {Row} (w1 w2 w3 : World Row) : grows w1 w2 → grows w2 w3 → grows w1 w3.
Proof. unfold grows. intros. by etrans. Qed.

Lemma push_sorted_grows {Row} (blockNumber : Row → Z) rows row :
  rows ⊆+ sort_desc blockNumber (rows ++ [row]).
Proof. rewrite sort_desc_Permutation. by apply submseteq_inserts_r. Qed.

Lemma items_querySlice_grows cfg chain s e :
  keeps grows (Items.querySlice cfg chain s e).
Proof.
  assert (∀ h, Items.decides cfg h → keeps grows (h chain)) as Hdec.
  { intros h [Hskip|(from & to & ids & values & logObj & Hcall)] w.
    - rewrite Hskip. apply grows_refl.
    - rewrite Hcall.
      destruct (ItemsFacts.items_enrich_cases cfg chain from to ids values logObj w)
        as [[_ ->]|[[_ ->]|(ts & _ & _ & ->)]]; [apply grows_refl..|].
      apply push_sorted_grows. }
  unfold Items.querySlice.
  apply keeps_bind; [apply grows_trans| |intros _].
  { intros w. unfold grows. cbn. done. }
  apply keeps_bind; [apply grows_trans | apply keeps_await, grows_refl |]. intros singleLogs.
  apply keeps_bind; [apply grows_trans | apply keeps_await, grows_refl |]. intros batchLogs.
  unfold Items.handleLogs. apply keeps_bind; [apply grows_trans| |intros _].
  - apply keeps_forEach; [apply grows_refl | apply grows_trans |]. intros ev.
    apply (Hdec (λ c, Items.handleTransferSingle cfg c ev)), ItemsHandlers.single_decides.
  - apply keeps_forEach; [apply grows_refl | apply grows_trans |]. intros ev.
    apply (Hdec (λ c, Items.handleTransferBatch cfg c ev)), ItemsHandlers.batch_decides.
Qed.

Lemma egg_querySlice_grows chain filter s e :
  keeps grows (Egg.querySlice chain filter s e).
Proof.
  unfold Egg.querySlice, queryFilter.
  apply keeps_bind; [apply grows_trans| |intros evs].
  - apply keeps_bind; [apply grows_trans| |intros _; apply keeps_await, grows_refl].
    intros w. unfold grows. cbn. done.
  - unfold Egg.handleLogs. apply keeps_forEach; [apply grows_refl | apply grows_trans |].
    intros ev w.
    destruct (EggFacts.egg_enrich_cases chain (toLowerCase (orEmpty (Egg.ev_from ev)))
                (toLowerCase (orEmpty (Egg.ev_to ev))) (Egg.ev_tokenId ev) (Egg.ev_log ev) w)
      as [[_ ->]|[[_ ->]|(ts & _ & _ & ->)]]; [apply grows_refl..|].
    apply push_sorted_grows.
Qed.

(** X3: the store is append-only. Whatever a slice scan, a backfill or a
    tick of either monitor does and however it ends, every row stored
    before is still stored after, unchanged and as often, so the number of
    rows never goes down. *)
Theorem X3_store_append_only cfg fuel :
  (∀ chain (w : World Items.Row),
     (∀ s e, db w ⊆+ db (Items.querySlice cfg chain s e w).1)
     ∧ db w ⊆+ db (Items.scanHistorical cfg chain fuel w).1
     ∧ db w ⊆+ db (Items.tick cfg chain fuel w).1
     ∧ (length (db w) ≤ length (db (Items.tick cfg chain fuel w).1))%nat)
  ∧ (∀ chain (w : World Egg.Row),
       (∀ s e, db w ⊆+ db (Egg.querySlice chain (Egg.filter cfg) s e w).1)
       ∧ db w ⊆+ db (Egg.scanHistorical cfg chain fuel w).1
       ∧ db w ⊆+ db (Egg.tick cfg chain fuel w).1
       ∧ (length (db w) ≤ length (db (Egg.tick cfg chain fuel w).1))%nat).
Proof.
  assert (∀ Row h (w : World Row),
            grows w (mkWorld (db w) (Some h) (lastProcessed w) (queries w))) as Hsave
    by (intros Row h w; unfold grows; cbn; done).
  assert (∀ Row h, keeps (grows (Row:=Row)) (set_lastProcessed h)) as Hset
    by (intros Row h w; unfold grows; cbn; done).
  split; intros chain w.
  - assert (db w ⊆+ db (Items.tick cfg chain fuel w).1) as Htick.
    { apply (tick_keeps grows grows_refl grows_trans); [|apply Hsave|apply Hset].
      apply items_querySlice_grows. }
    split_and!; [|  |done|by apply submseteq_length].
    + intros s e. apply items_querySlice_grows.
    + apply (scanHistorical_keeps grows grows_refl grows_trans); [|apply Hsave].
      apply items_querySlice_grows.
  - assert (db w ⊆+ db (Egg.tick cfg chain fuel w).1) as Htick.
    { apply (tick_keeps grows grows_refl grows_trans); [|apply Hsave|apply Hset].
      intros s e. apply egg_querySlice_grows. }
    split_and!; [|  |done|by apply submseteq_length].
    + intros s e. apply egg_querySlice_grows.
    + apply (scanHistorical_keeps grows grows_refl grows_trans); [|apply Hsave].
      intros s e. apply egg_querySlice_grows.
Qed.

(** ** What the rows of the ERC-1155 monitor hold *)

Module ItemsRows.
Import Items ItemsFacts ItemsHandlers.

Lemma item_names : map_Forall (λ _ name, name ≠ "" ∧ name ≠ "Unknown") ITEM_TYPES.
Proof. apply (bool_decide_unpack _). vm_compute. reflexivity. Qed.

(** Every watched identifier has a name. *)
Lemma itemTypeOf_watched key : key ∈ WATCH_TOKEN_IDS → itemTypeOf key ≠ "Unknown".
Proof.
  unfold WATCH_TOKEN_IDS. rewrite elem_of_dom. intros [name Hname].
  unfold itemTypeOf. rewrite Hname.
  destruct (item_names key name Hname) as [Hne Hunknown].
  by rewrite bool_decide_eq_false_2.
Qed.

Lemma foldl_add (values : list N) : ∀ start,
  foldl (λ sum amt, sum + amt)%N start values = (start + foldr N.add 0 values)%N.
Proof.
  induction values as [|v values IH]; intros start; cbn [foldl foldr]; [lia|].
  rewrite IH. lia.
Qed.

Lemma newRow_ok cfg from (entries : list (N * N)) logObj ts :
  entries ≠ [] →
  Forall (λ p, p.1 ≠ 0%N ∧ p.2 ≠ 0%N ∧ toString p.1 ∈ WATCH_TOKEN_IDS) entries →
  items_row_ok cfg (newRow cfg from (WATCH_WALLET cfg) entries.*1 entries.*2 logObj ts).
Proof.
  intros Hne Hall. split; [done|]. split; [done|].
  exists entries. split_and!; [done..| |].
  - cbn [newRow totalAmount]. by rewrite foldl_add, N.add_0_l.
  - cbn [newRow itemTypes]. rewrite <- list_fmap_compose.
    intros (p & Hp & Hin)%list_elem_of_fmap.
    rewrite Forall_forall in Hall. destruct (Hall p Hin) as (_ & _ & Hwatched).
    by apply itemTypeOf_watched in Hwatched.
Qed.

(** [enrichAndPersist] with a row that is in order keeps the rows in order. *)
Lemma enrich_rows_ok cfg chain from (entries : list (N * N)) logObj (w : World Row) :
  entries ≠ [] →
  Forall (λ p, p.1 ≠ 0%N ∧ p.2 ≠ 0%N ∧ toString p.1 ∈ WATCH_TOKEN_IDS) entries →
  Forall (items_row_ok cfg) (db w) →
  Forall (items_row_ok cfg)
    (db (enrichAndPersist cfg chain from (WATCH_WALLET cfg) entries.*1 entries.*2 logObj w).1).
Proof.
  intros Hne Hall Hdb.
  destruct (items_enrich_cases cfg chain from (WATCH_WALLET cfg) entries.*1 entries.*2 logObj w)
    as [[_ ->]|[[_ ->]|(ts & _ & _ & ->)]]; [done..|].
  cbn [fst db]. rewrite sort_desc_Permutation. apply Forall_app. split; [done|].
  constructor; [|constructor]. by apply newRow_ok.
Qed.

Lemma watched_entries_all ids values :
  Forall (λ p, p.1 ≠ 0%N ∧ p.2 ≠ 0%N ∧ toString p.1 ∈ WATCH_TOKEN_IDS)
    (watched_entries ids values).
Proof.
  apply Forall_forall. intros p. unfold watched_entries.
  rewrite list_elem_of_filter. by intros [? _].
Qed.

Lemma single_rows_ok cfg chain ev (w : World Row) :
  Forall (items_row_ok cfg) (db w) →
  Forall (items_row_ok cfg) (db (handleTransferSingle cfg chain ev w).1).
Proof.
  intros Hdb. unfold handleTransferSingle.
  destruct (single_id ev) as [id|], (single_value ev) as [value|]; [|done..].
  unfold falsy.
  destruct (decide (id = 0%N)) as [->|Hid]; [done|].
  rewrite (bool_decide_eq_false_2 (id = 0%N)) by done.
  destruct (decide (value = 0%N)) as [->|Hvalue]; [done|].
  rewrite (bool_decide_eq_false_2 (value = 0%N)) by done. cbn [orb].
  case_bool_decide as Hto; [done|]. case_bool_decide as Hwatched; [done|].
  try apply dec_stable in Hto. try apply dec_stable in Hwatched. rewrite Hto.
  by apply (enrich_rows_ok cfg chain _ [(id, value)]); [|repeat constructor|].
Qed.

Lemma batch_rows_ok cfg chain ev (w : World Row) :
  Forall (items_row_ok cfg) (db w) →
  Forall (items_row_ok cfg) (db (handleTransferBatch cfg chain ev w).1).
Proof.
  intros Hdb. unfold handleTransferBatch.
  destruct (batch_ids ev) as [ids|], (batch_values ev) as [values|]; [|done..].
  case_bool_decide as Hto; [done|]. try apply dec_stable in Hto.
  rewrite filterBatch_watched, drop_0, !app_nil_l.
  destruct (watched_entries ids values) as [|p kept] eqn:Hkept; [done|].
  rewrite bool_decide_eq_true_2 by (cbn; lia). rewrite Hto.
  apply (enrich_rows_ok cfg chain _ (p :: kept)); [done| |done].
  rewrite <- Hkept. apply watched_entries_all.
Qed.

Lemma querySlice_rows_ok cfg chain s e :
  keeps (stays (λ w, Forall (items_row_ok cfg) (db w))) (querySlice cfg chain s e).
Proof.
  unfold querySlice.
  apply keeps_bind; [apply stays_trans| |intros _].
  { intros w Hw. exact Hw. }
  apply keeps_bind; [apply stays_trans | apply keeps_await, stays_refl |]. intros singleLogs.
  apply keeps_bind; [apply stays_trans | apply keeps_await, stays_refl |]. intros batchLogs.
  unfold handleLogs. apply keeps_bind; [apply stays_trans| |intros _].
  - apply keeps_forEach; [apply stays_refl | apply stays_trans |]. intros ev w Hw.
    by apply single_rows_ok.
  - apply keeps_forEach; [apply stays_refl | apply stays_trans |]. intros ev w Hw.
    by apply batch_rows_ok.
Qed.

End ItemsRows.

(** X4: every row the ERC-1155 monitor stores is for the watched wallet and
    the configured contract, holds at least one entry, only watched
    identifiers and no zero identifier or amount, has its identifier,
    amount and name lists in step with no name "Unknown", and has as total
    the sum of its amounts: a slice scan, a backfill and a tick keep a
    store of such rows a store of such rows. *)
Theorem X4_items_rows_in_order cfg chain fuel (w : World Items.Row)
    (Hrows : Forall (items_row_ok cfg) (db w)) :
  (∀ s e, Forall (items_row_ok cfg) (db (Items.querySlice cfg chain s e w).1))
  ∧ Forall (items_row_ok cfg) (db (Items.scanHistorical cfg chain fuel w).1)
  ∧ Forall (items_row_ok cfg) (db (Items.tick cfg chain fuel w).1).
Proof.
  split_and!.
  - intros s e. by apply ItemsRows.querySlice_rows_ok.
  - revert Hrows.
    apply (scanHistorical_keeps (stays (λ w, Forall (items_row_ok cfg) (db w)))
             (stays_refl _) (stays_trans _)).
    + apply ItemsRows.querySlice_rows_ok.
    + intros h w0 Hw0. exact Hw0.
  - revert Hrows.
    apply (tick_keeps (stays (λ w, Forall (items_row_ok cfg) (db w)))
             (stays_refl _) (stays_trans _)).
    + apply ItemsRows.querySlice_rows_ok.
    + intros h w0 Hw0. exact Hw0.
    + intros h w0 Hw0. exact Hw0.
Qed.

(** The tick of the scenario from a fresh store: the row it stores for the
    batch is in order. *)
Lemma X4_items_rows_in_order_witness :
  length (db (Items.tick Scenario.cfg Scenario.items_chain 10 Scenario.at100).1) = 1%nat
  ∧ Forall (items_row_ok Scenario.cfg)
      (db (Items.tick Scenario.cfg Scenario.items_chain 10 Scenario.at100).1).
Proof.
  split; [vm_compute; reflexivity|].
  apply (X4_items_rows_in_order Scenario.cfg Scenario.items_chain 10 Scenario.at100).
  constructor.
Defined.

(** ** A single transfer, end to end *)

Lemma filter_none {A} (P : A → Prop) `{∀ x, Decision (P x)} (l : list A) :
  Forall (λ x, ¬ P x) l → filter P l = [].
Proof.
  induction 1 as [|x l Hx _ IH]; [done|]. by rewrite filter_cons, decide_False.
Qed.

Lemma items_single_handled cfg chain ev id value (w : World Items.Row) :
  Items.single_id ev = Some id → Items.single_value ev = Some value →
  id ≠ 0%N → value ≠ 0%N → toString id ∈ Items.WATCH_TOKEN_IDS →
  same_address (orEmpty (Items.single_to ev)) (env_WATCH_WALLET cfg) →
  Items.handleTransferSingle cfg chain ev w =
    Items.enrichAndPersist cfg chain (toLowerCase (orEmpty (Items.single_from ev)))
      (WATCH_WALLET cfg) [id] [value] (Items.single_log ev) w.
Proof.
  intros Hid Hvalue Hid0 Hvalue0 Hwatched Hto.
  unfold Items.handleTransferSingle, Items.falsy. rewrite Hid, Hvalue.
  rewrite (bool_decide_eq_false_2 (id = 0%N)), (bool_decide_eq_false_2 (value = 0%N)) by done.
  cbn [orb]. rewrite bool_decide_eq_false_2 by (intros Hne; by apply Hne).
  rewrite bool_decide_eq_false_2 by (intros Hout; by apply Hout).
  by rewrite Hto.
Qed.

(** X5: when the slice the ERC-1155 monitor scans holds one log, a single
    transfer to the watched wallet of a watched identifier in an amount
    that is not zero, in a transaction not stored yet, and the block can be
    looked up, the scan goes through and the store gains exactly one row:
    it carries the transaction's hash and block, the one identifier, and as
    amount and as total the event's amount; and it is the only row with
    that hash. *)
Theorem X5_single_transfer_recorded cfg chain s e ev id value ts (w : World Items.Row)
    (Hsingle : Items.logsSingle chain s e = Some [ev])
    (Hbatch : Items.logsBatch chain s e = Some [])
    (Hid : Items.single_id ev = Some id) (Hvalue : Items.single_value ev = Some value)
    (Hid0 : id ≠ 0%N) (Hvalue0 : value ≠ 0%N)
    (Hwatched : toString id ∈ Items.WATCH_TOKEN_IDS)
    (Hto : same_address (orEmpty (Items.single_to ev)) (env_WATCH_WALLET cfg))
    (Hblock : Items.getBlock chain (Items.log_blockNumber (Items.single_log ev)) = Some ts)
    (Hnew : toLowerCase (Items.transactionHash (Items.single_log ev)) ∉ Items.hashes (db w)) :
  ∃ row w',
    Items.querySlice cfg chain s e w = (w', Ok ())
    ∧ db w' ≡ₚ row :: db w
    ∧ Items.txHash row = Items.transactionHash (Items.single_log ev)
    ∧ Items.blockNumber row = Items.log_blockNumber (Items.single_log ev)
    ∧ Items.tokenIds row = [toString id]
    ∧ Items.amounts row = [toString value]
    ∧ Items.totalAmount row = toString value
    ∧ filter (λ r, toLowerCase (Items.txHash r)
                   = toLowerCase (Items.transactionHash (Items.single_log ev))) (db w')
      = [row].
Proof.
  set (wq := mkWorld (db w) (progress w) (lastProcessed w) (queries w ++ items_issued s e)).
  assert (Items.querySlice cfg chain s e w
          = Items.enrichAndPersist cfg chain (toLowerCase (orEmpty (Items.single_from ev)))
              (WATCH_WALLET cfg) [id] [value] (Items.single_log ev) wq) as ->.
  { subst wq. unfold items_issued, Items.querySlice. rewrite bind_unfold. cbn [modify].
    rewrite bind_unfold, Hsingle. cbn [await ret]. rewrite bind_unfold, Hbatch. cbn [await ret].
    unfold Items.handleLogs. rewrite bind_unfold. cbn [forEach]. unfold bind at 1.
    rewrite (items_single_handled cfg chain ev id value) by done.
    by destruct (Items.enrichAndPersist _ _ _ _ _ _ _ _) as [w1 [[]|?|]]. }
  rewrite (ItemsFacts.items_enrich_absent cfg chain _ _ _ _ _ wq ts Hblock Hnew).
  exists (Items.newRow cfg (toLowerCase (orEmpty (Items.single_from ev))) (WATCH_WALLET cfg)
            [id] [value] (Items.single_log ev) ts).
  eexists. split; [reflexivity|]. cbn [db].
  split_and!; [|reflexivity..|].
  - rewrite sort_desc_Permutation. by rewrite <- Permutation_cons_append.
  - apply Permutation_singleton_r. rewrite sort_desc_Permutation, filter_app.
    rewrite filter_none.
    + rewrite filter_cons_True by reflexivity. done.
    + apply Forall_forall. intros r Hr Heq. apply Hnew. unfold Items.hashes.
      apply list_elem_of_fmap. exists r. done.
Qed.

(** The slice 101..201 of a chain that holds four of item 5 for the watched
    wallet in block 150, scanned into a fresh store. *)
Lemma X5_single_transfer_recorded_witness :
  ∃ row, db (Items.querySlice Scenario.cfg items_chain_single 101 201 Scenario.fresh).1 = [row]
       ∧ Items.txHash row = "0x789" ∧ Items.totalAmount row = "4".
Proof.
  destruct (X5_single_transfer_recorded Scenario.cfg items_chain_single 101 201
              single_five 5 4 1700000000 Scenario.fresh)
    as (row & w' & -> & Hdb & Hhash & _ & _ & _ & Htotal & _);
    [reflexivity|reflexivity|reflexivity|reflexivity|done|done
    |apply ItemsFilter.watched_5|reflexivity|reflexivity|apply not_elem_of_nil|].
  exists row. split_and!; [|done..].
  cbn [fst]. by apply Permutation_singleton_r.
Defined.

(** ** The backfill and the tick, run through or stopped

    for any [querySlice] that leaves the checkpoint alone and makes the
    queries [issued s e] for the range from [s] to [e]. *)

Section RunFacts.
Context {Row : Type}.
Variable cfg : Config.
Variable querySlice : Z → Z → Run (World Row) unit.
Variable writeProgress : Z → option unit.
Variable issued : Z → Z → list Query.
Hypothesis Hframe : slice_frame querySlice issued.

Lemma backfillLoop_done fuel : ∀ start latest (w w' : World Row),
  0 ≤ CHUNK cfg →
  backfillLoop cfg querySlice writeProgress fuel start latest w = (w', Ok ()) →
  lastProcessed w' = lastProcessed w
  ∧ (start ≤ latest → progress w' = Some latest)
  ∧ (latest < start → w' = w).
Proof.
  induction fuel as [|fuel IH]; intros start latest w w' HC; cbn [backfillLoop].
  - case_bool_decide; [discriminate|]. intros [= <-]. split_and!; [done|lia|done].
  - case_bool_decide as Hle; [|intros [= <-]; split_and!; [done|lia|done]].
    rewrite bind_unfold. destruct (Hframe start (Z.min latest (start + CHUNK cfg)) w)
      as (Hp & Hl & _).
    destruct (querySlice _ _ w) as [w1 [[]|e|]]; [|discriminate..].
    rewrite bind_unfold, saveProgress_cases.
    destruct (writeProgress _) as [[]|]; [|discriminate]. intros Hrun.
    apply IH in Hrun as (Hl' & Hdone & Hnone); [|done]. cbn [fst lastProcessed] in *.
    split_and!; [congruence| |lia]. intros _.
    destruct (decide (start + (CHUNK cfg + 1) ≤ latest)) as [Hmore|Hlast]; [by apply Hdone|].
    rewrite Hnone by lia. cbn [progress]. f_equal. lia.
Qed.


Lemma backfillLoop_diverges fuel : ∀ start latest (w : World Row),
  CHUNK cfg < 0 → start ≤ latest →
  (backfillLoop cfg querySlice writeProgress fuel start latest w).2 ≠ Ok ().
Proof.
  induction fuel as [|fuel IH]; intros start latest w HC Hle; cbn [backfillLoop];
    rewrite bool_decide_eq_true_2 by done; [done|].
  rewrite bind_unfold. destruct (querySlice _ _ w) as [w1 [[]|e|]]; [|done..].
  rewrite bind_unfold, saveProgress_cases.
  destruct (writeProgress _) as [[]|]; [|done]. apply IH; [done|lia].
Qed.

Lemma pollLoop_diverges fuel : ∀ cursor safeHead (w : World Row),
  CHUNK cfg < 0 → cursor ≤ safeHead →
  (pollLoop cfg querySlice fuel cursor safeHead w).2 ≠ Ok ().
Proof.
  induction fuel as [|fuel IH]; intros cursor safeHead w HC Hle; cbn [pollLoop];
    rewrite bool_decide_eq_true_2 by done; [done|].
  rewrite bind_unfold. destruct (querySlice _ _ w) as [w1 [[]|e|]]; [|done..].
  apply IH; [done|lia].
Qed.

Lemma pollLoop_frame fuel : ∀ cursor safeHead (w : World Row),
  progress (pollLoop cfg querySlice fuel cursor safeHead w).1 = progress w
  ∧ lastProcessed (pollLoop cfg querySlice fuel cursor safeHead w).1 = lastProcessed w.
Proof.
  induction fuel as [|fuel IH]; intros cursor safeHead w; cbn [pollLoop].
  - by case_bool_decide.
  - case_bool_decide; [|done]. rewrite bind_unfold.
    destruct (Hframe cursor (Z.min (cursor + CHUNK cfg) safeHead) w) as (Hp & Hl & _).
    destruct (querySlice _ _ w) as [w1 [[]|e|]]; cbn [fst] in *; [|done..].
    destruct (IH (Z.min (cursor + CHUNK cfg) safeHead + 1) safeHead w1). split; congruence.
Qed.

(** With every slice and every write of the checkpoint going through and a
    width that is not negative, the loops end. *)
Hypothesis Hok : ∀ s e w, (querySlice s e w).2 = Ok ().
Hypothesis Hwrite : ∀ h, writeProgress h = Some ().

Lemma backfillLoop_ends fuel : ∀ start latest (w : World Row),
  0 ≤ CHUNK cfg → (enough start latest ≤ fuel)%nat →
  (backfillLoop cfg querySlice writeProgress fuel start latest w).2 = Ok ().
Proof.
  unfold enough. induction fuel as [|fuel IH]; intros start latest w HC Hfuel;
    cbn [backfillLoop].
  - rewrite bool_decide_eq_false_2 by lia. done.
  - case_bool_decide; [|done]. rewrite bind_unfold.
    pose proof (Hok start (Z.min latest (start + CHUNK cfg)) w) as Hslice.
    destruct (querySlice _ _ w) as [w1 r]. cbn in Hslice. subst r.
    rewrite bind_unfold, saveProgress_cases, Hwrite. apply IH; [done|lia].
Qed.

Lemma pollLoop_ends fuel : ∀ cursor safeHead (w : World Row),
  0 ≤ CHUNK cfg → (enough cursor safeHead ≤ fuel)%nat →
  (pollLoop cfg querySlice fuel cursor safeHead w).2 = Ok ().
Proof.
  unfold enough. induction fuel as [|fuel IH]; intros cursor safeHead w HC Hfuel;
    cbn [pollLoop].
  - rewrite bool_decide_eq_false_2 by lia. done.
  - case_bool_decide; [|done]. rewrite bind_unfold.
    pose proof (Hok cursor (Z.min (cursor + CHUNK cfg) safeHead) w) as Hslice.
    destruct (querySlice _ _ w) as [w1 r]. cbn in Hslice. subst r.
    apply IH; [done|lia].
Qed.

End RunFacts.

Lemma forEach_ok {W A} (l : list A) (body : A → Run W unit) :
  (∀ x w, (body x w).2 = Ok ()) → ∀ w, (forEach l body w).2 = Ok ().
Proof.
  intros Hbody. induction l as [|x l IH]; intros w; cbn [forEach]; [done|].
  unfold bind. specialize (Hbody x w). destruct (body x w) as [w1 r]. cbn in Hbody.
  subst r. apply IH.
Qed.

Lemma items_slice_frame cfg chain :
  slice_frame (Items.querySlice cfg chain) items_issued.
Proof.
  intros s e w.
  destruct (ItemsHandlers.items_querySlice_scans cfg chain s e w) as (Hp & Hl & _).
  split_and!; [done..|]. apply items_querySlice_issues.
Qed.

Lemma egg_slice_frame cfg chain :
  slice_frame (Egg.querySlice chain (Egg.filter cfg)) (egg_issued cfg).
Proof.
  intros s e w.
  destruct (EggFacts.egg_querySlice_scans chain (Egg.filter cfg) s e w) as (Hp & Hl & _).
  split_and!; [done..|]. apply egg_querySlice_issues.
Qed.

Lemma items_healthy_slice cfg chain s e (w : World Items.Row) :
  items_healthy chain → (Items.querySlice cfg chain s e w).2 = Ok ().
Proof.
  intros (Hsingle & Hbatch & Hblock & _).
  assert (∀ h, Items.decides cfg h → ∀ w0, (h chain w0).2 = Ok ()) as Hdec.
  { intros h [Hskip|(from & to & ids & values & logObj & Hcall)] w0.
    - by rewrite Hskip.
    - rewrite Hcall.
      destruct (ItemsFacts.items_enrich_cases cfg chain from to ids values logObj w0)
        as [[Hnone _]|[[_ ->]|(ts & _ & _ & ->)]]; [|done..].
      destruct (Hblock (Items.log_blockNumber logObj)) as [ts Hts]. congruence. }
  unfold Items.querySlice. rewrite bind_unfold. cbn [modify].
  destruct (Hsingle s e) as [singleLogs ->]. rewrite bind_unfold. cbn [await ret].
  destruct (Hbatch s e) as [batchLogs ->]. rewrite bind_unfold. cbn [await ret].
  unfold Items.handleLogs. rewrite bind_unfold.
  match goal with |- context [forEach singleLogs ?b ?w0] =>
    pose proof (forEach_ok singleLogs b
      (λ ev w1, Hdec (λ c, Items.handleTransferSingle cfg c ev)
                  (ItemsHandlers.single_decides cfg ev) w1) w0) as H1;
    destruct (forEach singleLogs b w0) as [w1 r1] end.
  cbn in H1. subst r1.
  apply (forEach_ok batchLogs _
    (λ ev w2, Hdec (λ c, Items.handleTransferBatch cfg c ev)
                (ItemsHandlers.batch_decides cfg ev) w2)).
Qed.

Lemma egg_healthy_slice chain filter s e (w : World Egg.Row) :
  egg_healthy chain → (Egg.querySlice chain filter s e w).2 = Ok ().
Proof.
  intros (Hlogs & Hblock & _).
  unfold Egg.querySlice, queryFilter. rewrite !bind_unfold. cbn [modify].
  destruct (Hlogs filter s e) as [evs ->]. cbn [await ret].
  unfold Egg.handleLogs. apply forEach_ok. intros ev w0.
  destruct (EggFacts.egg_enrich_cases chain (toLowerCase (orEmpty (Egg.ev_from ev)))
              (toLowerCase (orEmpty (Egg.ev_to ev))) (Egg.ev_tokenId ev) (Egg.ev_log ev) w0)
    as [[Hnone _]|[[_ ->]|(ts & _ & _ & ->)]]; [|done..].
  destruct (Hblock (Egg.log_blockNumber (Egg.ev_log ev))) as [ts Hts]. congruence.
Qed.

(** The ranges of the scheduler cover their interval whenever they are
    defined, whatever the fuel. *)
Lemma chunks_cover fuel start latest CHUNK rs :
  0 ≤ CHUNK → chunks fuel start latest CHUNK = Some rs →
  concat (heights <$> rs) = seqZ start (latest - start + 1)
  ∧ Forall (λ r, start ≤ range_start r ∧ range_end r ≤ latest) rs
  ∧ (start ≤ latest → range_end <$> last rs = Some latest).
Proof.
  intros HC Hrs.
  destruct (chunks_spec CHUNK latest (fuel + enough start latest) HC start)
    as (rs' & Hrs' & Hcov & Hall & Hhead & Hcont & Hlast); [lia|].
  rewrite (chunks_more_fuel _ _ _ _ _ _ Hrs) in Hrs'. injection Hrs' as <-.
  split_and!; [done| |].
  - clear Hrs Hcov Hlast. revert start Hhead Hcont.
    induction Hall as [|r rs (Hr1 & Hr2 & _) Hall IH]; intros start Hhead Hcont; [done|].
    pose proof (Hhead r eq_refl) as Hs. constructor; [lia|].
    destruct rs as [|r2 rs]; [done|]. destruct Hcont as [Hnext Hcont].
    eapply Forall_impl; [apply (IH (range_start r2)); [by intros ? [= <-]|done]|].
    cbn. intros q. lia.
  - intros Hle. specialize (Hlast Hle). by destruct (last rs).
Qed.

(** The backfill of a monitor whose slices all go through. *)
Section ScanFacts.
Context {Row : Type}.
Variable cfg : Config.
Variable querySlice : Z → Z → Run (World Row) unit.
Variable writeProgress : Z → option unit.
Variable issued : Z → Z → list Query.
Hypothesis Hframe : slice_frame querySlice issued.

Lemma scanHistorical_done latest fuel (w w' : World Row) result :
  0 ≤ CHUNK cfg →
  scanHistorical cfg (Some latest) querySlice writeProgress fuel w = (w', Ok result) →
  let start := ComputeStart (progress w) (CONFIRMATIONS cfg) (FROM_BLOCK cfg) latest
                 (INIT_LOOKBACK cfg) in
  result = latest ∧ lastProcessed w' = lastProcessed w
  ∧ (start ≤ latest → progress w' = Some latest)
  ∧ (latest < start → w' = w)
  ∧ ∃ rs, chunks fuel start latest (CHUNK cfg) = Some rs
        ∧ queries w' = queries w ++ issued_for issued rs.
Proof.
  intros HC. rewrite scanHistorical_from_ComputeStart, bind_unfold.
  destruct (backfillLoop cfg querySlice writeProgress fuel _ latest w)
    as [w1 [[]|e|]] eqn:Hloop; [|discriminate..].
  intros [= <- <-]. cbv zeta.
  destruct (backfillLoop_done cfg querySlice writeProgress issued Hframe fuel _ _ _ _ HC Hloop)
    as (Hl & Hdone & Hnone).
  split_and!; [done..|].
  apply (backfillLoop_follows_chunks cfg querySlice writeProgress issued) in Hloop; [done|].
  intros s e w0. apply Hframe.
Qed.


Lemma scanHistorical_ends latest fuel (w : World Row) :
  (∀ s e w0, (querySlice s e w0).2 = Ok ()) →
  (∀ h, writeProgress h = Some ()) →
  0 ≤ CHUNK cfg →
  (enough (ComputeStart (progress w) (CONFIRMATIONS cfg) (FROM_BLOCK cfg) latest
             (INIT_LOOKBACK cfg)) latest ≤ fuel)%nat →
  (scanHistorical cfg (Some latest) querySlice writeProgress fuel w).2 = Ok latest.
Proof.
  intros Hok Hwrite HC Hfuel. rewrite scanHistorical_from_ComputeStart, bind_unfold.
  pose proof (backfillLoop_ends cfg querySlice writeProgress Hok Hwrite fuel _ latest w
                HC Hfuel) as Hends.
  destruct (backfillLoop cfg querySlice writeProgress fuel _ latest w) as [w1 r].
  cbn in Hends. by subst r.
Qed.

End ScanFacts.

(** X6: with a range width that is not negative, a chain client whose
    calls all succeed and a checkpoint file that can be written, the
    backfill of either monitor ends within
    head - start + 1 iterations and returns the head; it has queried
    exactly the ranges of the scheduler from its start to the head, in
    order; it leaves [lastProcessed] alone; and the checkpoint file holds
    the head when the start was at or below it, and is untouched (with the
    rest of the world) when the start was above it. *)
Theorem X6_backfill_completes cfg latest fuel (HC : 0 ≤ CHUNK cfg) :
  (∀ chain (w : World Items.Row),
     items_healthy chain → Items.getBlockNumber chain = Some latest →
     (enough (backfill_start cfg w latest) latest ≤ fuel)%nat →
     ∃ w' rs,
       Items.scanHistorical cfg chain fuel w = (w', Ok latest)
       ∧ chunks fuel (backfill_start cfg w latest) latest (CHUNK cfg) = Some rs
       ∧ queries w' = queries w ++ issued_for items_issued rs
       ∧ lastProcessed w' = lastProcessed w
       ∧ (backfill_start cfg w latest ≤ latest → progress w' = Some latest)
       ∧ (latest < backfill_start cfg w latest → w' = w))
  ∧ (∀ chain (w : World Egg.Row),
       egg_healthy chain → Egg.getBlockNumber chain = Some latest →
       (enough (backfill_start cfg w latest) latest ≤ fuel)%nat →
       ∃ w' rs,
         Egg.scanHistorical cfg chain fuel w = (w', Ok latest)
         ∧ chunks fuel (backfill_start cfg w latest) latest (CHUNK cfg) = Some rs
         ∧ queries w' = queries w ++ issued_for (egg_issued cfg) rs
         ∧ lastProcessed w' = lastProcessed w
         ∧ (backfill_start cfg w latest ≤ latest → progress w' = Some latest)
         ∧ (latest < backfill_start cfg w latest → w' = w)).
Proof.
  split; intros chain w Hhealthy Hhead Hfuel.
  - pose proof (scanHistorical_ends cfg (Items.querySlice cfg chain)
      (Items.writeProgress chain) latest fuel w
      (λ s e w0, items_healthy_slice cfg chain s e w0 Hhealthy)
      (proj2 (proj2 (proj2 Hhealthy))) HC Hfuel) as Hends.
    unfold Items.scanHistorical. rewrite Hhead.
    destruct (scanHistorical cfg (Some latest) _ _ fuel w) as [w' r] eqn:Hrun.
    cbn in Hends. subst r.
    destruct (scanHistorical_done cfg _ _ items_issued (items_slice_frame cfg chain)
                latest fuel w w' latest HC Hrun) as (_ & Hl & Hdone & Hnone & rs & Hrs & Hq).
    by exists w', rs.
  - pose proof (scanHistorical_ends cfg (Egg.querySlice chain (Egg.filter cfg))
      (Egg.writeProgress chain) latest fuel w
      (λ s e w0, egg_healthy_slice chain _ s e w0 Hhealthy)
      (proj2 (proj2 Hhealthy)) HC Hfuel) as Hends.
    unfold Egg.scanHistorical. rewrite Hhead.
    destruct (scanHistorical cfg (Some latest) _ _ fuel w) as [w' r] eqn:Hrun.
    cbn in Hends. subst r.
    destruct (scanHistorical_done cfg _ _ (egg_issued cfg) (egg_slice_frame cfg chain)
                latest fuel w w' latest HC Hrun) as (_ & Hl & Hdone & Hnone & rs & Hrs & Hq).
    by exists w', rs.
Qed.

Lemma scenario_egg_healthy : egg_healthy Scenario.egg_chain.
Proof.
  split_and!; [|by eexists|done]. intros filter s e. cbn. case_bool_decide; by eexists.
Qed.

Lemma scenario_items_healthy : items_healthy Scenario.items_chain.
Proof.
  split_and!; [by eexists| |by eexists|done].
  intros s e. cbn. case_bool_decide; by eexists.
Qed.

(** The backfill of the scenario, from no checkpoint to the head at 252. *)
Lemma X6_backfill_completes_witness :
  ∃ w', Egg.scanHistorical Scenario.cfg Scenario.egg_chain 253 Scenario.fresh = (w', Ok 252)
      ∧ progress w' = Some 252
      ∧ (λ q, (q_from q, q_to q)) <$> queries w' = [(0, 100); (101, 201); (202, 252)].
Proof.
  destruct (X6_backfill_completes Scenario.cfg 252 253 ltac:(by cbn)) as [_ Hegg].
  destruct (Hegg Scenario.egg_chain Scenario.fresh scenario_egg_healthy eq_refl)
    as (w' & rs & Hrun & Hrs & Hq & _ & Hdone & _); [vm_compute; lia|].
  exists w'. split_and!; [done|apply Hdone; vm_compute; discriminate|].
  vm_compute in Hrs. injection Hrs as <-. rewrite Hq. reflexivity.
Defined.



Lemma tick_stuck {Row} cfg head querySlice writeProgress issued fuel (w : World Row) :
  slice_frame querySlice issued → CHUNK cfg < 0 →
  lastProcessed (tick cfg head querySlice writeProgress fuel w).1 = lastProcessed w
  ∧ progress (tick cfg head querySlice writeProgress fuel w).1 = progress w.
Proof.
  intros Hframe HC. unfold tick, tryCatch, tickBody.
  destruct head as [H|]; cbn [await ret throw]; [|done].
  rewrite bind_unfold. cbn [ret]. rewrite bind_unfold. cbn [gets].
  case_bool_decide as Hsafe; [done|]. rewrite bind_unfold.
  pose proof (pollLoop_diverges cfg querySlice fuel (lastProcessed w + 1)
                (H - CONFIRMATIONS cfg) w HC ltac:(lia)) as Hnever.
  destruct (pollLoop_frame cfg querySlice issued Hframe fuel (lastProcessed w + 1)
              (H - CONFIRMATIONS cfg) w) as [Hp Hl].
  destruct (pollLoop cfg querySlice fuel _ _ w) as [w1 [[]|e|]]; done.
Qed.

(** X8: with a negative range width, the backfill of either monitor never
    completes over a start at or below the head, however much fuel it is
    given (its loop variable does not advance), and no tick ever advances
    [lastProcessed] or the checkpoint file. *)
Theorem X8_negative_chunk cfg fuel (HC : CHUNK cfg < 0) :
  (∀ chain (w : World Items.Row) latest result,
     Items.getBlockNumber chain = Some latest → backfill_start cfg w latest ≤ latest →
     (Items.scanHistorical cfg chain fuel w).2 ≠ Ok result)
  ∧ (∀ chain (w : World Egg.Row) latest result,
       Egg.getBlockNumber chain = Some latest → backfill_start cfg w latest ≤ latest →
       (Egg.scanHistorical cfg chain fuel w).2 ≠ Ok result)
  ∧ (∀ chain (w : World Items.Row),
       lastProcessed (Items.tick cfg chain fuel w).1 = lastProcessed w
       ∧ progress (Items.tick cfg chain fuel w).1 = progress w)
  ∧ (∀ chain (w : World Egg.Row),
       lastProcessed (Egg.tick cfg chain fuel w).1 = lastProcessed w
       ∧ progress (Egg.tick cfg chain fuel w).1 = progress w).
Proof.
  assert (∀ Row querySlice writeProgress (w : World Row) latest result,
            backfill_start cfg w latest ≤ latest →
            (scanHistorical cfg (Some latest) querySlice writeProgress fuel w).2
              ≠ Ok result) as Hscan.
  { intros Row querySlice writeProgress w latest result Hle.
    rewrite scanHistorical_from_ComputeStart, bind_unfold.
    pose proof (backfillLoop_diverges cfg querySlice writeProgress fuel _ latest w HC Hle)
      as Hnever.
    destruct (backfillLoop cfg querySlice writeProgress fuel _ latest w)
      as [w1 [[]|e|]]; done. }
  split_and!.
  - intros chain w latest result Hhead Hle. unfold Items.scanHistorical. rewrite Hhead.
    by apply Hscan.
  - intros chain w latest result Hhead Hle. unfold Egg.scanHistorical. rewrite Hhead.
    by apply Hscan.
  - intros chain w. apply (tick_stuck cfg _ _ _ items_issued); [apply items_slice_frame|done].
  - intros chain w.
    apply (tick_stuck cfg _ _ _ (egg_issued cfg)); [apply egg_slice_frame|done].
Qed.

(** A range width of -5: the backfill of the scenario runs out of any fuel. *)
Lemma X8_negative_chunk_witness :
  (Egg.scanHistorical cfg_negative_chunk Scenario.egg_chain 50 Scenario.fresh).2 = OutOfFuel.
Proof.
  destruct (X8_negative_chunk cfg_negative_chunk 50 ltac:(by cbn)) as (_ & Hegg & _).
  pose proof (Hegg Scenario.egg_chain Scenario.fresh 252) as Hnever.
  destruct (Egg.scanHistorical cfg_negative_chunk Scenario.egg_chain 50 Scenario.fresh)
    as [w' [r|e|]] eqn:Hrun; cbn [snd] in *.
  - exfalso. apply (Hnever r); [reflexivity|vm_compute; discriminate|reflexivity].
  - vm_compute in Hrun. discriminate Hrun.
  - reflexivity.
Defined.

(** ** A tick that goes through, and the ticks after it *)

Lemma slices_cover fuel cursor safeHead CHUNK rs :
  0 ≤ CHUNK → slices fuel cursor safeHead CHUNK = Some rs →
  concat (heights <$> rs) = seqZ cursor (safeHead - cursor + 1)
  ∧ Forall (λ r, cursor ≤ range_start r ∧ range_end r ≤ safeHead) rs
  ∧ (cursor ≤ safeHead → range_end <$> last rs = Some safeHead).
Proof. rewrite slices_chunks. apply chunks_cover. Qed.

Section TickFacts.
Context {Row : Type}.
Variable cfg : Config.
Variable querySlice : Z → Z → Run (World Row) unit.
Variable writeProgress : Z → option unit.
Variable issued : Z → Z → list Query.
Hypothesis Hframe : slice_frame querySlice issued.
Hypothesis Hissued : ∀ s e, Forall (λ q, q_from q = s) (issued s e).

Lemma tick_idle H fuel (w : World Row) :
  H - CONFIRMATIONS cfg ≤ lastProcessed w →
  tick cfg (Some H) querySlice writeProgress fuel w = (w, Ok ()).
Proof.
  intros Hsafe. unfold tick, tryCatch, tickBody. cbn [await ret].
  rewrite bind_unfold. cbn [ret]. rewrite bind_unfold. cbn [gets].
  by rewrite bool_decide_eq_true_2.
Qed.

Lemma tickBody_done H fuel (w w' : World Row) :
  0 ≤ CHUNK cfg → lastProcessed w < H - CONFIRMATIONS cfg →
  tickBody cfg (Some H) querySlice writeProgress fuel w = (w', Ok ()) →
  lastProcessed w' = H - CONFIRMATIONS cfg
  ∧ progress w' = Some (H - CONFIRMATIONS cfg)
  ∧ ∃ rs, slices fuel (lastProcessed w + 1) (H - CONFIRMATIONS cfg) (CHUNK cfg) = Some rs
        ∧ queries w' = queries w ++ issued_for issued rs
        ∧ concat (heights <$> rs)
          = seqZ (lastProcessed w + 1) (H - CONFIRMATIONS cfg - lastProcessed w).
Proof.
  intros HC Hsafe. unfold tickBody. cbn [await ret].
  rewrite bind_unfold. cbn [ret]. rewrite bind_unfold. cbn [gets].
  rewrite bool_decide_eq_false_2 by lia. rewrite bind_unfold.
  destruct (pollLoop cfg querySlice fuel _ _ w) as [w1 [[]|e|]] eqn:Hloop; [|discriminate..].
  rewrite bind_unfold. cbn [set_lastProcessed modify]. rewrite saveProgress_cases.
  destruct (writeProgress _) as [[]|]; [|discriminate]. intros [= <-].
  split_and!; [done..|].
  apply (pollLoop_follows_slices cfg querySlice issued) in Hloop as (rs & Hrs & Hq);
    [|intros s e w0; apply Hframe].
  exists rs. split_and!; [done..|].
  destruct (slices_cover _ _ _ _ _ HC Hrs) as (-> & _). f_equal. lia.
Qed.



(** With every slice and the write of the checkpoint going through, a tick
    with something to scan ends and advances. *)
Hypothesis Hok : ∀ s e w, (querySlice s e w).2 = Ok ().
Hypothesis Hwrite : ∀ h, writeProgress h = Some ().

Lemma tick_advances H fuel (w : World Row) :
  0 ≤ CHUNK cfg → lastProcessed w < H - CONFIRMATIONS cfg →
  (enough (lastProcessed w + 1) (H - CONFIRMATIONS cfg) ≤ fuel)%nat →
  ∃ w' rs,
    tick cfg (Some H) querySlice writeProgress fuel w = (w', Ok ())
    ∧ lastProcessed w' = H - CONFIRMATIONS cfg
    ∧ progress w' = Some (H - CONFIRMATIONS cfg)
    ∧ slices fuel (lastProcessed w + 1) (H - CONFIRMATIONS cfg) (CHUNK cfg) = Some rs
    ∧ queries w' = queries w ++ issued_for issued rs
    ∧ concat (heights <$> rs)
      = seqZ (lastProcessed w + 1) (H - CONFIRMATIONS cfg - lastProcessed w).
Proof.
  intros HC Hsafe Hfuel.
  assert (∃ w', tickBody cfg (Some H) querySlice writeProgress fuel w = (w', Ok ()))
    as [w' Hbody].
  { unfold tickBody. cbn [await ret].
    rewrite bind_unfold. cbn [ret]. rewrite bind_unfold. cbn [gets].
    rewrite bool_decide_eq_false_2 by lia. rewrite bind_unfold.
    pose proof (pollLoop_ends cfg querySlice Hok fuel _ _ w HC Hfuel) as Hends.
    destruct (pollLoop cfg querySlice fuel _ _ w) as [w1 r]. cbn in Hends. subst r.
    rewrite bind_unfold. cbn [set_lastProcessed modify].
    rewrite saveProgress_cases, Hwrite. by eexists. }
  destruct (tickBody_done H fuel w w' HC Hsafe Hbody) as (Hl & Hp & rs & Hrs & Hq & Hcov).
  exists w', rs. split_and!; [|done..].
  unfold tick, tryCatch. by rewrite Hbody.
Qed.

(** A tick of either kind, idle or advancing. *)
Lemma tick_settles H fuel (w : World Row) :
  0 ≤ CHUNK cfg →
  (enough (lastProcessed w + 1) (H - CONFIRMATIONS cfg) ≤ fuel)%nat →
  ∃ w' rs,
    tick cfg (Some H) querySlice writeProgress fuel w = (w', Ok ())
    ∧ lastProcessed w' = Z.max (lastProcessed w) (H - CONFIRMATIONS cfg)
    ∧ (lastProcessed w < lastProcessed w' → progress w' = Some (lastProcessed w'))
    ∧ (lastProcessed w' = lastProcessed w → w' = w)
    ∧ queries w' = queries w ++ issued_for issued rs
    ∧ concat (heights <$> rs)
      = seqZ (lastProcessed w + 1) (lastProcessed w' - lastProcessed w).
Proof.
  intros HC Hfuel.
  destruct (decide (H - CONFIRMATIONS cfg ≤ lastProcessed w)) as [Hidle|Hsafe].
  - exists w, []. rewrite tick_idle by done. cbn [issued_for fmap list_fmap concat].
    rewrite app_nil_r, seqZ_nil by lia. split_and!; [done|lia|lia|done..].
  - destruct (tick_advances H fuel w HC ltac:(lia) Hfuel)
      as (w' & rs & Hrun & Hl & Hp & _ & Hq & Hcov).
    exists w', rs. split_and!; [done|lia|by rewrite Hl|lia|done|by rewrite Hl].
Qed.

End TickFacts.

(** Two ticks one after the other, the second from the state the first
    left: together they scan the heights from the old marker up to the
    highest safe head, each once, and leave the marker there. *)
Lemma two_ticks {Row} cfg issued qs1 wr1 qs2 wr2 H1 H2 fuel1 fuel2 (w : World Row) :
  slice_frame qs1 issued → slice_frame qs2 issued →
  (∀ s e w0, (qs1 s e w0).2 = Ok ()) → (∀ s e w0, (qs2 s e w0).2 = Ok ()) →
  (∀ h, wr1 h = Some ()) → (∀ h, wr2 h = Some ()) →
  0 ≤ CHUNK cfg →
  (enough (lastProcessed w + 1) (H1 - CONFIRMATIONS cfg) ≤ fuel1)%nat →
  (enough (Z.max (lastProcessed w) (H1 - CONFIRMATIONS cfg) + 1) (H2 - CONFIRMATIONS cfg)
     ≤ fuel2)%nat →
  ∃ w1 w2 rs1 rs2,
    tick cfg (Some H1) qs1 wr1 fuel1 w = (w1, Ok ())
    ∧ tick cfg (Some H2) qs2 wr2 fuel2 w1 = (w2, Ok ())
    ∧ lastProcessed w2
      = Z.max (lastProcessed w) (Z.max (H1 - CONFIRMATIONS cfg) (H2 - CONFIRMATIONS cfg))
    ∧ (lastProcessed w < lastProcessed w2 → progress w2 = Some (lastProcessed w2))
    ∧ (lastProcessed w2 = lastProcessed w → w2 = w)
    ∧ queries w2 = queries w ++ issued_for issued rs1 ++ issued_for issued rs2
    ∧ concat (heights <$> (rs1 ++ rs2))
      = seqZ (lastProcessed w + 1) (lastProcessed w2 - lastProcessed w).
Proof.
  intros Hframe1 Hframe2 Hok1 Hok2 Hwrite1 Hwrite2 HC Hfuel1 Hfuel2.
  destruct (tick_settles cfg qs1 wr1 issued Hframe1 Hok1 Hwrite1 H1 fuel1 w HC Hfuel1)
    as (w1 & rs1 & Hrun1 & Hl1 & Hp1 & Hsame1 & Hq1 & Hcov1).
  destruct (tick_settles cfg qs2 wr2 issued Hframe2 Hok2 Hwrite2 H2 fuel2 w1 HC)
    as (w2 & rs2 & Hrun2 & Hl2 & Hp2 & Hsame2 & Hq2 & Hcov2); [by rewrite Hl1|].
  exists w1, w2, rs1, rs2. split_and!; [done|done|lia| | | |].
  - intros Hmoved. destruct (decide (lastProcessed w1 < lastProcessed w2)) as [|Hstay];
      [by apply Hp2|].
    rewrite (Hsame2 ltac:(lia)). apply Hp1. rewrite (Hsame2 ltac:(lia)) in Hmoved. done.
  - intros Hstay. rewrite (Hsame2 ltac:(lia)). apply Hsame1. lia.
  - by rewrite Hq2, Hq1, app_assoc.
  - rewrite fmap_app, concat_app, Hcov1, Hcov2.
    replace (lastProcessed w2 - lastProcessed w)
      with ((lastProcessed w1 - lastProcessed w) + (lastProcessed w2 - lastProcessed w1))
      by lia.
    rewrite seqZ_app by lia. do 2 f_equal. lia.
Qed.



(** X9: a tick of either monitor whose safe head, head - CONFIRMATIONS, is
    not above [lastProcessed] does nothing at all. Otherwise, with a range
    width that is not negative, a chain client whose calls all succeed and
    a checkpoint file that can be written, it ends within
    safeHead - lastProcessed iterations, has queried exactly the ranges of
    the scheduler over lastProcessed + 1 .. safeHead, which hold each of
    these heights once, and leaves both [lastProcessed] and the checkpoint
    file at the safe head. *)
Theorem X9_tick_advances cfg H fuel (HC : 0 ≤ CHUNK cfg) :
  (∀ chain (w : World Items.Row),
     Items.getBlockNumber chain = Some H →
     (H - CONFIRMATIONS cfg ≤ lastProcessed w → Items.tick cfg chain fuel w = (w, Ok ()))
     ∧ (lastProcessed w < H - CONFIRMATIONS cfg → items_healthy chain →
        (enough (lastProcessed w + 1) (H - CONFIRMATIONS cfg) ≤ fuel)%nat →
        ∃ w' rs,
          Items.tick cfg chain fuel w = (w', Ok ())
          ∧ lastProcessed w' = H - CONFIRMATIONS cfg
          ∧ progress w' = Some (H - CONFIRMATIONS cfg)
          ∧ slices fuel (lastProcessed w + 1) (H - CONFIRMATIONS cfg) (CHUNK cfg) = Some rs
          ∧ queries w' = queries w ++ issued_for items_issued rs
          ∧ concat (heights <$> rs)
            = seqZ (lastProcessed w + 1) (H - CONFIRMATIONS cfg - lastProcessed w)))
  ∧ (∀ chain (w : World Egg.Row),
       Egg.getBlockNumber chain = Some H →
       (H - CONFIRMATIONS cfg ≤ lastProcessed w → Egg.tick cfg chain fuel w = (w, Ok ()))
       ∧ (lastProcessed w < H - CONFIRMATIONS cfg → egg_healthy chain →
          (enough (lastProcessed w + 1) (H - CONFIRMATIONS cfg) ≤ fuel)%nat →
          ∃ w' rs,
            Egg.tick cfg chain fuel w = (w', Ok ())
            ∧ lastProcessed w' = H - CONFIRMATIONS cfg
            ∧ progress w' = Some (H - CONFIRMATIONS cfg)
            ∧ slices fuel (lastProcessed w + 1) (H - CONFIRMATIONS cfg) (CHUNK cfg) = Some rs
            ∧ queries w' = queries w ++ issued_for (egg_issued cfg) rs
            ∧ concat (heights <$> rs)
              = seqZ (lastProcessed w + 1) (H - CONFIRMATIONS cfg - lastProcessed w))).
Proof.
  split; intros chain w Hhead.
  - unfold Items.tick. rewrite Hhead. split; [apply tick_idle|].
    intros Hsafe Hhealthy Hfuel.
    apply (tick_advances cfg _ _ items_issued (items_slice_frame cfg chain)); [| |done..].
    + intros s e w0. by apply items_healthy_slice.
    + apply Hhealthy.
  - unfold Egg.tick. rewrite Hhead. split; [apply tick_idle|].
    intros Hsafe Hhealthy Hfuel.
    apply (tick_advances cfg _ _ (egg_issued cfg) (egg_slice_frame cfg chain)); [| |done..].
    + intros s e w0. by apply egg_healthy_slice.
    + apply Hhealthy.
Qed.

(** The first tick of the scenario after a checkpoint at 100, the head at
    252: one range, 101..250. *)
Lemma X9_tick_advances_witness :
  ∃ w', Egg.tick Scenario.cfg Scenario.egg_chain 150 Scenario.at100 = (w', Ok ())
      ∧ lastProcessed w' = 250 ∧ progress w' = Some 250
      ∧ (λ q, (q_from q, q_to q)) <$> queries w' = [(101, 201); (202, 250)].
Proof.
  destruct (X9_tick_advances Scenario.cfg 252 150 ltac:(by cbn)) as [_ Hegg].
  destruct (Hegg Scenario.egg_chain Scenario.at100 eq_refl) as [_ Hadv].
  destruct Hadv as (w' & rs & Hrun & Hl & Hp & Hrs & Hq & _);
    [vm_compute; reflexivity|apply scenario_egg_healthy|vm_compute; lia|].
  exists w'. split_and!; [done..|].
  vm_compute in Hrs. injection Hrs as <-. rewrite Hq. reflexivity.
Defined.

(** X10: two ticks of either monitor run one after the other, the second
    from the state the first left, every call and every write of the
    checkpoint succeeding, whatever the two heads are: the ranges the two
    have queried, taken together, hold each height from the old
    lastProcessed + 1 to the highest safe head exactly once, in ascending
    order (none when no safe head is above the old [lastProcessed]; then
    nothing changes at all); [lastProcessed] ends at the greatest of its old
    value and the two safe heads, and the checkpoint file holds that value
    whenever it moved. Nothing is scanned twice and nothing is skipped
    between two such ticks. *)
Theorem X10_successive_ticks cfg H1 H2 fuel1 fuel2 (HC : 0 ≤ CHUNK cfg) :
  (∀ chain1 chain2 (w : World Items.Row),
     Items.getBlockNumber chain1 = Some H1 → Items.getBlockNumber chain2 = Some H2 →
     items_healthy chain1 → items_healthy chain2 →
     (enough (lastProcessed w + 1) (H1 - CONFIRMATIONS cfg) ≤ fuel1)%nat →
     (enough (Z.max (lastProcessed w) (H1 - CONFIRMATIONS cfg) + 1)
        (H2 - CONFIRMATIONS cfg) ≤ fuel2)%nat →
     ∃ w1 w2 rs1 rs2,
       Items.tick cfg chain1 fuel1 w = (w1, Ok ())
       ∧ Items.tick cfg chain2 fuel2 w1 = (w2, Ok ())
       ∧ lastProcessed w2
         = Z.max (lastProcessed w) (Z.max (H1 - CONFIRMATIONS cfg) (H2 - CONFIRMATIONS cfg))
       ∧ (lastProcessed w < lastProcessed w2 → progress w2 = Some (lastProcessed w2))
       ∧ (lastProcessed w2 = lastProcessed w → w2 = w)
       ∧ queries w2 = queries w ++ issued_for items_issued rs1 ++ issued_for items_issued rs2
       ∧ concat (heights <$> (rs1 ++ rs2))
         = seqZ (lastProcessed w + 1) (lastProcessed w2 - lastProcessed w))
  ∧ (∀ chain1 chain2 (w : World Egg.Row),
       Egg.getBlockNumber chain1 = Some H1 → Egg.getBlockNumber chain2 = Some H2 →
       egg_healthy chain1 → egg_healthy chain2 →
       (enough (lastProcessed w + 1) (H1 - CONFIRMATIONS cfg) ≤ fuel1)%nat →
       (enough (Z.max (lastProcessed w) (H1 - CONFIRMATIONS cfg) + 1)
          (H2 - CONFIRMATIONS cfg) ≤ fuel2)%nat →
       ∃ w1 w2 rs1 rs2,
         Egg.tick cfg chain1 fuel1 w = (w1, Ok ())
         ∧ Egg.tick cfg chain2 fuel2 w1 = (w2, Ok ())
         ∧ lastProcessed w2
           = Z.max (lastProcessed w)
               (Z.max (H1 - CONFIRMATIONS cfg) (H2 - CONFIRMATIONS cfg))
         ∧ (lastProcessed w < lastProcessed w2 → progress w2 = Some (lastProcessed w2))
         ∧ (lastProcessed w2 = lastProcessed w → w2 = w)
         ∧ queries w2
           = queries w ++ issued_for (egg_issued cfg) rs1 ++ issued_for (egg_issued cfg) rs2
         ∧ concat (heights <$> (rs1 ++ rs2))
           = seqZ (lastProcessed w + 1) (lastProcessed w2 - lastProcessed w)).
Proof.
  split; intros chain1 chain2 w Hhead1 Hhead2 Hhealthy1 Hhealthy2 Hfuel1 Hfuel2.
  - unfold Items.tick. rewrite Hhead1, Hhead2.
    apply (two_ticks cfg items_issued); try done; try apply items_slice_frame.
    + intros s e w0. by apply items_healthy_slice.
    + intros s e w0. by apply items_healthy_slice.
    + apply Hhealthy1.
    + apply Hhealthy2.
  - unfold Egg.tick. rewrite Hhead1, Hhead2.
    apply (two_ticks cfg (egg_issued cfg)); try done; try apply egg_slice_frame.
    + intros s e w0. by apply egg_healthy_slice.
    + intros s e w0. by apply egg_healthy_slice.
    + apply Hhealthy1.
    + apply Hhealthy2.
Qed.

Lemma scenario_egg_250_healthy : egg_healthy Scenario.egg_chain_250.
Proof.
  split_and!; [|by eexists|done]. intros filter s e. cbn. case_bool_decide; by eexists.
Qed.

(** Two ticks of the scenario after a checkpoint at 100: the head at 250,
    then at 252. *)
Lemma X10_successive_ticks_witness :
  ∃ w1 w2,
    Egg.tick Scenario.cfg Scenario.egg_chain_250 150 Scenario.at100 = (w1, Ok ())
    ∧ Egg.tick Scenario.cfg Scenario.egg_chain 150 w1 = (w2, Ok ())
    ∧ lastProcessed w2 = 250
    ∧ (λ q, (q_from q, q_to q)) <$> queries w2 = [(101, 201); (202, 248); (249, 250)].
Proof.
  destruct (X10_successive_ticks Scenario.cfg 250 252 150 150 ltac:(by cbn)) as [_ Hegg].
  destruct (Hegg Scenario.egg_chain_250 Scenario.egg_chain Scenario.at100 eq_refl eq_refl
              scenario_egg_250_healthy scenario_egg_healthy)
    as (w1 & w2 & rs1 & rs2 & Hrun1 & Hrun2 & Hl & _ & _ & Hq & _); [vm_compute; lia..|].
  exists w1, w2. split_and!; [done|done|rewrite Hl; reflexivity|].
  vm_compute in Hrun1. injection Hrun1 as <-.
  vm_compute in Hrun2. injection Hrun2 as <-. reflexivity.
Defined.

(** ** From the backfill to the first tick *)




(** ** Nothing a slice returned is left out *)

Lemma forEach_all {W A} (l : list A) (body : A → Run W unit) (P : A → W → Prop) :
  (∀ x w w', body x w = (w', Ok ()) → P x w') →
  (∀ x y w, P x w → P x (body y w).1) →
  ∀ w w', forEach l body w = (w', Ok ()) → ∀ x, x ∈ l → P x w'.
Proof.
  intros Hdone Hmono. induction l as [|y l IH]; intros w w' Hrun x Hx;
    [by apply elem_of_nil in Hx|].
  cbn [forEach] in Hrun. unfold bind in Hrun.
  destruct (body y w) as [w1 [[]|e|]] eqn:Hy; [|discriminate..].
  apply elem_of_cons in Hx as [->|Hx]; [|by apply (IH w1)].
  apply Hdone in Hy. clear IH. revert w1 Hy Hrun.
  induction l as [|z l IH]; intros w1 Hy Hrun; cbn [forEach] in Hrun.
  - by injection Hrun as <-.
  - unfold bind in Hrun. pose proof (Hmono y z w1 Hy) as Hz.
    destruct (body z w1) as [w2 [[]|e|]]; [|discriminate..]. by apply (IH w2).
Qed.

Lemma forEach_invariant {W A} (l : list A) (body : A → Run W unit) (Q : W → Prop) :
  (∀ y w, Q w → Q (body y w).1) → ∀ w, Q w → Q (forEach l body w).1.
Proof.
  intros Hbody. induction l as [|y l IH]; intros w Hw; cbn [forEach]; [done|].
  unfold bind. pose proof (Hbody y w Hw) as Hy.
  destruct (body y w) as [w1 [[]|e|]]; [by apply IH|done..].
Qed.

(** X12: when [querySlice] returns, nothing the node answered is left out.
    In the ERC-721 monitor every log of the answer has its key (transaction
    hash and token) in the store, whoever its receiver is: the script leaves
    the choice of receiver to the node's filter. In the ERC-1155 monitor the
    store holds the transaction of every single transfer to the watched
    wallet of a watched identifier in an amount that is not zero, and of
    every batch to the watched wallet with at least one such entry. *)
Theorem X12_answered_logs_recorded cfg s e :
  (∀ chain evs (w w' : World Egg.Row),
     Egg.logs chain (Egg.filter cfg) s e = Some evs →
     Egg.querySlice chain (Egg.filter cfg) s e w = (w', Ok ()) →
     ∀ ev, ev ∈ evs → Egg.keyOf (Egg.ev_tokenId ev) (Egg.ev_log ev) ∈ Egg.keys (db w'))
  ∧ (∀ chain singleLogs batchLogs (w w' : World Items.Row),
       Items.logsSingle chain s e = Some singleLogs →
       Items.logsBatch chain s e = Some batchLogs →
       Items.querySlice cfg chain s e w = (w', Ok ()) →
       (∀ ev id value,
          ev ∈ singleLogs →
          Items.single_id ev = Some id → Items.single_value ev = Some value →
          id ≠ 0%N → value ≠ 0%N → toString id ∈ Items.WATCH_TOKEN_IDS →
          same_address (orEmpty (Items.single_to ev)) (env_WATCH_WALLET cfg) →
          toLowerCase (Items.transactionHash (Items.single_log ev)) ∈ Items.hashes (db w'))
       ∧ (∀ ev ids values,
            ev ∈ batchLogs →
            Items.batch_ids ev = Some ids → Items.batch_values ev = Some values →
            same_address (orEmpty (Items.batch_to ev)) (env_WATCH_WALLET cfg) →
            Items.watched_entries ids values ≠ [] →
            toLowerCase (Items.transactionHash (Items.batch_log ev))
              ∈ Items.hashes (db w'))).
Proof.
  split.
  - intros chain evs w w' Hlogs Hrun ev Hev.
    unfold Egg.querySlice, queryFilter in Hrun. rewrite !bind_unfold in Hrun.
    cbn [modify] in Hrun. rewrite Hlogs in Hrun. cbn [await ret] in Hrun.
    unfold Egg.handleLogs in Hrun.
    eapply (forEach_all evs _
              (λ ev w0, Egg.keyOf (Egg.ev_tokenId ev) (Egg.ev_log ev) ∈ Egg.keys (db w0)));
      [| |exact Hrun|exact Hev].
    + intros x w0 w1. apply EggFacts.egg_enrich_recorded.
    + intros x y w0 Hin. by apply EggFacts.egg_enrich_grows.
  - intros chain singleLogs batchLogs w w' Hsingle Hbatch Hrun.
    unfold Items.querySlice in Hrun. rewrite bind_unfold in Hrun. cbn [modify] in Hrun.
    rewrite bind_unfold, Hsingle in Hrun. cbn [await ret] in Hrun.
    rewrite bind_unfold, Hbatch in Hrun. cbn [await ret] in Hrun.
    unfold Items.handleLogs in Hrun. rewrite bind_unfold in Hrun.
    destruct (forEach singleLogs _ _) as [w1 [[]|err|]] eqn:Hsingles; [|discriminate..].
    split.
    + intros ev id value Hev Hid Hvalue Hid0 Hvalue0 Hwatched Hto.
      assert (toLowerCase (Items.transactionHash (Items.single_log ev))
                ∈ Items.hashes (db w1)) as Hin.
      { apply (forEach_all singleLogs (Items.handleTransferSingle cfg chain)
                 (λ ev w0, ∀ id value,
                    Items.single_id ev = Some id → Items.single_value ev = Some value →
                    id ≠ 0%N → value ≠ 0%N → toString id ∈ Items.WATCH_TOKEN_IDS →
                    same_address (orEmpty (Items.single_to ev)) (env_WATCH_WALLET cfg) →
                    toLowerCase (Items.transactionHash (Items.single_log ev))
                      ∈ Items.hashes (db w0))) with (w := mkWorld (db w) (progress w)
                        (lastProcessed w) (queries w ++ items_issued s e)) (x := ev)
                        (id := id) (value := value); try done.
        - intros x w0 w2 Hx id' value' ? ? ? ? ? ?.
          rewrite (items_single_handled cfg chain x id' value') in Hx by done.
          by apply ItemsFacts.items_enrich_recorded in Hx.
        - intros x y w0 Hx id' value' ? ? ? ? ? ?.
          apply (ItemsHandlers.decides_grows cfg
                   (λ chain, Items.handleTransferSingle cfg chain y) chain w0);
            [apply ItemsHandlers.single_decides|by eapply Hx]. }
      pose proof (forEach_invariant batchLogs (Items.handleTransferBatch cfg chain)
                    (λ w0, toLowerCase (Items.transactionHash (Items.single_log ev))
                             ∈ Items.hashes (db w0))) as Hkeep.
      specialize (Hkeep (λ y w0 Hy,
        ItemsHandlers.decides_grows cfg (λ chain, Items.handleTransferBatch cfg chain y)
          chain w0 (ItemsHandlers.batch_decides cfg y) _ Hy) w1 Hin).
      by rewrite Hrun in Hkeep.
    + intros ev ids values Hev Hids Hvalues Hto Hkept.
      apply (forEach_all batchLogs (Items.handleTransferBatch cfg chain)
               (λ ev w0, ∀ ids values,
                  Items.batch_ids ev = Some ids → Items.batch_values ev = Some values →
                  same_address (orEmpty (Items.batch_to ev)) (env_WATCH_WALLET cfg) →
                  Items.watched_entries ids values ≠ [] →
                  toLowerCase (Items.transactionHash (Items.batch_log ev))
                    ∈ Items.hashes (db w0))) with (w := w1) (x := ev)
                      (ids := ids) (values := values); try done.
      * intros x w0 w2 Hx ids' values' Hids' Hvalues' Hto' Hkept'.
        rewrite (ItemsFilter.batch_watched cfg chain x ids' values') in Hx by done.
        destruct (Items.watched_entries ids' values') as [|p kept]; [done|].
        by apply ItemsFacts.items_enrich_recorded in Hx.
      * intros x y w0 Hx ids' values' ? ? ? ?.
        apply (ItemsHandlers.decides_grows cfg
                 (λ chain, Items.handleTransferBatch cfg chain y) chain w0);
          [apply ItemsHandlers.batch_decides|by eapply Hx].
Qed.

(** ** The egg type and its cache *)

Module EggTypeFacts.
Import EggType.

Lemma truthy_Some x t : truthy x = Some t ↔ x = Some t ∧ t ≠ "".
Proof.
  unfold truthy. destruct x as [s|]; [|split; [done|by intros [? _]]].
  case_bool_decide as Hs; split.
  - done.
  - intros [[= ->] Hne]. done.
  - intros [= ->]. done.
  - intros [[= ->] _]. done.
Qed.

Lemma parse_nonempty json t : parseEggTypeFromJson json = Some t → t ≠ "".
Proof.
  unfold parseEggTypeFromJson. destruct json as [j|]; [|done].
  destruct (attributes j) as [attrs|]; [|done].
  destruct (list_find _ attrs) as [[i attr]|]; [|done].
  intros Ht. by apply truthy_Some in Ht as [_ ?].
Qed.

Lemma eggTypeOf_nonempty res : eggTypeOf res ≠ "".
Proof.
  unfold eggTypeOf. destruct res as [|[] [json|]]; try done.
  destruct (parseEggTypeFromJson json) as [found|] eqn:Hparse; [|done].
  by apply parse_nonempty in Hparse.
Qed.

(** The two ways through [fetchEggType]. *)
Lemma fetchEggType_cases fetch now tokenId (c : Cache) :
  (∃ cached, eggType <$> eggCache c !! toString tokenId = Some cached ∧ cached ≠ ""
             ∧ fetchEggType fetch now tokenId c = (c, Ok cached))
  ∨ (truthy (eggType <$> eggCache c !! toString tokenId) = None
     ∧ fetchEggType fetch now tokenId c
       = ({| eggCache := <[toString tokenId :=
                             {| eggType := eggTypeOf (fetch (toString tokenId));
                                cachedAt := now |}]> (eggCache c);
             fetched := fetched c ++ [toString tokenId] |},
          Ok (eggTypeOf (fetch (toString tokenId))))).
Proof.
  unfold fetchEggType. rewrite bind_unfold. cbn [gets].
  destruct (truthy (eggType <$> eggCache c !! toString tokenId)) as [cached|] eqn:Hhit.
  - left. exists cached. apply truthy_Some in Hhit as [? ?]. done.
  - right. split; [done|]. rewrite !bind_unfold. reflexivity.
Qed.

End EggTypeFacts.

(** X13: [fetchEggType] always returns, and never throws, whatever the
    metadata service does. Its answer is never the empty string; after the
    call the cache holds that answer under the token's key and every other
    key as before; and the service was asked at most once, for this token. *)
Theorem X13_egg_type_answer fetch now tokenId (c : EggType.Cache) :
  ∃ c' t,
    EggType.fetchEggType fetch now tokenId c = (c', Ok t)
    ∧ t ≠ ""
    ∧ EggType.eggType <$> EggType.eggCache c' !! toString tokenId = Some t
    ∧ (∀ key, key ≠ toString tokenId →
              EggType.eggCache c' !! key = EggType.eggCache c !! key)
    ∧ (EggType.fetched c' = EggType.fetched c
       ∨ (EggType.fetched c' = EggType.fetched c ++ [toString tokenId]
          ∧ t = EggType.eggTypeOf (fetch (toString tokenId)))).
Proof.
  destruct (EggTypeFacts.fetchEggType_cases fetch now tokenId c)
    as [(cached & Hhit & Hne & ->)|[Hmiss ->]].
  - exists c, cached. split_and!; [done..|by left].
  - eexists _, _. split; [reflexivity|]. cbn [EggType.eggCache EggType.fetched].
    split_and!.
    + apply EggTypeFacts.eggTypeOf_nonempty.
    + by rewrite lookup_insert_eq.
    + intros key Hkey. by rewrite lookup_insert_ne.
    + by right.
Qed.

(** X14: the egg type of a token is fetched once. A second call for the
    same token, at any later time and whatever the service would answer
    then, returns the first call's answer and changes nothing: no request is
    made and the cache is as the first call left it. So a failed request
    settles the token's type as "Unknown": it is not tried again. *)
Theorem X14_egg_type_fetched_once fetch1 fetch2 now1 now2 tokenId (c : EggType.Cache) :
  EggType.fetchEggType fetch2 now2 tokenId (EggType.fetchEggType fetch1 now1 tokenId c).1
    = EggType.fetchEggType fetch1 now1 tokenId c
  ∧ (EggType.truthy (EggType.eggType <$> EggType.eggCache c !! toString tokenId) = None →
     fetch1 (toString tokenId) = EggType.NetworkError →
     (EggType.fetchEggType fetch2 now2 tokenId
        (EggType.fetchEggType fetch1 now1 tokenId c).1).2 = Ok "Unknown").
Proof.
  assert (EggType.fetchEggType fetch2 now2 tokenId
            (EggType.fetchEggType fetch1 now1 tokenId c).1
          = EggType.fetchEggType fetch1 now1 tokenId c) as Hsame.
  { destruct (EggTypeFacts.fetchEggType_cases fetch1 now1 tokenId c)
      as [(cached & Hhit & Hne & Hrun)|[Hmiss Hrun]]; rewrite Hrun; cbn [fst].
    - destruct (EggTypeFacts.fetchEggType_cases fetch2 now2 tokenId c)
        as [(cached' & Hhit' & _ & ->)|[Hmiss' _]]; [congruence|].
      rewrite Hhit in Hmiss'. cbn in Hmiss'. by case_bool_decide.
    - set (c1 := {| EggType.eggCache := _; EggType.fetched := _ |}).
      destruct (EggTypeFacts.fetchEggType_cases fetch2 now2 tokenId c1)
        as [(cached' & Hhit' & _ & ->)|[Hmiss' _]].
      + subst c1. cbn [EggType.eggCache] in Hhit'. rewrite lookup_insert_eq in Hhit'.
        cbn in Hhit'. congruence.
      + subst c1. cbn [EggType.eggCache] in Hmiss'. rewrite lookup_insert_eq in Hmiss'.
        cbn in Hmiss'. case_bool_decide as Hempty; [|done].
        by apply EggTypeFacts.eggTypeOf_nonempty in Hempty. }
  split; [done|]. intros Hmiss Hfail. rewrite Hsame.
  destruct (EggTypeFacts.fetchEggType_cases fetch1 now1 tokenId c)
    as [(cached & Hhit & Hne & _)|[_ ->]].
  - rewrite Hhit in Hmiss. cbn in Hmiss. by case_bool_decide.
  - cbn [snd]. by rewrite Hfail.
Qed.

(** X15: [parseEggTypeFromJson] answers from the first attribute whose
    [trait_type], lowercased, is "egg type", and from that one alone: its
    value when it has one that is not empty, null otherwise, whatever
    attributes of that name follow; and null when no attribute has that
    name. *)
Theorem X15_first_egg_type_attribute before attr after
    (Hbefore : Forall (λ a, toLowerCase (EggType.traitName a) ≠ "egg type") before)
    (Hattr : toLowerCase (EggType.traitName attr) = "egg type") :
  EggType.parseEggTypeFromJson
    (Some {| EggType.attributes := Some (before ++ attr :: after) |})
    = EggType.truthy (attr ≫= EggType.value)
  ∧ EggType.parseEggTypeFromJson (Some {| EggType.attributes := Some before |}) = None.
Proof.
  unfold EggType.parseEggTypeFromJson. cbn [EggType.attributes]. split.
  - assert (list_find (λ a, toLowerCase (EggType.traitName a) = "egg type")
              (before ++ attr :: after) = Some (length before, attr)) as ->; [|done].
    apply list_find_Some. split_and!; [by apply list_lookup_middle|done|].
    intros j a Hj Hlt. rewrite lookup_app_l in Hj by done.
    rewrite Forall_forall in Hbefore. apply Hbefore. by eapply list_elem_of_lookup_2.
  - assert (list_find (λ a, toLowerCase (EggType.traitName a) = "egg type") before = None)
      as ->; [|done].
    by apply list_find_None.
Qed.

(** A rarity, a null entry, then two attributes named as egg types: the
    first of the two counts. *)
Lemma X15_first_egg_type_attribute_witness :
  EggType.parseEggTypeFromJson
    (Some {| EggType.attributes :=
               Some ([Some {| EggType.trait_type := Some "Rarity";
                              EggType.value := Some "Rare" |}; None]
                     ++ Some {| EggType.trait_type := Some "EGG TYPE";
                                EggType.value := Some "Fire" |}
                     :: [Some {| EggType.trait_type := Some "egg type";
                                 EggType.value := Some "Water" |}]) |})
    = Some "Fire".
Proof.
  refine (proj1 (X15_first_egg_type_attribute _ _ _ _ _)).
  - repeat constructor; vm_compute; discriminate.
  - vm_compute. reflexivity.
Defined.
